(** * parlaylib: the pool allocator and its lock-free stack

    A shallow embedding of [include/parlay/alloc.h],
    [include/parlay/internal/concurrent_stack.h] and
    [include/parlay/experimental/atomic.h], executed by one thread.

    Conventions.
    - [size_t] and [uint64_t] are integers in [0, 2^64) with the wrap-around
      written out ([wrap_size_t]); [long] is two's complement ([wrap_long]).
    - A pointer is its address, [nullptr] is address 0.
    - Memory owned by a stack is a finite map from addresses to nodes; reading
      through a pointer that is not in the map is undefined behaviour.
    - A call of [::operator new] receives what the C++ runtime answers as an
      extra argument: [Some p] for the address returned, [None] when the
      runtime throws [std::bad_alloc]. *)

From Stdlib Require Import ZArith Lia.
From stdpp Require Import base option list gmap strings.

Local Open Scope Z_scope.

(** ** Machine integers, pointers, C++ outcomes *)

Definition wrap_size_t (z : Z) : Z := z mod 2 ^ 64.
Definition wrap_long (z : Z) : Z := (z + 2 ^ 63) mod 2 ^ 64 - 2 ^ 63.

Abbreviation ptr := Z (only parsing).
Definition nullptr : ptr := 0.

Inductive exn : Type :=
| invalid_argument (what : string)
| bad_alloc.

(** What a call does: return, throw, run into undefined behaviour, or still
    be looping when the step budget of a modelled loop is used up. *)
Inductive result (A : Type) : Type :=
| Ret (x : A)
| Throw (e : exn)
| Undefined
| OutOfFuel.
Arguments Ret {A} x.
Arguments Throw {A} e.
Arguments Undefined {A}.
Arguments OutOfFuel {A}.

#[global] Instance result_ret : MRet result := @Ret.
#[global] Instance result_bind : MBind result := fun A B f m =>
  match m with
  | Ret x => f x
  | Throw e => Throw e
  | Undefined => Undefined
  | OutOfFuel => OutOfFuel
  end.

#[global] Instance result_fmap : FMap result := fun A B f m =>
  match m with
  | Ret x => Ret (f x)
  | Throw e => Throw e
  | Undefined => Undefined
  | OutOfFuel => OutOfFuel
  end.

(** [v[i]] on a [std::vector] or a raw array: outside the bounds the read is
    undefined. *)
Definition index {A : Type} (v : list A) (i : Z) : result A :=
  if bool_decide (0 <= i < Z.of_nat (length v)) then
    match v !! Z.to_nat i with
    | Some x => Ret x
    | None => Undefined
    end
  else Undefined.

(** Calls into the C++ runtime's allocator, in the order they are made. *)
Inductive sys_call : Type :=
| new_node (p : ptr)                        (* ::operator new(sizeof(Node)) = p *)
| delete_node (p : ptr)                     (* ::operator delete(p) *)
| new_aligned (bytes align : Z) (p : ptr)   (* ::operator new(bytes, align_val_t{align}) = p *)
| delete_aligned (p : ptr) (align : Z).     (* ::operator delete(p, align_val_t{align}) *)

(** ** experimental/atomic.h *)

Module experimental.

(** The two preprocessor blocks at the top of the header, and the
    [#if / #elif / #else] chain inside the function. *)
Inductive cas_backend : Type := GNU_CAS | WINDOWS_CAS | NO_CAS.

Record build_config : Type := mk_config {
  defined_GNUC : bool;
  defined_MCX16 : bool;
  defined_WIN32 : bool
}.

Definition PARLAY_EXPERIMENTAL_GNU_CAS (c : build_config) : bool :=
  defined_GNUC c && defined_MCX16 c.
Definition PARLAY_EXPERIMENTAL_WINDOWS_CAS (c : build_config) : bool :=
  defined_WIN32 c.

Definition selected_backend (c : build_config) : cas_backend :=
  if PARLAY_EXPERIMENTAL_GNU_CAS c then GNU_CAS
  else if PARLAY_EXPERIMENTAL_WINDOWS_CAS c then WINDOWS_CAS
  else NO_CAS.

(** The compiler built-ins, as their vendors document them, on a 16-byte
    location holding the 128-bit value [cur]. Both answer the new content
    of the location and whether the exchange happened. *)
Definition __sync_bool_compare_and_swap_16 (cur expected desired : Z) : Z * bool :=
  if bool_decide (cur = expected) then (desired, true) else (cur, false).

Definition _InterlockedCompareExchange128
    (cur exchange_high exchange_low comparand : Z) : Z * bool :=
  if bool_decide (cur = comparand)
  then (Z.lor (Z.shiftl exchange_high 64) exchange_low, true)
  else (cur, false).

(** What instantiating the template at a type of [sizeof_T] bytes leaves
    behind: a rejected translation unit, or a function body. *)
Inductive body : Type :=
| returns (f : Z -> Z -> Z -> Z * bool)
| no_return_statement.

Inductive instantiation : Type :=
| static_assert_failed
| compiled (b : body).

Definition atomic_compare_and_swap_16 (c : build_config) (sizeof_T : Z) : instantiation :=
  if negb (sizeof_T =? 16) then static_assert_failed
  else match selected_backend c with
       | GNU_CAS =>
           compiled (returns (fun obj expected desired =>
             __sync_bool_compare_and_swap_16 obj expected desired))
       | WINDOWS_CAS =>
           compiled (returns (fun obj expected desired =>
             _InterlockedCompareExchange128 obj
               (Z.shiftr desired 64) (Z.land desired (Z.ones 64)) expected))
       | NO_CAS => compiled no_return_statement
       end.

(** Calling the instantiated function: flowing off the end of a function
    that returns [bool] is undefined. *)
Definition call (i : instantiation) (obj expected desired : Z) : option (result (Z * bool)) :=
  match i with
  | static_assert_failed => None
  | compiled (returns f) => Some (Ret (f obj expected desired))
  | compiled no_return_statement => Some Undefined
  end.

End experimental.

(** ** internal/concurrent_stack.h *)

Module Node.
Record t (T : Type) : Type := mk {
  value : T;
  next : ptr;
  length : Z
}.
Arguments mk {T} value next length.
Arguments value {T} _.
Arguments next {T} _.
Arguments length {T} _.
End Node.

(** The nodes a stack owns, by address. *)
Abbreviation node_store T := (gmap Z (Node.t T)).

Module prim_concurrent_stack.

Record nodeAndCounter : Type := mkNC {
  node : ptr;
  counter : Z
}.

#[global] Instance nodeAndCounter_eq_dec : EqDecision nodeAndCounter.
Proof. solve_decision. Defined.

(** The 16 bytes of a [nodeAndCounter] as one 128-bit value, the way
    [memcpy] reads them on a little-endian machine. *)
Definition bits (x : nodeAndCounter) : Z :=
  Z.lor (Z.shiftl (counter x) 64) (node x).

(** [atomic_compare_and_swap_16(&head, expected, desired)] with a backend
    present: the two 8-byte fields are the 16 bytes compared. *)
Definition atomic_compare_and_swap_16 (obj expected desired : nodeAndCounter)
  : nodeAndCounter * bool :=
  if bool_decide (obj = expected) then (desired, true) else (obj, false).

(** The only data member is [head]. *)
Record t : Type := mk { head : nodeAndCounter }.

(** [prim_concurrent_stack() : head(nullptr, 0)] *)
Definition init : t := mk (mkNC nullptr 0).

Section ops.
Context {T : Type}.

Definition length (h : node_store T) (n : ptr) : result Z :=
  if bool_decide (n = nullptr) then Ret 0
  else match h !! n with
       | Some nd => Ret (Node.length nd)
       | None => Undefined
       end.

Definition size (h : node_store T) (s : t) : result Z :=
  length h (node (head s)).

(** One pass through the body of the [do] loop of [push], from the value
    [oldHead] read from [head]: the two stores into [*newNode] and the
    [newHead] offered to the compare-and-swap. *)
Definition push_body (h : node_store T) (oldHead : nodeAndCounter) (newNode : ptr)
  : result (node_store T * nodeAndCounter) :=
  match h !! newNode with
  | None => Undefined
  | Some nd =>
      len ← length h (node oldHead);
      let nd' := Node.mk (Node.value nd) (node oldHead) (wrap_size_t (len + 1)) in
      Ret (<[newNode := nd']> h,
           mkNC newNode (wrap_size_t (counter oldHead + 1)))
  end.

Fixpoint push_loop (fuel : nat) (h : node_store T) (s : t) (newNode : ptr)
  : result (node_store T * t) :=
  match fuel with
  | O => OutOfFuel
  | S fuel' =>
      let oldHead := head s in
      '(h', newHead) ← push_body h oldHead newNode;
      let '(now, swapped) := atomic_compare_and_swap_16 (head s) oldHead newHead in
      if swapped then Ret (h', mk now)
      else push_loop fuel' h' (mk now) newNode
  end.

(** With one thread nothing changes [head] between the read and the
    compare-and-swap, so the loop is left after its first pass
    ([push_loop_one_pass] below). *)
Definition push (h : node_store T) (s : t) (newNode : ptr)
  : result (node_store T * t) :=
  push_loop 1 h s newNode.

(** One pass through the body of the [do] loop of [pop]: [None] is the
    early [return result] on an empty stack, [Some newHead] the value
    offered to the compare-and-swap. *)
Definition pop_body (h : node_store T) (oldHead : nodeAndCounter)
  : result (option nodeAndCounter) :=
  let result := node oldHead in
  if bool_decide (result = nullptr) then Ret None
  else match h !! result with
       | None => Undefined
       | Some nd =>
           Ret (Some (mkNC (Node.next nd) (wrap_size_t (counter oldHead + 1))))
       end.

Fixpoint pop_loop (fuel : nat) (h : node_store T) (s : t) : result (ptr * t) :=
  match fuel with
  | O => OutOfFuel
  | S fuel' =>
      let oldHead := head s in
      r ← pop_body h oldHead;
      match r with
      | None => Ret (nullptr, s)
      | Some newHead =>
          let '(now, swapped) := atomic_compare_and_swap_16 (head s) oldHead newHead in
          if swapped then Ret (node oldHead, mk now)
          else pop_loop fuel' h (mk now)
      end
  end.

Definition pop (h : node_store T) (s : t) : result (ptr * t) :=
  pop_loop 1 h s.

End ops.
End prim_concurrent_stack.

Module concurrent_stack.
Import prim_concurrent_stack.

(** The two primitive stacks, and the nodes reachable from them. *)
Record t (T : Type) : Type := mk {
  a : prim_concurrent_stack.t;
  b : prim_concurrent_stack.t;
  nodes : node_store T
}.
Arguments mk {T} a b nodes.
Arguments a {T} _.
Arguments b {T} _.
Arguments nodes {T} _.

Section ops.
Context {T : Type}.

(** [concurrent_stack() {}] *)
Definition init : t T := mk prim_concurrent_stack.init prim_concurrent_stack.init ∅.

Definition size (s : t T) : result Z :=
  prim_concurrent_stack.size (nodes s) (a s).

(** [push(v)]. [sys] is the runtime's answer to
    [::operator new(sizeof(Node))], asked for only when [b] is empty. The
    [next] and [length] of a fresh node are indeterminate until [a.push]
    stores them; the model keeps 0 there. *)
Definition push (v : T) (sys : option ptr) (s : t T) : result (t T * list sys_call) :=
  '(x, b') ← prim_concurrent_stack.pop (nodes s) (b s);
  '(x, h, calls) ←
    (if bool_decide (x = nullptr) then
       match sys with
       | None => Throw bad_alloc
       | Some p =>
           if bool_decide (p = nullptr) then Undefined
           else Ret (p, <[p := Node.mk v 0 0]> (nodes s), [new_node p])
       end
     else
       match nodes s !! x with
       | None => Undefined
       | Some nd =>
           Ret (x, <[x := Node.mk v (Node.next nd) (Node.length nd)]> (nodes s), [])
       end);
  '(h', a') ← prim_concurrent_stack.push h (a s) x;
  Ret (mk a' b' h', calls).

Definition pop (s : t T) : result (option T * t T) :=
  '(x, a') ← prim_concurrent_stack.pop (nodes s) (a s);
  if bool_decide (x = nullptr) then Ret (None, s)
  else match nodes s !! x with
       | None => Undefined
       | Some nd =>
           let r := Node.value nd in
           '(h', b') ← prim_concurrent_stack.push (nodes s) (b s) x;
           Ret (Some r, mk a' b' h')
       end.

(** [while ((x = p.pop())) ::operator delete(x);] on one of the two
    primitive stacks. *)
Fixpoint drain (fuel : nat) (h : node_store T) (p : prim_concurrent_stack.t)
  : result (node_store T * prim_concurrent_stack.t * list sys_call) :=
  match fuel with
  | O => OutOfFuel
  | S fuel' =>
      '(x, p') ← prim_concurrent_stack.pop h p;
      if bool_decide (x = nullptr) then Ret (h, p', [])
      else
        '(h', p'', calls) ← drain fuel' (delete x h) p';
        Ret (h', p'', delete_node x :: calls)
  end.

Definition clear (fuel : nat) (s : t T) : result (t T * list sys_call) :=
  '(h, a', ca) ← drain fuel (nodes s) (a s);
  '(h', b', cb) ← drain fuel h (b s);
  Ret (mk a' b' h', ca ++ cb).

End ops.
End concurrent_stack.

(** ** alloc.h *)

(** [internal/block_allocator.h], the allocator behind a small bucket, is a
    collaborator of the pool: the pool constructs it and calls [alloc] and
    [free] on it, and both calls are taken to return. These three operations
    are the interface. *)
Class BlockAllocator (B : Type) : Type := {
  block_allocator : Z -> Z -> Z -> B;
  alloc : B -> ptr * B;
  free : ptr -> B -> B
}.

Module pool_allocator.

Definition large_align : Z := 64.
Definition large_threshold : Z := Z.shiftl 1 20.
Definition small_alloc_block_size : Z := Z.shiftl 1 20.

(** The data members. [small_allocators] lists the block allocators that
    have been constructed in the raw array of that name, which has room
    for [num_buckets] of them; using an element behind the constructed
    ones is undefined. *)
Record t (B : Type) : Type := mk {
  num_buckets : Z;
  num_small : Z;
  max_small : Z;
  max_size : Z;
  large_allocated : Z;
  large_buckets : list (concurrent_stack.t ptr);
  small_allocators : list B;
  sizes : list Z
}.
Arguments mk {B} _ _ _ _ _ _ _ _.
Arguments num_buckets {B} _.
Arguments num_small {B} _.
Arguments max_small {B} _.
Arguments max_size {B} _.
Arguments large_allocated {B} _.
Arguments large_buckets {B} _.
Arguments small_allocators {B} _.
Arguments sizes {B} _.

Section ops.
Context {B : Type} `{!BlockAllocator B}.

Definition set_large_allocated (c : Z) (s : t B) : t B :=
  mk (num_buckets s) (num_small s) (max_small s) (max_size s) c
     (large_buckets s) (small_allocators s) (sizes s).

Definition set_large_bucket (i : Z) (st : concurrent_stack.t ptr) (s : t B) : t B :=
  mk (num_buckets s) (num_small s) (max_small s) (max_size s) (large_allocated s)
     (<[Z.to_nat i := st]> (large_buckets s)) (small_allocators s) (sizes s).

Definition set_small_allocator (i : Z) (ba : B) (s : t B) : t B :=
  mk (num_buckets s) (num_small s) (max_small s) (max_size s) (large_allocated s)
     (large_buckets s) (<[Z.to_nat i := ba]> (small_allocators s)) (sizes s).

(** [while (n > sizes[bucket]) bucket++;] with [rest] the part of
    [sizes] from [bucket] on: running off the end reads out of bounds. *)
Fixpoint search (n : Z) (rest : list Z) (bucket : Z) : result Z :=
  match rest with
  | [] => Undefined
  | size :: rest' => if n >? size then search n rest' (bucket + 1) else Ret bucket
  end.

Definition find_bucket (sizes : list Z) (n : Z) (bucket : Z) : result Z :=
  if bool_decide (0 <= bucket) then search n (drop (Z.to_nat bucket) sizes) bucket
  else Undefined.

(** Lines 68-70: round [alloc_size] up to a multiple of [large_align]. *)
Definition round_up (alloc_size : Z) : Z :=
  if bool_decide (alloc_size mod large_align ≠ 0)
  then wrap_size_t (alloc_size + (large_align - alloc_size mod large_align))
  else alloc_size.

(** Lines 66-76 of [allocate_large]: the part after [alloc_size] is
    chosen. [sys] is the runtime's answer to the aligned [operator new]. *)
Definition allocate_fresh (alloc_size n : Z) (sys : option ptr) (s : t B)
  : result (ptr * t B * list sys_call) :=
  let alloc_size := round_up alloc_size in
  match sys with
  | None => Throw bad_alloc
  | Some a =>
      if bool_decide (a = nullptr) then Throw bad_alloc
      else Ret (a, set_large_allocated (wrap_long (large_allocated s + n)) s,
                [new_aligned alloc_size large_align a])
  end.

Definition allocate_large (n : Z) (sys : option ptr) (s : t B)
  : result (ptr * t B * list sys_call) :=
  let bucket := num_small s in
  if bool_decide (n <= max_size s) then
    bucket ← find_bucket (sizes s) n bucket;
    let i := wrap_size_t (bucket - num_small s) in
    stack ← index (large_buckets s) i;
    '(r, stack') ← concurrent_stack.pop stack;
    let s' := set_large_bucket i stack' s in
    match r with
    | Some p => Ret (p, s', [])
    | None =>
        alloc_size ← index (sizes s) bucket;
        allocate_fresh alloc_size n sys s'
    end
  else allocate_fresh n n sys s.

(** [sys] is the runtime's answer to the [operator new] that the stack's
    [push] may make for a node. *)
Definition deallocate_large (p : ptr) (n : Z) (sys : option ptr) (s : t B)
  : result (t B * list sys_call) :=
  if bool_decide (n > max_size s) then
    Ret (set_large_allocated (wrap_long (large_allocated s - n)) s,
         [delete_aligned p large_align])
  else
    bucket ← find_bucket (sizes s) n (num_small s);
    let i := wrap_size_t (bucket - num_small s) in
    stack ← index (large_buckets s) i;
    '(stack', calls) ← concurrent_stack.push p sys stack;
    Ret (set_large_bucket i stack' s, calls).

(** [while (num_small < num_buckets && sizes[num_small] < large_threshold)
    num_small++;] *)
Fixpoint count_small (sizes : list Z) : Z :=
  match sizes with
  | [] => 0
  | size :: rest => if size <? large_threshold then 1 + count_small rest else 0
  end.

(** The [for] loop of the constructor over the first [num_small] sizes. *)
Fixpoint construct_small (small_sizes : list Z) (prev_bucket_size : Z)
  : result (list B) :=
  match small_sizes with
  | [] => Ret []
  | bucket_size :: rest =>
      if bucket_size <? 8 then
        Throw (invalid_argument
                 "for small_allocator, bucket sizes must be at least 8")
      else if negb (bucket_size >? prev_bucket_size) then
        Throw (invalid_argument
                 "for small_allocator, bucket sizes must increase")
      else
        allocators ← construct_small rest bucket_size;
        Ret (block_allocator bucket_size 0 (small_alloc_block_size - 64)
               :: allocators)
  end.

(** [explicit pool_allocator(std::vector<size_t> const &sizes)]. The two
    raw allocations of the constructor are taken to succeed. *)
Definition pool_allocator (sizes : list Z) : result (t B) :=
  let num_buckets := Z.of_nat (length sizes) in
  max_size ← index sizes (wrap_size_t (num_buckets - 1));
  let num_small := count_small sizes in
  max_small ← (if num_small >? 0 then index sizes (num_small - 1) else Ret 0);
  let large_buckets :=
    replicate (Z.to_nat (num_buckets - num_small)) concurrent_stack.init in
  small_allocators ← construct_small (take (Z.to_nat num_small) sizes) 0;
  Ret (mk num_buckets num_small max_small max_size 0
          large_buckets small_allocators sizes).

Definition allocate (n : Z) (sys : option ptr) (s : t B)
  : result (ptr * t B * list sys_call) :=
  if bool_decide (n > max_small s) then allocate_large n sys s
  else
    bucket ← find_bucket (sizes s) n 0;
    ba ← index (small_allocators s) bucket;
    let '(p, ba') := alloc ba in
    Ret (p, set_small_allocator bucket ba' s, []).

Definition deallocate (p : ptr) (n : Z) (sys : option ptr) (s : t B)
  : result (t B * list sys_call) :=
  if bool_decide (n > max_small s) then deallocate_large p n sys s
  else
    bucket ← find_bucket (sizes s) n 0;
    ba ← index (small_allocators s) bucket;
    Ret (set_small_allocator bucket (free p ba) s, []).

(** The body of the [for] loop of [clear] for bucket [i]: pop, and while
    a block came back, charge [sizes[i]], delete it, pop again. *)
Fixpoint clear_bucket (fuel : nat) (i : Z) (s : t B)
  : result (t B * list sys_call) :=
  match fuel with
  | O => OutOfFuel
  | S fuel' =>
      let j := wrap_size_t (i - num_small s) in
      stack ← index (large_buckets s) j;
      '(r, stack') ← concurrent_stack.pop stack;
      let s' := set_large_bucket j stack' s in
      match r with
      | None => Ret (s', [])
      | Some p =>
          size ← index (sizes s') i;
          let s'' := set_large_allocated (wrap_long (large_allocated s' - size)) s' in
          '(s''', calls) ← clear_bucket fuel' i s'';
          Ret (s''', delete_aligned p large_align :: calls)
      end
  end.

(** [for (size_t i = num_small; i < num_buckets; i++)], with [todo]
    counting the iterations still to run. *)
Fixpoint clear_from (fuel : nat) (todo : nat) (i : Z) (s : t B)
  : result (t B * list sys_call) :=
  match todo with
  | O => Ret (s, [])
  | S todo' =>
      '(s', calls) ← clear_bucket fuel i s;
      '(s'', calls') ← clear_from fuel todo' (i + 1) s';
      Ret (s'', calls ++ calls')
  end.

Definition clear (fuel : nat) (s : t B) : result (t B * list sys_call) :=
  clear_from fuel (Z.to_nat (num_buckets s - num_small s)) (num_small s) s.

End ops.
End pool_allocator.

(** * Vocabulary of the specification *)

(** ** Histories of one stack *)

Module history.
Import prim_concurrent_stack.

Section defs.
Context {T : Type}.

(** A call on a [concurrent_stack], with the runtime's answer for
    [push]. *)
Inductive op : Type :=
| Push (v : T) (sys : option ptr)
| Pop.

(** What the caller saw. *)
Inductive event : Type :=
| Pushed (v : T)
| PushThrew
| Popped (v : T)
| PopEmpty.

Definition step (o : op) (s : concurrent_stack.t T)
  : result (concurrent_stack.t T * event) :=
  match o with
  | Push v sys =>
      match concurrent_stack.push v sys s with
      | Ret (s', _) => Ret (s', Pushed v)
      | Throw _ => Ret (s, PushThrew)
      | Undefined => Undefined
      | OutOfFuel => OutOfFuel
      end
  | Pop =>
      '(r, s') ← concurrent_stack.pop s;
      Ret (s', match r with Some v => Popped v | None => PopEmpty end)
  end.

Fixpoint run (ops : list op) (s : concurrent_stack.t T)
  : result (concurrent_stack.t T * list event) :=
  match ops with
  | [] => Ret (s, [])
  | o :: ops' =>
      '(s', e) ← step o s;
      '(s'', es) ← run ops' s';
      Ret (s'', e :: es)
  end.

(** The runtime never hands out the null address, an address beyond the
    64-bit address space, or the address of a node that is still
    allocated. *)
Definition fresh_for (s : concurrent_stack.t T) (sys : option ptr) : bool :=
  match sys with
  | None => true
  | Some p =>
      bool_decide (0 < p < 2 ^ 64) &&
      match concurrent_stack.nodes s !! p with None => true | Some _ => false end
  end.

Fixpoint runtime_ok (ops : list op) (s : concurrent_stack.t T) : bool :=
  match ops with
  | [] => true
  | o :: ops' =>
      match o with Push _ sys => fresh_for s sys | Pop => true end &&
      match step o s with
      | Ret (s', _) => runtime_ok ops' s'
      | _ => true
      end
  end.

Definition pushed (es : list event) : list T :=
  es ≫= λ e, match e with Pushed v => [v] | _ => [] end.
Definition popped (es : list event) : list T :=
  es ≫= λ e, match e with Popped v => [v] | _ => [] end.
Fixpoint push_calls (ops : list op) : Z :=
  match ops with
  | [] => 0
  | Push _ _ :: ops' => 1 + push_calls ops'
  | Pop :: ops' => push_calls ops'
  end.
Fixpoint pushes_thrown (es : list event) : Z :=
  match es with
  | [] => 0
  | PushThrew :: es' => 1 + pushes_thrown es'
  | _ :: es' => pushes_thrown es'
  end.

(** The last-in first-out discipline, on a plain list whose head is the
    top: every [Popped v] takes the top [v], every [PopEmpty] finds
    nothing. [lifo es l l'] when the events [es] lead from [l] to [l']. *)
Fixpoint lifo (es : list event) (l l' : list T) : Prop :=
  match es with
  | [] => l' = l
  | Pushed v :: es' => lifo es' (v :: l) l'
  | PushThrew :: es' => lifo es' l l'
  | Popped v :: es' =>
      match l with
      | top :: rest => top = v ∧ lifo es' rest l'
      | [] => False
      end
  | PopEmpty :: es' => l = [] ∧ lifo es' l l'
  end.

(** ** What the memory of a stack looks like *)

(** [chain h p l]: following [next] from [p] visits the nodes at the
    addresses of [l], in order, holding the values of [l], each with the
    number of nodes from it on stored in [length], and then reaches
    [nullptr]. *)
Fixpoint chain (h : node_store T) (p : ptr) (l : list (ptr * T)) : Prop :=
  match l with
  | [] => p = nullptr
  | (x, v) :: l' =>
      p = x ∧ x ≠ nullptr ∧
      ∃ nd, h !! x = Some nd ∧ Node.value nd = v ∧
            Node.length nd = Z.of_nat (S (List.length l')) ∧
            chain h (Node.next nd) l'
  end.

(** [repr s la lb]: [a] holds the nodes [la], [b] the shells [lb], no
    node is on both or twice, and all lie in the address space. *)
Definition repr (s : concurrent_stack.t T) (la lb : list (ptr * T)) : Prop :=
  chain (concurrent_stack.nodes s) (node (head (concurrent_stack.a s))) la ∧
  chain (concurrent_stack.nodes s) (node (head (concurrent_stack.b s))) lb ∧
  NoDup ((la ++ lb).*1) ∧
  Forall (λ x, 0 < x < 2 ^ 64) ((la ++ lb).*1).

(** ** Histories of one primitive stack *)

Inductive prim_op : Type :=
| PrimPush (newNode : ptr)
| PrimPop.

(** Runs [ops] and collects every value that a compare-and-swap stored
    into [head], oldest first. *)
Fixpoint prim_run (ops : list prim_op) (h : node_store T) (s : prim_concurrent_stack.t)
  : result (node_store T * prim_concurrent_stack.t * list nodeAndCounter) :=
  match ops with
  | [] => Ret (h, s, [])
  | PrimPush x :: ops' =>
      '(h', s') ← prim_concurrent_stack.push h s x;
      '(h'', s'', heads) ← prim_run ops' h' s';
      Ret (h'', s'', head s' :: heads)
  | PrimPop :: ops' =>
      '(x, s') ← prim_concurrent_stack.pop h s;
      '(h'', s'', heads) ← prim_run ops' h s';
      Ret (h'', s'', if bool_decide (x = nullptr) then heads else head s' :: heads)
  end.

(** [push(x)] followed by [pop()] on a primitive stack. *)
Definition push_then_pop (x : ptr) (st : result (node_store T * prim_concurrent_stack.t))
  : result (node_store T * prim_concurrent_stack.t) :=
  '(h, s) ← st;
  '(h', s') ← prim_concurrent_stack.push h s x;
  '(_, s'') ← prim_concurrent_stack.pop h' s';
  Ret (h', s'').

End defs.
Arguments op T : clear implicits.
Arguments event T : clear implicits.
End history.

(** ** Configurations and states of the pool *)

Module pool.
Import pool_allocator.

(** [sizes] strictly ascending. *)
Fixpoint strictly_increasing (sizes : list Z) : bool :=
  match sizes with
  | [] => true
  | size :: rest =>
      match rest with
      | [] => true
      | next_size :: _ => (size <? next_size) && strictly_increasing rest
      end
  end.

(** The sizes the constructor makes small buckets of: those before the
    first one that reaches [large_threshold]. *)
Definition small_sizes (sizes : list Z) : list Z :=
  take (Z.to_nat (count_small sizes)) sizes.

(** Every size of the list that lies in the small range, wherever it
    stands. *)
Definition small_range_sizes (sizes : list Z) : list Z :=
  filter (λ size, size < large_threshold) sizes.

Definition all_at_least_8 (sizes : list Z) : bool :=
  forallb (λ size, 8 <=? size) sizes.

(** The stack [st] holds the blocks [blocks], top first. *)
Definition holds (st : concurrent_stack.t ptr) (blocks : list ptr) : Prop :=
  ∃ la lb, history.repr st la lb ∧ la.*2 = blocks.

Section states.
Context {B : Type} `{!BlockAllocator B}.

(** What the constructor establishes and every call keeps. *)
Definition inv (s : t B) : Prop :=
  sizes s ≠ [] ∧
  Z.of_nat (length (sizes s)) < 2 ^ 64 ∧
  num_buckets s = Z.of_nat (length (sizes s)) ∧
  num_small s = count_small (sizes s) ∧
  index (sizes s) (num_buckets s - 1) = Ret (max_size s) ∧
  (if num_small s >? 0 then index (sizes s) (num_small s - 1) else Ret 0)
    = Ret (max_small s) ∧
  strictly_increasing (small_sizes (sizes s)) = true ∧
  all_at_least_8 (small_sizes (sizes s)) = true ∧
  Z.of_nat (length (small_allocators s)) = num_small s ∧
  Z.of_nat (length (large_buckets s)) = num_buckets s - num_small s ∧
  - 2 ^ 63 <= large_allocated s < 2 ^ 63 ∧
  Forall (λ st, ∃ blocks, holds st blocks) (large_buckets s).

(** The runtime's answer is fresh for every stack of the pool. *)
Definition fresh_for (s : t B) (sys : option ptr) : bool :=
  forallb (λ st, history.fresh_for st sys) (large_buckets s).

(** What [clear] takes off [large_allocated]: the bucket size for each
    block held, [large_sizes] being the sizes of the large buckets. *)
Fixpoint charge (large_sizes : list Z) (held : list (list ptr)) : Z :=
  match large_sizes, held with
  | size :: large_sizes', blocks :: held' =>
      size * Z.of_nat (length blocks) + charge large_sizes' held'
  | _, _ => 0
  end.

Definition deletes (held : list (list ptr)) : list sys_call :=
  held ≫= λ blocks, (λ p, delete_aligned p large_align) <$> blocks.

End states.

(** A block allocator to run the model with: it numbers the blocks it
    hands out and remembers the ones given back. *)
Record counting_allocator : Type := mk_counting {
  block_size : Z;
  handed_out : Z;
  given_back : list ptr
}.

#[global] Instance counting_block_allocator : BlockAllocator counting_allocator := {|
  block_allocator size _ _ := mk_counting size 0 [];
  alloc ba := (4096 * block_size ba + handed_out ba,
               mk_counting (block_size ba) (handed_out ba + 1) (given_back ba));
  free p ba := mk_counting (block_size ba) (handed_out ba) (p :: given_back ba)
|}.

(** The bucket list of the scenario: 16, 64, 1<<20, 1<<21. *)
Definition scenario_sizes : list Z := [16; 64; Z.shiftl 1 20; Z.shiftl 1 21].

End pool.

(** ** Inputs the development is run on *)

Module samples.
Import pool_allocator pool history.

Definition sample_history : list (op Z) :=
  [Push 9 None; Push 1 (Some 16); Push 2 (Some 32); Pop; Push 3 None;
   Push 4 (Some 48); Pop; Pop; Pop; Pop].

(** A node at address 16 that is in no stack. *)
Definition one_node : node_store Z := {[16 := Node.mk 7 0 1]}.

(** The pool of the scenario as the constructor leaves it. *)
Definition scenario_pool : t counting_allocator :=
  Eval vm_compute in
    match pool_allocator scenario_sizes with
    | Ret s => s
    | _ => mk 0 0 0 0 0 [] [] []
    end.

(** That pool in use: one block in the stack of each large bucket. *)
Definition recycled_pool : t counting_allocator :=
  Eval vm_compute in
    match
      '(p, s, _) ← allocate 70 (Some 4096) scenario_pool;
      '(s, _) ← deallocate p 70 (Some 8192) s;
      '(p, s, _) ← allocate 2000000 (Some 12288) s;
      '(s, _) ← deallocate p 2000000 (Some 16384) s;
      Ret s
    with
    | Ret s => s
    | _ => scenario_pool
    end.

(** g++ on Linux without [-DMCX16]. *)
Definition gcc_without_mcx16 : experimental.build_config :=
  experimental.mk_config true false false.

End samples.

(** * More of the code *)

(** ** alloc.h: the default allocator *)

(** [default_sizes()]. [log_max_size] is what
    [parlay::log2_up(getMemorySize()/64)] returns; both functions live in
    headers outside this development. Shifting a [size_t] by 64 or more is
    undefined. *)
Definition default_sizes (log_max_size : Z) : result (list Z) :=
  let log_min_size := 4 in
  if bool_decide (log_max_size < 64) then
    Ret ((λ i, Z.shiftl 1 i) <$> seqZ log_min_size (log_max_size - log_min_size + 1))
  else Undefined.

(** [internal::get_default_allocator()], on its first call:
    [static pool_allocator default_allocator(default_sizes());] *)
Definition get_default_allocator {B : Type} `{!BlockAllocator B} (log_max_size : Z)
  : result (pool_allocator.t B) :=
  sizes ← default_sizes log_max_size;
  pool_allocator.pool_allocator sizes.

(** ** What a history of a stack asks of the runtime *)

Module usage.
Import history.
Section defs.
Context {T : Type}.

(** The calls to the runtime made by [ops], in order. *)
Fixpoint runtime_calls (ops : list (op T)) (s : concurrent_stack.t T) : list sys_call :=
  match ops with
  | [] => []
  | o :: ops' =>
      match o with
      | Push v sys =>
          match concurrent_stack.push v sys s with
          | Ret (_, calls) => calls
          | _ => []
          end
      | Pop => []
      end ++
      match step o s with
      | Ret (s', _) => runtime_calls ops' s'
      | _ => []
      end
  end.

(** The largest number of values held at any time during the events [es],
    starting with [held] values and a largest number so far of [peak]. *)
Fixpoint high_water (es : list (event T)) (held peak : Z) : Z :=
  match es with
  | [] => peak
  | Pushed _ :: es' => high_water es' (held + 1) (Z.max peak (held + 1))
  | Popped _ :: es' => high_water es' (held - 1) peak
  | _ :: es' => high_water es' held peak
  end.

(** Which calls of [push] return. With [spare] popped nodes kept in [b]
    for reuse, a [push] that finds a spare node, or is given memory by the
    runtime, answers [Pushed]; only a [push] that has neither answers
    [PushThrew]. A pop that returns a value leaves its node as a spare. *)
Fixpoint pushes_return (ops : list (op T)) (es : list (event T)) (spare : nat) : Prop :=
  match ops, es with
  | [], [] => True
  | Push v sys :: ops', e :: es' =>
      match spare, sys with
      | O, None => e = PushThrew ∧ pushes_return ops' es' O
      | _, _ => e = Pushed v ∧ pushes_return ops' es' (Nat.pred spare)
      end
  | Pop :: ops', e :: es' =>
      match e with
      | Popped _ => pushes_return ops' es' (S spare)
      | PopEmpty => pushes_return ops' es' spare
      | _ => False
      end
  | _, _ => False
  end.

Definition new_nodes (calls : list sys_call) : list ptr :=
  calls ≫= λ c, match c with new_node p => [p] | _ => [] end.
Definition deleted_nodes (calls : list sys_call) : list ptr :=
  calls ≫= λ c, match c with delete_node p => [p] | _ => [] end.

End defs.
End usage.

(** ** Histories of a pool *)

Module pool_history.
Import pool_allocator.
Section defs.
Context {B : Type} `{!BlockAllocator B}.

(** [s'] has the buckets of [s]: the members that no call writes. *)
Definition same_buckets (s s' : t B) : Prop :=
  sizes s' = sizes s ∧ num_buckets s' = num_buckets s ∧ num_small s' = num_small s ∧
  max_small s' = max_small s ∧ max_size s' = max_size s ∧
  length (large_buckets s') = length (large_buckets s).

(** The calls of a history, each with what the runtime answers if it is
    asked. [Clear fuel] is [clear()] with at most [fuel] passes through the
    loop on each stack. *)
Inductive op : Type :=
| Allocate (n : Z) (sys : option ptr)
| Deallocate (p : ptr) (n : Z) (sys : option ptr)
| Clear (fuel : nat).

(** What the caller saw. A call that throws leaves the pool as it was:
    the only [throw] comes after a [pop] that found nothing. *)
Inductive event : Type :=
| Allocated (p : ptr)
| Deallocated
| Cleared
| Threw (e : exn).

Definition step (o : op) (s : t B) : result (t B * event * list sys_call) :=
  match o with
  | Allocate n sys =>
      match allocate n sys s with
      | Ret (p, s', calls) => Ret (s', Allocated p, calls)
      | Throw e => Ret (s, Threw e, [])
      | Undefined => Undefined
      | OutOfFuel => OutOfFuel
      end
  | Deallocate p n sys =>
      match deallocate p n sys s with
      | Ret (s', calls) => Ret (s', Deallocated, calls)
      | Throw e => Ret (s, Threw e, [])
      | Undefined => Undefined
      | OutOfFuel => OutOfFuel
      end
  | Clear fuel =>
      '(s', calls) ← clear fuel s;
      Ret (s', Cleared, calls)
  end.

Fixpoint run (ops : list op) (s : t B) : result (t B * list event * list sys_call) :=
  match ops with
  | [] => Ret (s, [], [])
  | o :: ops' =>
      '(s', e, calls) ← step o s;
      '(s'', es, calls') ← run ops' s';
      Ret (s'', e :: es, calls ++ calls')
  end.

(** The runtime's answers are fresh for the stacks of the pool whenever a
    block is given back. *)
Fixpoint runtime_ok (ops : list op) (s : t B) : bool :=
  match ops with
  | [] => true
  | o :: ops' =>
      match o with Deallocate _ _ sys => pool.fresh_for s sys | _ => true end &&
      match step o s with
      | Ret (s', _, _) => runtime_ok ops' s'
      | _ => true
      end
  end.

(** The blocks that the calls of [ops] pass to [deallocate]. *)
Definition given_back (ops : list op) : list ptr :=
  ops ≫= λ o, match o with Deallocate p _ _ => [p] | _ => [] end.

End defs.
Arguments op : clear implicits.
Arguments event : clear implicits.
End pool_history.

Module pool_samples.
Import pool_allocator pool pool_history.

(** A history on the pool of the scenario: a block of the 1<<20 bucket is
    handed out, given back and handed out again for another size of that
    bucket; a request above every bucket; a small request; [clear]. *)
Definition sample_pool_history : list op :=
  [Allocate 70 (Some 4096); Deallocate 4096 70 (Some 8192);
   Allocate 1000 None; Deallocate 4096 1000 None;
   Allocate 3000000 (Some 12288); Deallocate 12288 3000000 None;
   Allocate 10 None; Allocate 2000000 None; Clear 2].

End pool_samples.

(** * Proofs *)

(** ** Machine arithmetic *)

Section arith.
Lemma wrap_size_t_small z : 0 <= z < 2 ^ 64 → wrap_size_t z = z.
Proof. intros. unfold wrap_size_t. by apply Z.mod_small. Qed.

Lemma wrap_long_small z : - 2 ^ 63 <= z < 2 ^ 63 → wrap_long z = z.
Proof. intros. unfold wrap_long. rewrite Z.mod_small; lia. Qed.

Lemma wrap_long_add_sub c n : - 2 ^ 63 <= c < 2 ^ 63 → wrap_long (wrap_long (c + n) - n) = c.
Proof.
  intros. unfold wrap_long.
  replace ((c + n + 2 ^ 63) mod 2 ^ 64 - 2 ^ 63 - n + 2 ^ 63)
    with ((c + n + 2 ^ 63) mod 2 ^ 64 - n) by lia.
  rewrite Zminus_mod_idemp_l.
  replace (c + n + 2 ^ 63 - n) with (c + 2 ^ 63) by lia.
  rewrite Z.mod_small; lia.
Qed.

(** Distinct addresses below [bound] are fewer than [bound]. *)
Lemma distinct_addresses_bounded (l : list Z) (bound : Z) :
  0 < bound → NoDup l → Forall (λ x, 0 < x < bound) l → Z.of_nat (length l) < bound.
Proof.
  intros Hpos Hnd Hall.
  destruct (decide (bound <= 1)) as [Hb|Hb].
  - destruct l as [|x l]; [simpl; lia|].
    apply Forall_cons in Hall as [Hx _]. simpl in Hx. lia.
  - assert (l ⊆+ seqZ 1 (bound - 1)) as Hsub.
    { apply NoDup_submseteq; [done|]. intros x Hx.
      rewrite Forall_forall in Hall. apply Hall in Hx. simpl in Hx.
      apply elem_of_seqZ. lia. }
    apply submseteq_length in Hsub. rewrite length_seqZ in Hsub. lia.
Qed.
End arith.

(** ** The primitive stack *)

Section prim_lemmas.
Context {T : Type}.
Import prim_concurrent_stack history.
Implicit Types (h : node_store T) (l : list (ptr * T)) (s : prim_concurrent_stack.t).

Lemma cas_same (x y : nodeAndCounter) :
  atomic_compare_and_swap_16 x x y = (y, true).
Proof. unfold atomic_compare_and_swap_16. by rewrite bool_decide_eq_true_2. Qed.

Lemma cas_swapped (obj expected desired now : nodeAndCounter) :
  atomic_compare_and_swap_16 obj expected desired = (now, true) →
  obj = expected ∧ now = desired.
Proof.
  unfold atomic_compare_and_swap_16. case_bool_decide; intros [= <-]; auto.
Qed.

(** Without another thread the compare-and-swap of [push] succeeds at
    once, whatever budget the loop is given. *)
Lemma push_loop_one_pass fuel h s x :
  push_loop (S fuel) h s x = prim_concurrent_stack.push h s x.
Proof.
  unfold prim_concurrent_stack.push. simpl.
  destruct (push_body h (head s) x) as [[h' newHead]| | |]; simpl; try done.
  by rewrite cas_same.
Qed.

Lemma pop_loop_one_pass fuel h s :
  pop_loop (S fuel) h s = prim_concurrent_stack.pop h s.
Proof.
  unfold prim_concurrent_stack.pop. simpl.
  destruct (pop_body h (head s)) as [[newHead|]| | |]; simpl; try done.
  by rewrite cas_same.
Qed.

Lemma prim_push_eq h s x nd len :
  h !! x = Some nd →
  prim_concurrent_stack.length h (node (head s)) = Ret len →
  prim_concurrent_stack.push h s x =
    Ret (<[x := Node.mk (Node.value nd) (node (head s)) (wrap_size_t (len + 1))]> h,
         prim_concurrent_stack.mk (mkNC x (wrap_size_t (counter (head s) + 1)))).
Proof.
  intros Hx Hlen. unfold prim_concurrent_stack.push, push_loop, push_body.
  rewrite Hx, Hlen. simpl. by rewrite cas_same.
Qed.

Lemma prim_pop_empty h s :
  node (head s) = nullptr → prim_concurrent_stack.pop h s = Ret (nullptr, s).
Proof.
  intros Hn. unfold prim_concurrent_stack.pop, pop_loop, pop_body.
  rewrite Hn. by rewrite bool_decide_eq_true_2.
Qed.

Lemma prim_pop_eq h s nd :
  node (head s) ≠ nullptr →
  h !! node (head s) = Some nd →
  prim_concurrent_stack.pop h s =
    Ret (node (head s),
         prim_concurrent_stack.mk (mkNC (Node.next nd) (wrap_size_t (counter (head s) + 1)))).
Proof.
  intros Hn Hx. unfold prim_concurrent_stack.pop, pop_loop, pop_body.
  rewrite bool_decide_eq_false_2 by done. rewrite Hx. simpl. by rewrite cas_same.
Qed.

(** *** Chains *)

Lemma chain_length h p l :
  chain h p l → prim_concurrent_stack.length h p = Ret (Z.of_nat (List.length l)).
Proof.
  unfold prim_concurrent_stack.length.
  destruct l as [|[x v] l]; simpl.
  - intros ->. by rewrite bool_decide_eq_true_2.
  - intros (-> & Hx & nd & Hnd & _ & Hlen & _).
    rewrite bool_decide_eq_false_2 by done. by rewrite Hnd, Hlen.
Qed.

Lemma chain_lookup h p l x :
  chain h p l → x ∈ l.*1 → is_Some (h !! x).
Proof.
  revert p. induction l as [|[y v] l IH]; simpl; intros p Hc Hx.
  - by apply elem_of_nil in Hx.
  - destruct Hc as (-> & _ & nd & Hnd & _ & _ & Hc).
    apply elem_of_cons in Hx as [->|Hx]; eauto.
Qed.

Lemma chain_insert h p l x nd :
  chain h p l → x ∉ l.*1 → chain (<[x := nd]> h) p l.
Proof.
  revert p. induction l as [|[y v] l IH]; simpl; intros p Hc Hx; [done|].
  destruct Hc as (-> & Hy & nd' & Hnd & Hv & Hlen & Hc).
  apply not_elem_of_cons in Hx as [Hne Hx].
  split_and!; [done..|]. exists nd'. rewrite lookup_insert_ne by done.
  split_and!; auto.
Qed.

Lemma chain_delete h p l x :
  chain h p l → x ∉ l.*1 → chain (delete x h) p l.
Proof.
  revert p. induction l as [|[y v] l IH]; simpl; intros p Hc Hx; [done|].
  destruct Hc as (-> & Hy & nd' & Hnd & Hv & Hlen & Hc).
  apply not_elem_of_cons in Hx as [Hne Hx].
  split_and!; [done..|]. exists nd'. rewrite lookup_delete_ne by done.
  split_and!; auto.
Qed.

Lemma chain_head_null h p l : chain h p l → p = nullptr → l = [].
Proof. destruct l as [|[x v] l]; simpl; [done|]. intros (-> & Hx & _) ->. done. Qed.

Lemma chain_head_nonnull h p l : chain h p l → p ≠ nullptr → ∃ v l', l = (p, v) :: l'.
Proof.
  destruct l as [|[x v] l]; simpl; [done|]. intros (-> & Hx & _) _. eauto.
Qed.
End prim_lemmas.

(** ** The stack and its memory *)

Section stack_lemmas.
Context {T : Type}.
Import prim_concurrent_stack history.
Implicit Types (h : node_store T) (l la lb : list (ptr * T)) (s : concurrent_stack.t T).

Lemma repr_init : repr (T:=T) concurrent_stack.init [] [].
Proof. repeat split; simpl; constructor. Qed.

Lemma owned_middle la lb (x : ptr) (v w : T) :
  (((x, v) :: la) ++ lb).*1 ≡ₚ (la ++ (x, w) :: lb).*1.
Proof.
  rewrite !fmap_app, !fmap_cons. simpl. apply Permutation_middle.
Qed.

Lemma repr_length_bound s la lb :
  repr s la lb → Z.of_nat (List.length la + List.length lb) < 2 ^ 64.
Proof.
  intros (_ & _ & Hnd & Hall).
  pose proof (distinct_addresses_bounded _ (2 ^ 64) ltac:(lia) Hnd Hall) as Hb.
  by rewrite length_fmap, length_app in Hb.
Qed.

Lemma fresh_for_Some s p :
  fresh_for s (Some p) = true →
  0 < p < 2 ^ 64 ∧ concurrent_stack.nodes s !! p = None.
Proof.
  unfold fresh_for. intros [H1 H2]%andb_prop.
  apply bool_decide_eq_true_1 in H1.
  destruct (concurrent_stack.nodes s !! p); [done|]. auto.
Qed.

Lemma repr_fresh s la lb p :
  repr s la lb → concurrent_stack.nodes s !! p = None → p ∉ (la ++ lb).*1.
Proof.
  intros (Ha & Hb & _) Hp Hin.
  rewrite fmap_app in Hin. apply elem_of_app in Hin as [Hin|Hin].
  - destruct (chain_lookup _ _ _ _ Ha Hin) as [nd Hsome].
    rewrite Hp in Hsome. done.
  - destruct (chain_lookup _ _ _ _ Hb Hin) as [nd Hsome].
    rewrite Hp in Hsome. done.
Qed.

(** [push] with a shell to recycle. *)
Lemma push_recycles s la lb x w v sys :
  repr s la ((x, w) :: lb) →
  ∃ s', concurrent_stack.push v sys s = Ret (s', []) ∧ repr s' ((x, v) :: la) lb.
Proof.
  intros Hr. pose proof (repr_length_bound _ _ _ Hr) as Hlen.
  rewrite length_cons in Hlen.
  destruct Hr as (Ha & Hb & Hnd & Hall).
  simpl in Hb. destruct Hb as (Hbx & Hx & nd & Hnd' & _ & _ & Hb).
  assert (NoDup (x :: (la ++ lb).*1)) as Hnd2.
  { rewrite <-fmap_cons with (f := fst) (x := (x, w)), app_comm_cons.
    by rewrite (owned_middle la lb x w w). }
  apply NoDup_cons in Hnd2 as [Hxn Hnd2].
  rewrite fmap_app in Hxn. apply not_elem_of_app in Hxn as [Hxa Hxb].
  unfold concurrent_stack.push.
  rewrite (prim_pop_eq _ _ nd) by (rewrite Hbx; done). simpl.
  rewrite Hbx. rewrite bool_decide_eq_false_2 by done.
  rewrite Hnd'. simpl.
  set (h1 := <[x := Node.mk v (Node.next nd) (Node.length nd)]> (concurrent_stack.nodes s)).
  assert (chain h1 (node (head (concurrent_stack.a s))) la) as Ha1
    by (by apply chain_insert).
  erewrite prim_push_eq;
    [|apply lookup_insert_eq|by apply chain_length]. simpl.
  eexists. split; [reflexivity|].
  rewrite (wrap_size_t_small (Z.of_nat (List.length la) + 1)) by lia.
  unfold repr; simpl. split_and!.
  - done.
  - done.
  - eexists. rewrite lookup_insert_eq. split_and!; try done.
    + simpl. lia.
    + simpl. by apply chain_insert.
  - do 2 (apply chain_insert; [|done]). done.
  - apply NoDup_cons. rewrite fmap_app. split; [|by rewrite <-fmap_app].
    apply not_elem_of_app; auto.
  - by rewrite (owned_middle la lb x v w).
Qed.

(** [push] with no shell left and memory from the runtime. *)
Lemma push_allocates s la p v :
  repr s la [] → fresh_for s (Some p) = true →
  ∃ s', concurrent_stack.push v (Some p) s = Ret (s', [new_node p]) ∧
        repr s' ((p, v) :: la) [].
Proof.
  intros Hr [Hrange Hfresh]%fresh_for_Some.
  pose proof (repr_fresh _ _ _ _ Hr Hfresh) as Hnotin.
  destruct Hr as (Ha & Hb & Hnd & Hall). simpl in Hb.
  rewrite app_nil_r in Hnotin, Hnd, Hall.
  assert (NoDup (p :: la.*1)) as Hnd2 by (apply NoDup_cons; auto).
  assert (Forall (λ x, 0 < x < 2 ^ 64) (p :: la.*1)) as Hall2 by (by constructor).
  pose proof (distinct_addresses_bounded _ (2 ^ 64) ltac:(lia) Hnd2 Hall2) as Hlen.
  rewrite length_cons, length_fmap in Hlen.
  unfold concurrent_stack.push.
  rewrite prim_pop_empty by done. simpl.
  rewrite bool_decide_eq_false_2 by (unfold nullptr; lia). simpl.
  set (h1 := <[p := Node.mk v 0 0]> (concurrent_stack.nodes s)).
  assert (chain h1 (node (head (concurrent_stack.a s))) la) as Ha1
    by (by apply chain_insert).
  erewrite prim_push_eq;
    [|apply lookup_insert_eq|by apply chain_length]. simpl.
  eexists. split; [reflexivity|].
  rewrite (wrap_size_t_small (Z.of_nat (List.length la) + 1)) by lia.
  unfold repr; simpl. rewrite app_nil_r. split_and!; try done.
  - unfold nullptr; lia.
  - eexists. rewrite lookup_insert_eq. split_and!; try done.
    + simpl. lia.
    + simpl. by apply chain_insert.
Qed.

(** [push] with no shell left and none to be had. *)
Lemma push_throws s la v :
  repr s la [] → concurrent_stack.push v None s = Throw bad_alloc.
Proof.
  intros (_ & Hb & _). simpl in Hb. unfold concurrent_stack.push.
  rewrite prim_pop_empty by done. done.
Qed.

Lemma pop_empty s lb :
  repr s [] lb → concurrent_stack.pop s = Ret (None, s).
Proof.
  intros (Ha & _). simpl in Ha. unfold concurrent_stack.pop.
  rewrite prim_pop_empty by done. done.
Qed.

Lemma pop_top s la lb x v :
  repr s ((x, v) :: la) lb →
  ∃ s', concurrent_stack.pop s = Ret (Some v, s') ∧ repr s' la ((x, v) :: lb).
Proof.
  intros Hr. pose proof (repr_length_bound _ _ _ Hr) as Hlen.
  rewrite length_cons in Hlen.
  destruct Hr as (Ha & Hb & Hnd & Hall).
  simpl in Ha. destruct Ha as (Hax & Hx & nd & Hnd' & Hv & Hl & Ha).
  simpl in Hnd. pose proof Hnd as Hnd0.
  apply NoDup_cons in Hnd as [Hxn Hnd].
  rewrite fmap_app in Hxn. apply not_elem_of_app in Hxn as [Hxa Hxb].
  unfold concurrent_stack.pop.
  rewrite (prim_pop_eq _ _ nd) by (rewrite Hax; done). simpl.
  rewrite Hax. rewrite bool_decide_eq_false_2 by done.
  rewrite Hnd'. simpl.
  erewrite prim_push_eq; [|exact Hnd'|by apply chain_length]. simpl.
  eexists. split; [by rewrite Hv|].
  rewrite (wrap_size_t_small (Z.of_nat (List.length lb) + 1)) by lia.
  unfold repr; simpl. split_and!.
  - by apply chain_insert.
  - done.
  - done.
  - eexists. rewrite lookup_insert_eq. split_and!; try done.
    + simpl. lia.
    + simpl. by apply chain_insert.
  - by rewrite <-(owned_middle la lb x v v).
  - by rewrite <-(owned_middle la lb x v v).
Qed.

Lemma size_repr s la lb :
  repr s la lb → concurrent_stack.size s = Ret (Z.of_nat (List.length la)).
Proof. intros (Ha & _). by apply chain_length. Qed.
Lemma fresh_for_init (q : Z) :
  0 < q < 2 ^ 64 → fresh_for (T:=T) concurrent_stack.init (Some q) = true.
Proof.
  intros Hq. unfold fresh_for. rewrite bool_decide_eq_true_2 by done.
  simpl. by rewrite lookup_empty.
Qed.
End stack_lemmas.

Section stack_clear.
Context {T : Type}.
Import prim_concurrent_stack history.
Implicit Types (h : node_store T) (l la lb : list (ptr * T)).

(** Draining a primitive stack deletes its nodes top first, whatever else
    the memory holds. *)
Lemma drain_chain fuel h (p : prim_concurrent_stack.t) l :
  chain h (node (head p)) l → NoDup l.*1 → (List.length l < fuel)%nat →
  ∃ p',
    concurrent_stack.drain fuel h p
    = Ret (foldl (λ h' x, delete x h') h l.*1, p', delete_node <$> l.*1) ∧
    node (head p') = nullptr.
Proof.
  revert fuel h p. induction l as [|[x v] l IH]; intros fuel h p Hc Hnd Hfuel.
  - destruct fuel as [|fuel]; [simpl in Hfuel; lia|]. simpl in Hc.
    exists p. split; [|done]. simpl. by rewrite prim_pop_empty.
  - destruct fuel as [|fuel]; [simpl in Hfuel; lia|].
    simpl in Hc. destruct Hc as (Hp & Hx & nd & Hnd' & _ & _ & Hc).
    simpl in Hnd. apply NoDup_cons in Hnd as [Hxl Hnd].
    destruct (IH fuel (delete x h)
                (prim_concurrent_stack.mk
                   (mkNC (Node.next nd) (wrap_size_t (counter (head p) + 1)))))
      as (p' & Hdrain & Hnull).
    + simpl. by apply chain_delete.
    + done.
    + simpl in Hfuel. lia.
    + exists p'. split; [|done]. cbn [concurrent_stack.drain].
      rewrite (prim_pop_eq _ _ nd) by (rewrite Hp; done).
      cbn [mbind result_bind]. rewrite Hp.
      rewrite bool_decide_eq_false_2 by done.
      rewrite Hdrain. done.
Qed.

Lemma chain_delete_all h p l (xs : list Z) :
  chain h p l → (∀ x, x ∈ xs → x ∉ l.*1) →
  chain (foldl (λ h' x, delete x h') h xs) p l.
Proof.
  revert h. induction xs as [|x xs IH]; intros h Hc Hdisj; [done|].
  simpl. apply IH.
  - apply chain_delete; [done|]. apply Hdisj. by left.
  - intros y Hy. apply Hdisj. by right.
Qed.

(** [clear()] of a stack, with fuel for more iterations than either
    primitive stack has nodes: every node and every shell goes back to the
    runtime, the values first, and the stack is empty. *)
Lemma clear_reclaims fuel (s : concurrent_stack.t T) la lb :
  repr s la lb →
  (List.length la < fuel)%nat → (List.length lb < fuel)%nat →
  ∃ s',
    concurrent_stack.clear fuel s
    = Ret (s', (delete_node <$> la.*1) ++ (delete_node <$> lb.*1)) ∧
    repr s' [] [] ∧
    concurrent_stack.size s' = Ret 0 ∧
    concurrent_stack.nodes s'
    = foldl (λ h' x, delete x h') (concurrent_stack.nodes s) (la.*1 ++ lb.*1).
Proof.
  intros (Ha & Hb & Hnd & Hall) Hfa Hfb.
  rewrite fmap_app in Hnd. apply NoDup_app in Hnd as (Hnda & Hdisj & Hndb).
  destruct (drain_chain fuel _ _ _ Ha Hnda Hfa) as (a' & Hda & Hna).
  destruct (drain_chain fuel
              (foldl (λ h' x, delete x h') (concurrent_stack.nodes s) la.*1)
              (concurrent_stack.b s) lb) as (b' & Hdb & Hnb); [|done|done|].
  { by apply chain_delete_all. }
  unfold concurrent_stack.clear. rewrite Hda. cbn [mbind result_bind].
  rewrite Hdb. cbn [mbind result_bind].
  eexists. split; [reflexivity|].
  split_and!.
  - unfold repr. simpl. split_and!; [done|done|constructor|constructor].
  - unfold concurrent_stack.size, prim_concurrent_stack.size,
      prim_concurrent_stack.length. simpl. rewrite Hna.
    by rewrite bool_decide_eq_true_2.
  - simpl. by rewrite foldl_app.
Qed.
End stack_clear.

(** ** Histories of a stack *)

Section history_lemmas.
Context {T : Type}.
Import prim_concurrent_stack history.
Implicit Types (h : node_store T) (l la lb : list (ptr * T)) (s : concurrent_stack.t T).
Implicit Types (ops : list (op T)) (es : list (event T)).
#[local] Arguments step {T} o s : simpl never.

(** *** Facts about the list discipline alone *)

Lemma lifo_conserves es (l l' : list T) :
  lifo es l l' → popped es ++ l' ≡ₚ pushed es ++ l.
Proof.
  revert l. induction es as [|[v| |v|] es IH]; simpl; intros l Hl.
  - by subst.
  - rewrite (IH _ Hl). by rewrite Permutation_middle.
  - by apply IH.
  - destruct l as [|top rest]; [done|]. destruct Hl as [-> Hl].
    rewrite (IH _ Hl). by rewrite Permutation_middle.
  - destruct Hl as [-> Hl]. by apply IH.
Qed.

Lemma lifo_app es1 es2 (l1 l2 l3 : list T) :
  lifo es1 l1 l2 → lifo es2 l2 l3 → lifo (es1 ++ es2) l1 l3.
Proof.
  revert l1. induction es1 as [|[v| |v|] es1 IH]; simpl; intros l1 H1 H2.
  - by subst.
  - by apply IH.
  - by apply IH.
  - destruct l1 as [|top rest]; [done|]. destruct H1 as [-> H1]. split; [done|].
    by apply IH.
  - destruct H1 as [-> H1]. split; [done|]. by apply IH.
Qed.

Lemma pushed_app es1 es2 : pushed (es1 ++ es2) = pushed es1 ++ pushed es2.
Proof. unfold pushed. by rewrite bind_app. Qed.
Lemma popped_app es1 es2 : popped (es1 ++ es2) = popped es1 ++ popped es2.
Proof. unfold popped. by rewrite bind_app. Qed.

(** *** One step *)

Lemma step_push s la lb v sys :
  repr s la lb → fresh_for s sys = true →
  (∃ s' x lb', step (Push v sys) s = Ret (s', Pushed v) ∧ repr s' ((x, v) :: la) lb') ∨
  (step (Push v sys) s = Ret (s, PushThrew) ∧ lb = [] ∧ sys = None).
Proof.
  intros Hr Hf. unfold step. destruct lb as [|[x w] lb].
  - destruct sys as [p|].
    + destruct (push_allocates _ _ _ v Hr Hf) as (s' & -> & Hr'). left. eauto.
    + rewrite (push_throws _ _ v Hr). right. auto.
  - destruct (push_recycles _ _ _ _ _ v sys Hr) as (s' & -> & Hr'). left. eauto.
Qed.

Lemma step_pop_top s la lb x v :
  repr s ((x, v) :: la) lb →
  ∃ s', step Pop s = Ret (s', Popped v) ∧ repr s' la ((x, v) :: lb).
Proof.
  intros Hr. destruct (pop_top _ _ _ _ _ Hr) as (s' & Hpop & Hr').
  exists s'. unfold step. by rewrite Hpop.
Qed.

Lemma step_pop_empty s lb :
  repr s [] lb → step Pop s = Ret (s, PopEmpty).
Proof. intros Hr. unfold step. by rewrite (pop_empty _ _ Hr). Qed.

(** *** Whole histories *)

Lemma run_cons o ops s :
  run (o :: ops) s = '(s', e) ← step o s; '(s'', es) ← run ops s'; Ret (s'', e :: es).
Proof. done. Qed.

Lemma run_app ops1 ops2 s :
  run (ops1 ++ ops2) s =
    '(s1, es1) ← run ops1 s; '(s2, es2) ← run ops2 s1; Ret (s2, es1 ++ es2).
Proof.
  revert s. induction ops1 as [|o ops1 IH]; simpl; intros s.
  - by destruct (run ops2 s) as [[? ?]| | |].
  - destruct (step o s) as [[s' e]| | |]; simpl; try done.
    rewrite IH. destruct (run ops1 s') as [[s1 es1]| | |]; simpl; try done.
    by destruct (run ops2 s1) as [[? ?]| | |].
Qed.

Lemma runtime_ok_app ops1 ops2 s s1 es1 :
  runtime_ok (ops1 ++ ops2) s = true → run ops1 s = Ret (s1, es1) →
  runtime_ok ops2 s1 = true.
Proof.
  revert s es1. induction ops1 as [|o ops1 IH]; simpl; intros s es1 Hok Hrun.
  - by injection Hrun as <- <-.
  - apply andb_prop in Hok as [_ Hok].
    destruct (step o s) as [[s' e]| | |]; simpl in *; try done.
    destruct (run ops1 s') as [[s2 es2]| | |] eqn:Hrun'; simpl in *; try done.
    injection Hrun as <- <-. eauto.
Qed.

(** Every history the runtime plays along with runs to its end, keeps the
    memory well formed and follows the list discipline. *)
Lemma run_refines ops s la lb :
  repr s la lb → runtime_ok ops s = true →
  ∃ s' es la' lb',
    run ops s = Ret (s', es) ∧ repr s' la' lb' ∧ lifo es la.*2 la'.*2 ∧
    push_calls ops = Z.of_nat (List.length (pushed es)) + pushes_thrown es.
Proof.
  revert s la lb. induction ops as [|o ops IH]; simpl; intros s la lb Hr Hok.
  - exists s, [], la, lb. split_and!; done.
  - apply andb_prop in Hok as [Hf Hok]. destruct o as [v sys|].
    + destruct (step_push _ _ _ v sys Hr Hf)
        as [(s1 & x & lb1 & Hstep & Hr1)|(Hstep & -> & ->)].
      * rewrite Hstep in Hok |- *. simpl.
        destruct (IH _ _ _ Hr1 Hok) as (s' & es & la' & lb' & -> & Hr' & Hl & Hc).
        exists s', (Pushed v :: es), la', lb'. simpl. split_and!; try done.
        lia.
      * rewrite Hstep in Hok |- *. simpl.
        destruct (IH _ _ _ Hr Hok) as (s' & es & la' & lb' & -> & Hr' & Hl & Hc).
        exists s', (PushThrew :: es), la', lb'. simpl. split_and!; try done.
        lia.
    + destruct la as [|[x v] la].
      * pose proof (step_pop_empty _ _ Hr) as Hstep.
        rewrite Hstep in Hok |- *. simpl.
        destruct (IH _ _ _ Hr Hok) as (s' & es & la' & lb' & -> & Hr' & Hl & Hc).
        exists s', (PopEmpty :: es), la', lb'. simpl. split_and!; done.
      * destruct (step_pop_top _ _ _ _ _ Hr) as (s1 & Hstep & Hr1).
        rewrite Hstep in Hok |- *. simpl.
        destruct (IH _ _ _ Hr1 Hok) as (s' & es & la' & lb' & -> & Hr' & Hl & Hc).
        exists s', (Popped v :: es), la', lb'. simpl. split_and!; done.
Qed.

(** Popping as often as there are values returns them top first and
    leaves the stack empty. *)
Lemma run_pops s la lb :
  repr s la lb →
  ∃ s', run (replicate (List.length la) Pop) s = Ret (s', Popped <$> la.*2) ∧
        repr s' [] (reverse la ++ lb).
Proof.
  revert s lb. induction la as [|[x v] la IH]; simpl; intros s lb Hr.
  - exists s. done.
  - destruct (step_pop_top _ _ _ _ _ Hr) as (s1 & -> & Hr1). simpl.
    destruct (IH _ _ Hr1) as (s' & -> & Hr'). simpl.
    exists s'. split; [done|]. by rewrite reverse_cons, <-app_assoc.
Qed.

(** Pushes that all get their memory. *)
Lemma run_pushes (pushes : list (T * ptr)) s la lb :
  repr s la lb →
  runtime_ok ((λ '(v, p), Push v (Some p)) <$> pushes) s = true →
  ∃ s' la' lb',
    run ((λ '(v, p), Push v (Some p)) <$> pushes) s = Ret (s', Pushed <$> pushes.*1) ∧
    repr s' la' lb' ∧ la'.*2 = reverse pushes.*1 ++ la.*2.
Proof.
  revert s la lb. induction pushes as [|[v p] pushes IH]; intros s la lb Hr Hok.
  - exists s, la, lb. done.
  - simpl in Hok. apply andb_prop in Hok as [Hf Hok].
    rewrite !fmap_cons, run_cons.
    destruct (step_push _ _ _ v (Some p) Hr Hf)
      as [(s1 & x & lb1 & Hstep & Hr1)|(_ & _ & [=])].
    rewrite Hstep in Hok |- *. simpl.
    destruct (IH _ _ _ Hr1 Hok) as (s' & la' & lb' & -> & Hr' & Hl). simpl.
    exists s', la', lb'. split_and!; try done.
    rewrite Hl. simpl. by rewrite reverse_cons, <-app_assoc.
Qed.

(** *** Which pushes return *)

Lemma run_pushes_return ops :
  ∀ s la lb s' es,
    repr s la lb → runtime_ok ops s = true → run ops s = Ret (s', es) →
    usage.pushes_return ops es (List.length lb).
Proof.
  induction ops as [|o ops IH]; intros s la lb s' es Hr Hok Hrun.
  - by injection Hrun as <- <-.
  - simpl in Hok. apply andb_prop in Hok as [Hf Hok]. rewrite run_cons in Hrun.
    destruct o as [v sys|].
    + destruct lb as [|[x w] lb].
      * destruct sys as [p|].
        -- destruct (push_allocates _ _ _ v Hr Hf) as (s1 & Hpush & Hr1).
           assert (step (Push v (Some p)) s = Ret (s1, Pushed v)) as Hstep
             by (unfold step; by rewrite Hpush).
           rewrite Hstep in Hok, Hrun. simpl in Hrun.
           destruct (run ops s1) as [[s2 es']| | |] eqn:Hrest; try done.
           injection Hrun as <- <-. simpl. split; [done|].
           by apply (IH s1 ((p, v) :: la) [] s2 es').
        -- assert (step (Push v None) s = Ret (s, PushThrew)) as Hstep
             by (unfold step; by rewrite (push_throws _ _ v Hr)).
           rewrite Hstep in Hok, Hrun. simpl in Hrun.
           destruct (run ops s) as [[s2 es']| | |] eqn:Hrest; try done.
           injection Hrun as <- <-. simpl. split; [done|].
           by apply (IH s la [] s2 es').
      * destruct (push_recycles _ _ _ _ _ v sys Hr) as (s1 & Hpush & Hr1).
        assert (step (Push v sys) s = Ret (s1, Pushed v)) as Hstep
          by (unfold step; by rewrite Hpush).
        rewrite Hstep in Hok, Hrun. simpl in Hrun.
        destruct (run ops s1) as [[s2 es']| | |] eqn:Hrest; try done.
        injection Hrun as <- <-. simpl. split; [done|].
        by apply (IH s1 ((x, v) :: la) lb s2 es').
    + destruct la as [|[x v] la].
      * rewrite (step_pop_empty _ _ Hr) in Hok, Hrun. simpl in Hrun.
        destruct (run ops s) as [[s2 es']| | |] eqn:Hrest; try done.
        injection Hrun as <- <-. simpl. by apply (IH s [] lb s2 es').
      * destruct (step_pop_top _ _ _ _ _ Hr) as (s1 & Hstep & Hr1).
        rewrite Hstep in Hok, Hrun. simpl in Hrun.
        destruct (run ops s1) as [[s2 es']| | |] eqn:Hrest; try done.
        injection Hrun as <- <-. simpl.
        by apply (IH s1 la ((x, v) :: lb) s2 es').
Qed.

Lemma pushes_return_no_throw ops :
  ∀ es spare,
    usage.pushes_return ops es spare →
    (∀ v sys, Push v sys ∈ ops → sys ≠ None) →
    pushes_thrown es = 0.
Proof.
  induction ops as [|o ops IH]; intros [|e es] spare Hret Hmem;
    [done|done|by destruct o|].
  assert (∀ v sys, Push v sys ∈ ops → sys ≠ None) as Hmem'.
  { intros v sys Hin. apply (Hmem v). by right. }
  destruct o as [v sys|]; simpl in Hret.
  - destruct spare as [|spare], sys as [p|].
    + destruct Hret as [-> Hret]. simpl. by eapply IH.
    + exfalso. apply (Hmem v None); [by left|done].
    + destruct Hret as [-> Hret]. simpl. by eapply IH.
    + destruct Hret as [-> Hret]. simpl. by eapply IH.
  - destruct e as [w| |w|]; try done; simpl; by eapply IH.
Qed.
End history_lemmas.

Section history_theorems.
Context {T : Type}.
Import prim_concurrent_stack history.
Implicit Types (ops : list (op T)) (es : list (event T)).
#[local] Arguments step {T} o s : simpl never.

Lemma lifo_pushes_only es (l rest : list T) :
  lifo es l rest → (∀ e, e ∈ es → ∃ v, e = Pushed v) →
  rest = reverse (pushed es) ++ l.
Proof.
  revert l. induction es as [|e es IH]; simpl; intros l Hl Hall.
  - done.
  - destruct (Hall e ltac:(left)) as [v ->]. simpl.
    rewrite reverse_cons, <-app_assoc. apply IH; [done|].
    intros e He. apply Hall. by right.
Qed.

(** C2, as amended. Whatever pushes and pops one thread makes on a new
    stack: every call comes back; a successful pop returns the value pushed
    last among those not yet popped, and a pop reports empty only when
    there is none; the values popped together with the values [rest] still
    on the stack (which further pops return, before reporting empty) are a
    rearrangement of the values pushed; and after pushes alone [rest] is
    the pushed values in reverse order. *)
Theorem pops_follow_the_list_discipline ops :
  runtime_ok ops concurrent_stack.init = true →
  ∃ s es rest s',
    run ops concurrent_stack.init = Ret (s, es) ∧
    lifo es [] rest ∧
    popped es ++ rest ≡ₚ pushed es ∧
    run (replicate (List.length rest) Pop ++ [Pop]) s
      = Ret (s', (Popped <$> rest) ++ [PopEmpty]) ∧
    ((∀ e, e ∈ es → ∃ v, e = Pushed v) → rest = reverse (pushed es)).
Proof.
  intros Hok.
  destruct (run_refines ops _ [] [] repr_init Hok)
    as (s & es & la & lb & Hrun & Hr & Hl & _).
  destruct (run_pops _ _ _ Hr) as (s1 & Hpops & Hr1).
  exists s, es, la.*2, s1. split_and!.
  - done.
  - done.
  - rewrite (lifo_conserves _ _ _ Hl). by rewrite app_nil_r.
  - rewrite run_app, length_fmap, Hpops. simpl.
    by rewrite (step_pop_empty _ _ Hr1).
  - intros Hall. rewrite (lifo_pushes_only _ _ _ Hl Hall). by rewrite app_nil_r.
Qed.

(** C5. After any pushes and pops by one thread on a new stack every call
    has come back and [size()] is the number of pushes less the number of
    pops that returned a value. Every [push] that the runtime gives
    memory, or that finds the node of an earlier pop to reuse, returns
    and is counted; a [push] that has neither throws [bad_alloc] before it
    touches the stack, and is the only call left out of the count. So
    when the runtime never refuses memory, [size()] is the number of
    [push] calls less the number of pops that returned a value. *)
Theorem size_is_pushes_minus_successful_pops ops :
  runtime_ok ops concurrent_stack.init = true →
  ∃ s es,
    run ops concurrent_stack.init = Ret (s, es) ∧
    usage.pushes_return ops es 0 ∧
    concurrent_stack.size s
      = Ret (Z.of_nat (List.length (pushed es)) - Z.of_nat (List.length (popped es))) ∧
    Z.of_nat (List.length (pushed es)) = push_calls ops - pushes_thrown es ∧
    ((∀ v sys, Push v sys ∈ ops → sys ≠ None) →
     concurrent_stack.size s
       = Ret (push_calls ops - Z.of_nat (List.length (popped es)))).
Proof.
  intros Hok.
  destruct (run_refines ops _ [] [] repr_init Hok)
    as (s & es & la & lb & Hrun & Hr & Hl & Hcalls).
  pose proof (run_pushes_return ops _ [] [] s es repr_init Hok Hrun) as Hret.
  assert (concurrent_stack.size s
          = Ret (Z.of_nat (List.length (pushed es)) - Z.of_nat (List.length (popped es))))
    as Hsize.
  { rewrite (size_repr _ _ _ Hr). f_equal.
    apply lifo_conserves in Hl. apply Permutation_length in Hl.
    rewrite !length_app, length_fmap in Hl. simpl in Hl. lia. }
  exists s, es. split; [done|]. split; [done|]. split; [done|]. split; [lia|].
  intros Hmem. rewrite Hsize. f_equal.
  pose proof (pushes_return_no_throw ops es 0%nat Hret Hmem). lia.
Qed.
End history_theorems.

Section history_examples.
Import history samples.

Lemma pops_follow_the_list_discipline_witness :
  runtime_ok sample_history concurrent_stack.init = true ∧
  ∃ s es rest s',
    run sample_history concurrent_stack.init = Ret (s, es) ∧
    lifo es [] rest ∧
    popped es ++ rest ≡ₚ pushed es ∧
    run (replicate (List.length rest) Pop ++ [Pop]) s
      = Ret (s', (Popped <$> rest) ++ [PopEmpty]) ∧
    ((∀ e, e ∈ es → ∃ v, e = Pushed v) → rest = reverse (pushed es)).
Proof.
  split; [reflexivity|].
  apply (pops_follow_the_list_discipline sample_history). reflexivity.
Defined.

Lemma size_is_pushes_minus_successful_pops_witness :
  runtime_ok sample_history concurrent_stack.init = true ∧
  ∃ s es,
    run sample_history concurrent_stack.init = Ret (s, es) ∧
    usage.pushes_return sample_history es 0 ∧
    concurrent_stack.size s
      = Ret (Z.of_nat (List.length (pushed es)) - Z.of_nat (List.length (popped es))) ∧
    Z.of_nat (List.length (pushed es)) = push_calls sample_history - pushes_thrown es ∧
    ((∀ v sys, Push v sys ∈ sample_history → sys ≠ None) →
     concurrent_stack.size s
       = Ret (push_calls sample_history - Z.of_nat (List.length (popped es)))).
Proof.
  split; [reflexivity|].
  apply (size_is_pushes_minus_successful_pops sample_history). reflexivity.
Defined.

(** Pushes that are given memory, and one that is not but finds the node
    of the pop before it: three [push] calls, one pop that returned a
    value, and [size()] is 2. *)
Example size_after_pushes_that_return :
  (λ '(s, es), (es, concurrent_stack.size s))
    <$> run [Push 1 (Some 16); Push 2 (Some 32); Pop; Push 3 None] concurrent_stack.init
  = Ret ([Pushed 1; Pushed 2; Popped 2; Pushed 3], Ret 2).
Proof. vm_compute. reflexivity. Qed.

Example sample_history_events :
  snd <$> run sample_history concurrent_stack.init
  = Ret [PushThrew; Pushed 1; Pushed 2; Popped 2; Pushed 3; Pushed 4;
         Popped 4; Popped 3; Popped 1; PopEmpty].
Proof. vm_compute. reflexivity. Qed.

(** C2 as it is worded fails twice. After [push(1); pop(); push(2); pop()]
    the pops returned 1 then 2, which is the order of the pushes and not its
    reverse; after [push(1)] alone nothing was popped while 1 was pushed. *)
Lemma popped_equals_pushed_counterexample :
  (∃ s es,
     runtime_ok [Push 1 (Some 16); Pop; Push 2 (Some 32); Pop] concurrent_stack.init = true ∧
     run [Push 1 (Some 16); Pop; Push 2 (Some 32); Pop] concurrent_stack.init = Ret (s, es) ∧
     pushed es = [1; 2] ∧ popped es = [1; 2] ∧ popped es ≠ reverse (pushed es)) ∧
  (∃ s es,
     runtime_ok [Push 1 (Some 16)] concurrent_stack.init = true ∧
     run [Push 1 (Some 16)] concurrent_stack.init = Ret (s, es) ∧
     ¬ popped es ≡ₚ pushed es).
Proof.
  split.
  - eexists _, _. split; [reflexivity|]. split; [vm_compute; reflexivity|].
    split_and!; try reflexivity. discriminate.
  - eexists _, _. split; [reflexivity|]. split; [vm_compute; reflexivity|].
    intros Hp. apply Permutation_length in Hp. discriminate.
Qed.
End history_examples.

(** ** The counter of the head *)

Section counter_lemmas.
Context {T : Type}.
Import prim_concurrent_stack history.
Implicit Types (h : node_store T) (s : prim_concurrent_stack.t).

Lemma wrap_size_t_succ z k : wrap_size_t (wrap_size_t (z + k) + 1) = wrap_size_t (z + (k + 1)).
Proof.
  unfold wrap_size_t. rewrite Zplus_mod_idemp_l. f_equal. lia.
Qed.

(** A compare-and-swap of [push] that succeeds stores the counter it found
    plus one, whatever other threads did since [oldHead] was read. *)
Lemma push_swap_counter h cur oldHead newNode h' newHead now :
  push_body h oldHead newNode = Ret (h', newHead) →
  atomic_compare_and_swap_16 cur oldHead newHead = (now, true) →
  counter now = wrap_size_t (counter cur + 1).
Proof.
  unfold push_body. intros Hbody [-> ->]%cas_swapped.
  destruct (h !! newNode); [|done].
  destruct (prim_concurrent_stack.length h (node oldHead)); simpl in Hbody; try done.
  by injection Hbody as <- <-.
Qed.

Lemma pop_swap_counter h cur oldHead newHead now :
  pop_body h oldHead = Ret (Some newHead) →
  atomic_compare_and_swap_16 cur oldHead newHead = (now, true) →
  counter now = wrap_size_t (counter cur + 1).
Proof.
  unfold pop_body. intros Hbody [-> ->]%cas_swapped.
  case_bool_decide; [done|]. destruct (h !! node oldHead); [|done].
  by injection Hbody as <-.
Qed.

Lemma prim_push_counter h s x h' s' :
  prim_concurrent_stack.push h s x = Ret (h', s') →
  counter (head s') = wrap_size_t (counter (head s) + 1).
Proof.
  unfold prim_concurrent_stack.push, push_loop.
  destruct (push_body h (head s) x) as [[h1 newHead]| | |] eqn:Hbody; simpl; try done.
  destruct (atomic_compare_and_swap_16 (head s) (head s) newHead) as [now swapped] eqn:Hcas.
  destruct swapped; [|done]. intros [= <- <-]. simpl.
  eapply push_swap_counter; eauto.
Qed.

Lemma prim_pop_counter h s x s' :
  prim_concurrent_stack.pop h s = Ret (x, s') →
  if bool_decide (x = nullptr) then s' = s
  else counter (head s') = wrap_size_t (counter (head s) + 1).
Proof.
  unfold prim_concurrent_stack.pop, pop_loop.
  destruct (pop_body h (head s)) as [[newHead|]| | |] eqn:Hbody; simpl; try done.
  - destruct (atomic_compare_and_swap_16 (head s) (head s) newHead) as [now swapped] eqn:Hcas.
    destruct swapped; [|done]. intros [= <- <-]. simpl.
    unfold pop_body in Hbody. case_bool_decide; [done|].
    unfold pop_body in *. 
    apply cas_swapped in Hcas as [_ ->].
    destruct (h !! node (head s)); [|done]. by injection Hbody as <-.
  - intros [= <- <-]. by rewrite bool_decide_eq_true_2.
Qed.

(** The counters stored by a history, from a head whose counter is [c]:
    [c + 1], [c + 2], ... in 64-bit arithmetic. *)
Lemma prim_run_counters ops h s h' s' heads :
  prim_run ops h s = Ret (h', s', heads) →
  counter <$> heads
    = (λ k, wrap_size_t (counter (head s) + k)) <$> seqZ 1 (Z.of_nat (List.length heads)) ∧
  (0 <= counter (head s) < 2 ^ 64 →
   counter (head s') = wrap_size_t (counter (head s) + Z.of_nat (List.length heads))).
Proof.
  revert h s h' s' heads.
  assert (∀ c n, 0 <= n →
    wrap_size_t (c + 1) :: ((λ k, wrap_size_t (wrap_size_t (c + 1) + k)) <$> seqZ 1 n)
    = (λ k, wrap_size_t (c + k)) <$> seqZ 1 (Z.succ n)) as Hshift.
  { intros c n Hn. rewrite (seqZ_cons 1 (Z.succ n)) by lia. rewrite fmap_cons. f_equal.
    replace (Z.pred (Z.succ n)) with n by lia.
    rewrite <-(fmap_add_seqZ 1 1). rewrite <-list_fmap_compose.
    apply list_fmap_ext. intros _ k _. simpl.
    unfold wrap_size_t. rewrite Zplus_mod_idemp_l. f_equal. lia. }
  induction ops as [|[x|] ops IH]; simpl; intros h s h' s' heads Hrun.
  - injection Hrun as <- <- <-. split; [done|]. intros Hc. simpl.
    rewrite Z.add_0_r. by rewrite wrap_size_t_small.
  - destruct (prim_concurrent_stack.push h s x) as [[h1 s1]| | |] eqn:Hpush;
      simpl in Hrun; try done.
    destruct (prim_run ops h1 s1) as [[[h2 s2] heads2]| | |] eqn:Hrun2;
      simpl in Hrun; try done.
    injection Hrun as <- <- <-.
    apply prim_push_counter in Hpush.
    destruct (IH _ _ _ _ _ Hrun2) as [IH1 IH2]. split.
    + rewrite fmap_cons, IH1, Hpush. simpl List.length.
      rewrite Nat2Z.inj_succ. apply Hshift. lia.
    + intros Hc. rewrite IH2, Hpush.
      * simpl List.length. rewrite Nat2Z.inj_succ.
        unfold wrap_size_t. rewrite Zplus_mod_idemp_l. f_equal. lia.
      * rewrite Hpush. unfold wrap_size_t. apply Z.mod_pos_bound. lia.
  - destruct (prim_concurrent_stack.pop h s) as [[x s1]| | |] eqn:Hpop;
      simpl in Hrun; try done.
    destruct (prim_run ops h s1) as [[[h2 s2] heads2]| | |] eqn:Hrun2;
      simpl in Hrun; try done.
    injection Hrun as <- <- <-.
    apply prim_pop_counter in Hpop.
    destruct (IH _ _ _ _ _ Hrun2) as [IH1 IH2].
    case_bool_decide.
    + subst s1. by split.
    + split.
      * rewrite fmap_cons, IH1, Hpop. simpl List.length.
        rewrite Nat2Z.inj_succ. apply Hshift. lia.
      * intros Hc. rewrite IH2, Hpop.
        -- simpl List.length. rewrite Nat2Z.inj_succ.
           unfold wrap_size_t. rewrite Zplus_mod_idemp_l. f_equal. lia.
        -- rewrite Hpop. unfold wrap_size_t. apply Z.mod_pos_bound. lia.
Qed.
End counter_lemmas.

Section counter_theorems.
Context {T : Type}.
Import prim_concurrent_stack history.
Implicit Types (h : node_store T) (s : prim_concurrent_stack.t).

(** C8. Each compare-and-swap that succeeds in [push] or [pop] stores the
    previous counter plus one. So, short of the 2^64 exchanges that it
    takes to use the counter up, the counters stored by any history are
    the consecutive integers after the one it started from: each is
    larger than all before it and than the one at the start, the last is
    the one in [head] at the end, and no value of [head] comes twice. *)
Theorem head_counter_steps_by_one ops h s h' s' heads :
  prim_run ops h s = Ret (h', s', heads) →
  0 <= counter (head s) →
  counter (head s) + Z.of_nat (List.length heads) < 2 ^ 64 →
  counter <$> heads = seqZ (counter (head s) + 1) (Z.of_nat (List.length heads)) ∧
  counter (head s') = counter (head s) + Z.of_nat (List.length heads) ∧
  (∀ (i j : nat) x y,
     (i < j)%nat → heads !! i = Some x → heads !! j = Some y → counter x < counter y) ∧
  (∀ x, x ∈ heads → counter (head s) < counter x) ∧
  NoDup (head s :: heads).
Proof.
  intros Hrun Hc Hn. destruct (prim_run_counters _ _ _ _ _ _ Hrun) as [H1 H2].
  assert (counter <$> heads
          = seqZ (counter (head s) + 1) (Z.of_nat (List.length heads))) as Hseq.
  { rewrite H1, <-(fmap_add_seqZ (counter (head s)) 1).
    apply list_fmap_ext. intros i k Hk.
    apply lookup_seqZ in Hk as [-> Hi]. apply wrap_size_t_small. lia. }
  assert (∀ (i : nat) x, heads !! i = Some x →
            counter x = counter (head s) + 1 + Z.of_nat i) as Hat.
  { intros i x Hx.
    assert ((counter <$> heads) !! i = Some (counter x)) as Hcx
      by (by rewrite list_lookup_fmap, Hx).
    rewrite Hseq in Hcx. by apply lookup_seqZ in Hcx as [-> _]. }
  assert (∀ x, x ∈ heads → counter (head s) < counter x) as Habove.
  { intros x [i Hi]%list_elem_of_lookup_1. rewrite (Hat i x Hi). lia. }
  split; [done|]. split; [|split; [|split; [done|]]].
  - rewrite H2 by lia. apply wrap_size_t_small. lia.
  - intros i j x y Hij Hx Hy. rewrite (Hat i x Hx), (Hat j y Hy). lia.
  - apply NoDup_cons. split.
    + intros Hin. specialize (Habove _ Hin). lia.
    + apply (NoDup_fmap_1 counter). rewrite Hseq. apply NoDup_seqZ.
Qed.
End counter_theorems.

Section counter_examples.
Import prim_concurrent_stack history samples.

Lemma head_counter_steps_by_one_witness :
  prim_run [PrimPush 16; PrimPop; PrimPop; PrimPush 16] one_node prim_concurrent_stack.init
    = Ret (one_node, prim_concurrent_stack.mk (mkNC 16 3),
           [mkNC 16 1; mkNC 0 2; mkNC 16 3]) ∧
  0 <= 0 ∧ 0 + 3 < 2 ^ 64 ∧
  counter <$> [mkNC 16 1; mkNC 0 2; mkNC 16 3] = seqZ (0 + 1) 3 ∧
  counter (mkNC 16 3) = 0 + 3 ∧
  (∀ (i j : nat) x y,
     (i < j)%nat → [mkNC 16 1; mkNC 0 2; mkNC 16 3] !! i = Some x →
     [mkNC 16 1; mkNC 0 2; mkNC 16 3] !! j = Some y → counter x < counter y) ∧
  (∀ x, x ∈ [mkNC 16 1; mkNC 0 2; mkNC 16 3] → 0 < counter x) ∧
  NoDup (mkNC nullptr 0 :: [mkNC 16 1; mkNC 0 2; mkNC 16 3]).
Proof.
  assert (prim_run [PrimPush 16; PrimPop; PrimPop; PrimPush 16] one_node
            prim_concurrent_stack.init
          = Ret (one_node, prim_concurrent_stack.mk (mkNC 16 3),
                 [mkNC 16 1; mkNC 0 2; mkNC 16 3])) as Hrun
    by (vm_compute; reflexivity).
  split; [exact Hrun|]. split; [lia|]. split; [lia|].
  apply (head_counter_steps_by_one _ _ _ _ _ _ Hrun); simpl; lia.
Defined.

Lemma push_then_pop_round (c : Z) :
  0 <= c < 2 ^ 64 →
  push_then_pop 16 (Ret (one_node, prim_concurrent_stack.mk (mkNC nullptr c)))
  = Ret (one_node, prim_concurrent_stack.mk (mkNC nullptr (wrap_size_t (c + 2)))).
Proof.
  intros Hc. unfold push_then_pop. simpl.
  erewrite prim_push_eq; [|reflexivity|reflexivity]. simpl.
  erewrite prim_pop_eq; [|done|simpl; apply lookup_insert_eq]. simpl.
  rewrite (wrap_size_t_succ c 1). by do 3 f_equal.
Qed.

Lemma push_then_pop_rounds (n : N) :
  N.iter n (push_then_pop 16) (Ret (one_node, prim_concurrent_stack.init))
  = Ret (one_node, prim_concurrent_stack.mk (mkNC nullptr (wrap_size_t (2 * Z.of_N n)))).
Proof.
  induction n as [|n IH] using N.peano_ind.
  - reflexivity.
  - rewrite N.iter_succ, IH, push_then_pop_round.
    + do 4 f_equal. unfold wrap_size_t. rewrite Zplus_mod_idemp_l. f_equal. lia.
    + unfold wrap_size_t. apply Z.mod_pos_bound. lia.
Qed.

(** The bound is needed. The counter is a [uint64_t]: pushing one node and
    popping it again, 2^63 times over, makes 2^64 exchanges and stores 0
    again, which leaves a new primitive stack at the head it was
    constructed with. The header of the file says as much, and takes that
    many exchanges to be out of reach. *)
Example head_counter_after_2_pow_64_exchanges :
  N.iter (2 ^ 63) (push_then_pop 16) (Ret (one_node, prim_concurrent_stack.init))
    = Ret (one_node, prim_concurrent_stack.init).
Proof. rewrite push_then_pop_rounds. reflexivity. Qed.
End counter_examples.

(** ** The 16-byte compare-and-swap *)

Section cas16.
Import experimental.

(** The two halves [_InterlockedCompareExchange128] is given make up the
    desired value again. *)
Lemma high_low_join (d : Z) :
  Z.lor (Z.shiftl (Z.shiftr d 64) 64) (Z.land d (Z.ones 64)) = d.
Proof.
  apply Z.bits_inj'. intros n Hn.
  rewrite Z.lor_spec, Z.land_spec, Z.shiftl_spec by done.
  destruct (decide (n < 64)) as [Hlt|Hge].
  - rewrite Z.testbit_neg_r by lia. rewrite Z.ones_spec_low by lia.
    simpl. by rewrite andb_true_r.
  - rewrite Z.shiftr_spec by lia. rewrite Z.ones_spec_high by lia.
    rewrite andb_false_r, orb_false_r. f_equal. lia.
Qed.

(** A type that is not 16 bytes wide is rejected by the [static_assert],
    whatever the platform. *)
Lemma cas16_wrong_size c sizeof_T :
  sizeof_T ≠ 16 → atomic_compare_and_swap_16 c sizeof_T = static_assert_failed.
Proof.
  intros Hs. unfold atomic_compare_and_swap_16.
  by rewrite (proj2 (Z.eqb_neq sizeof_T 16)).
Qed.

(** With a backend the call exchanges exactly when the 16 bytes at the
    location equal the expected value, and says whether it did. *)
Lemma cas16_with_backend c obj expected desired :
  selected_backend c ≠ NO_CAS →
  call (atomic_compare_and_swap_16 c 16) obj expected desired
  = Some (Ret (if bool_decide (obj = expected) then (desired, true) else (obj, false))).
Proof.
  intros Hb. unfold atomic_compare_and_swap_16. simpl.
  destruct (selected_backend c); [| |done]; simpl.
  - done.
  - unfold _InterlockedCompareExchange128. by rewrite high_low_join.
Qed.

(** C9 does not hold where it speaks of a build without a backend. With
    [__GNUC__] defined and neither [MCX16] nor [_WIN32] the [#else] branch
    is taken, which holds a comment only: the template is instantiated at
    a 16-byte type without complaint, its body has no [return], and a call
    runs off the end of a function returning [bool]. *)
Theorem cas16_without_backend_still_compiles (obj expected desired : Z) :
  selected_backend samples.gcc_without_mcx16 = NO_CAS ∧
  atomic_compare_and_swap_16 samples.gcc_without_mcx16 16 = compiled no_return_statement ∧
  call (atomic_compare_and_swap_16 samples.gcc_without_mcx16 16) obj expected desired
  = Some Undefined.
Proof. done. Qed.
End cas16.

Section bits.
Import prim_concurrent_stack.

Lemma bits_fields (x : nodeAndCounter) :
  0 <= node x < 2 ^ 64 →
  Z.land (bits x) (Z.ones 64) = node x ∧ Z.shiftr (bits x) 64 = counter x.
Proof.
  intros Hn. unfold bits. split.
  - apply Z.bits_inj'. intros n Hn0.
    rewrite Z.land_spec, Z.lor_spec, Z.shiftl_spec by done.
    destruct (decide (n < 64)) as [Hlt|Hge].
    + rewrite Z.testbit_neg_r by lia. rewrite Z.ones_spec_low by lia.
      simpl. by rewrite andb_true_r.
    + rewrite Z.ones_spec_high by lia. rewrite andb_false_r.
      symmetry. apply Z.bits_above_log2; [lia|].
      destruct (decide (node x = 0)) as [->|Hnz]; [simpl; lia|].
      apply Z.log2_lt_pow2; [lia|].
      apply Z.lt_le_trans with (2 ^ 64); [lia|].
      apply Z.pow_le_mono_r; lia.
  - apply Z.bits_inj'. intros n Hn0.
    rewrite Z.shiftr_spec, Z.lor_spec, Z.shiftl_spec by lia.
    replace (n + 64 - 64) with n by lia.
    rewrite (Z.bits_above_log2 (node x) (n + 64)); [by rewrite orb_false_r|lia|].
    destruct (decide (node x = 0)) as [->|Hnz]; [simpl; lia|].
    apply Z.log2_lt_pow2; [lia|].
    apply Z.lt_le_trans with (2 ^ 64); [lia|].
    apply Z.pow_le_mono_r; lia.
Qed.

Lemma bits_inj (x y : nodeAndCounter) :
  0 <= node x < 2 ^ 64 → 0 <= node y < 2 ^ 64 → bits x = bits y → x = y.
Proof.
  intros Hx Hy Hb.
  destruct (bits_fields x Hx) as [Hnx Hcx], (bits_fields y Hy) as [Hny Hcy].
  destruct x as [nx cx], y as [ny cy]. simpl in *.
  rewrite Hb in Hnx, Hcx. congruence.
Qed.

(** The compare-and-swap the stack uses on [head] is the built-in one on
    the 16 bytes of the operands. *)
Lemma head_cas_is_builtin_cas (obj expected desired : nodeAndCounter) :
  0 <= node obj < 2 ^ 64 → 0 <= node expected < 2 ^ 64 →
  experimental.__sync_bool_compare_and_swap_16 (bits obj) (bits expected) (bits desired)
  = (let '(now, swapped) := atomic_compare_and_swap_16 obj expected desired in
     (bits now, swapped)).
Proof.
  intros Ho He.
  unfold experimental.__sync_bool_compare_and_swap_16, atomic_compare_and_swap_16.
  destruct (decide (obj = expected)) as [->|Hne].
  - by rewrite !bool_decide_eq_true_2.
  - rewrite !bool_decide_eq_false_2; [done..|].
    intros Hb. apply Hne. by apply bits_inj.
Qed.
End bits.

(** ** The constructor *)

Section index_lemmas.
Context {A : Type}.
Implicit Types (v : list A).

Lemma index_Ret v i x :
  index v i = Ret x ↔ 0 <= i ∧ v !! Z.to_nat i = Some x.
Proof.
  unfold index. case_bool_decide as Hi.
  - destruct (v !! Z.to_nat i) eqn:Hl; split.
    + intros [= ->]. split; [lia|done].
    + intros [_ [= ->]]. done.
    + done.
    + intros [_ [=]].
  - split; [done|]. intros [H0 Hl]. apply lookup_lt_Some in Hl. lia.
Qed.

Lemma index_in_bounds v i :
  0 <= i < Z.of_nat (length v) → ∃ x, index v i = Ret x ∧ v !! Z.to_nat i = Some x.
Proof.
  intros Hi. destruct (lookup_lt_is_Some_2 v (Z.to_nat i)) as [x Hx]; [lia|].
  exists x. split; [|done]. apply index_Ret. split; [lia|done].
Qed.

Lemma index_out_of_bounds v i :
  ¬ (0 <= i < Z.of_nat (length v)) → index v i = Undefined.
Proof. intros Hi. unfold index. by rewrite bool_decide_eq_false_2. Qed.
End index_lemmas.

Section constructor_lemmas.
Context {B : Type} `{!BlockAllocator B}.
Import pool_allocator pool.

Lemma count_small_bounds sizes :
  0 <= count_small sizes <= Z.of_nat (length sizes).
Proof.
  induction sizes as [|x l IH]; simpl; [lia|].
  destruct (x <? large_threshold); lia.
Qed.

Lemma small_sizes_length sizes :
  Z.of_nat (length (small_sizes sizes)) = count_small sizes.
Proof.
  unfold small_sizes. rewrite length_take.
  pose proof (count_small_bounds sizes). lia.
Qed.

(** The validating loop, whatever the previous size: it builds one
    allocator per size when no size is below 8 and each exceeds the one
    before, and throws otherwise. *)
Lemma construct_small_spec (l : list Z) (prev : Z) :
  if all_at_least_8 l && strictly_increasing (prev :: l)
  then construct_small (B:=B) l prev
       = Ret ((λ size, block_allocator size 0 (small_alloc_block_size - 64)) <$> l)
  else ∃ what, construct_small (B:=B) l prev = Throw (invalid_argument what).
Proof.
  revert prev. induction l as [|x l IH]; intros prev; [done|].
  specialize (IH x).
  set (ok := all_at_least_8 l && strictly_increasing (x :: l)) in *.
  assert (all_at_least_8 (x :: l) && strictly_increasing (prev :: x :: l)
          = (8 <=? x) && ((prev <? x) && ok)) as ->.
  { unfold ok.
    change (strictly_increasing (prev :: x :: l))
      with ((prev <? x) && strictly_increasing (x :: l)).
    change (all_at_least_8 (x :: l)) with ((8 <=? x) && all_at_least_8 l).
    destruct (8 <=? x), (prev <? x), (all_at_least_8 l); done. }
  clearbody ok. cbn [construct_small].
  destruct (Z.ltb_spec x 8) as [H8|H8].
  - rewrite (proj2 (Z.leb_gt 8 x)) by done. simpl. eauto.
  - rewrite (proj2 (Z.leb_le 8 x)) by done. rewrite Z.gtb_ltb.
    destruct (prev <? x); simpl; [|eauto].
    destruct ok.
    + rewrite IH. done.
    + destruct IH as [what ->]. eauto.
Qed.

Lemma increasing_from_0 (l : list Z) :
  all_at_least_8 l && strictly_increasing (0 :: l)
  = all_at_least_8 l && strictly_increasing l.
Proof.
  destruct l as [|x l]; [done|].
  change (strictly_increasing (0 :: x :: l))
    with ((0 <? x) && strictly_increasing (x :: l)).
  cbn [all_at_least_8 forallb].
  destruct (Z.leb_spec 8 x) as [H8|H8]; [|done].
  by rewrite (proj2 (Z.ltb_lt 0 x)) by lia.
Qed.

(** What the constructor returns for a non-empty list. *)
Lemma pool_allocator_spec (sizes : list Z) :
  sizes ≠ [] → Z.of_nat (length sizes) < 2 ^ 64 →
  ∃ max_size max_small,
    index sizes (Z.of_nat (length sizes) - 1) = Ret max_size ∧
    (if count_small sizes >? 0 then index sizes (count_small sizes - 1) else Ret 0)
      = Ret max_small ∧
    if all_at_least_8 (small_sizes sizes) && strictly_increasing (small_sizes sizes)
    then pool_allocator (B:=B) sizes
         = Ret (mk (Z.of_nat (length sizes)) (count_small sizes) max_small max_size 0
                  (replicate (Z.to_nat (Z.of_nat (length sizes) - count_small sizes))
                     concurrent_stack.init)
                  ((λ size, block_allocator size 0 (small_alloc_block_size - 64))
                     <$> small_sizes sizes)
                  sizes)
    else ∃ what, pool_allocator (B:=B) sizes = Throw (invalid_argument what).
Proof.
  intros Hne Hlen.
  assert (0 < Z.of_nat (length sizes)) as Hpos by (destruct sizes; [done|simpl; lia]).
  pose proof (count_small_bounds sizes) as Hcs.
  destruct (index_in_bounds sizes (Z.of_nat (length sizes) - 1)) as (mx & Hmx & _); [lia|].
  assert (∃ ms, (if count_small sizes >? 0 then index sizes (count_small sizes - 1) else Ret 0)
                = Ret ms) as [ms Hms].
  { destruct (Z.gtb_spec (count_small sizes) 0); [|eauto].
    destruct (index_in_bounds sizes (count_small sizes - 1)) as (ms & Hms & _); [lia|eauto]. }
  exists mx, ms. split_and!; [done..|].
  unfold pool_allocator. rewrite wrap_size_t_small by lia.
  rewrite Hmx. simpl. rewrite Hms. simpl.
  pose proof (construct_small_spec (small_sizes sizes) 0) as Hcons.
  rewrite increasing_from_0 in Hcons. fold (small_sizes sizes).
  revert Hcons.
  destruct (all_at_least_8 (small_sizes sizes) && strictly_increasing (small_sizes sizes)).
  - by intros ->.
  - intros [what ->]. eauto.
Qed.

Lemma repr_holds_init : holds concurrent_stack.init [].
Proof. exists [], []. split; [apply repr_init|done]. Qed.

Lemma pool_allocator_inv (sizes : list Z) (s : t B) :
  Z.of_nat (length sizes) < 2 ^ 64 → pool_allocator sizes = Ret s → inv s.
Proof.
  intros Hlen Hs.
  assert (sizes ≠ []) as Hne by (by intros ->).
  destruct (pool_allocator_spec sizes Hne Hlen) as (mx & ms & Hmx & Hms & Hctor).
  destruct (all_at_least_8 (small_sizes sizes) && strictly_increasing (small_sizes sizes))
    eqn:Hok; [|destruct Hctor as [what Hw]; congruence].
  rewrite Hs in Hctor. injection Hctor as ->.
  apply andb_prop in Hok as [H8 Hinc].
  pose proof (count_small_bounds sizes) as Hcs.
  unfold inv; simpl. split_and!; try done.
  - rewrite length_fmap. apply small_sizes_length.
  - rewrite length_replicate. lia.
  - apply Forall_replicate. exists []. apply repr_holds_init.
Qed.
End constructor_lemmas.

Section constructor_theorems.
Context {B : Type} `{!BlockAllocator B}.
Import pool_allocator pool.

(** C4, as amended. For a non-empty size list the constructor validates
    the small sizes only, that is the sizes before the first one that
    reaches the large threshold: when these are strictly increasing and
    none is below 8 it returns an allocator over the list as given; when
    they are not it throws [invalid_argument] and returns none. *)
Theorem constructor_validates_small_sizes (sizes : list Z) :
  sizes ≠ [] → Z.of_nat (length sizes) < 2 ^ 64 →
  (strictly_increasing (small_sizes sizes) = true ∧
   all_at_least_8 (small_sizes sizes) = true →
   ∃ s : t B, pool_allocator sizes = Ret s ∧ pool_allocator.sizes s = sizes ∧ inv s) ∧
  (strictly_increasing (small_sizes sizes) = false ∨
   all_at_least_8 (small_sizes sizes) = false →
   ∃ what, pool_allocator (B:=B) sizes = Throw (invalid_argument what)).
Proof.
  intros Hne Hlen.
  destruct (pool_allocator_spec (B:=B) sizes Hne Hlen) as (mx & ms & Hmx & Hms & Hctor).
  split.
  - intros [Hinc H8]. rewrite Hinc, H8 in Hctor. simpl in Hctor.
    eexists. split; [exact Hctor|]. split; [done|].
    by apply (pool_allocator_inv sizes).
  - intros Hbad.
    destruct (all_at_least_8 (small_sizes sizes) && strictly_increasing (small_sizes sizes))
      eqn:Hok; [|done].
    apply andb_prop in Hok as [H8 Hinc]. destruct Hbad; congruence.
Qed.

(** C10. The constructor runs into undefined behaviour exactly on the
    empty list: there [num_buckets - 1] is 2^64 - 1 and [sizes[2^64 - 1]]
    is read from a vector without elements; no [invalid_argument] is
    thrown. On every other list the read is within bounds. *)
Theorem constructor_needs_a_size (sizes : list Z) :
  Z.of_nat (length sizes) < 2 ^ 64 →
  (pool_allocator (B:=B) sizes = Undefined ↔ sizes = []) ∧
  (sizes = [] →
   wrap_size_t (Z.of_nat (length sizes) - 1) = 2 ^ 64 - 1 ∧
   index sizes (wrap_size_t (Z.of_nat (length sizes) - 1)) = Undefined).
Proof.
  intros Hlen. split; [split|].
  - intros Hu. destruct sizes as [|x l]; [done|]. exfalso.
    destruct (pool_allocator_spec (B:=B) (x :: l) ltac:(done) Hlen)
      as (mx & ms & _ & _ & Hctor).
    destruct (all_at_least_8 _ && strictly_increasing _).
    + congruence.
    + destruct Hctor as [what Hw]. congruence.
  - intros ->. reflexivity.
  - intros ->. split; reflexivity.
Qed.
End constructor_theorems.

Section constructor_examples.
Import pool_allocator pool.

Lemma constructor_validates_small_sizes_witness :
  scenario_sizes ≠ [] ∧ Z.of_nat (length scenario_sizes) < 2 ^ 64 ∧
  (strictly_increasing (small_sizes scenario_sizes) = true ∧
   all_at_least_8 (small_sizes scenario_sizes) = true →
   ∃ s : t counting_allocator,
     pool_allocator scenario_sizes = Ret s ∧ sizes s = scenario_sizes ∧ inv s) ∧
  (strictly_increasing (small_sizes scenario_sizes) = false ∨
   all_at_least_8 (small_sizes scenario_sizes) = false →
   ∃ what, pool_allocator (B:=counting_allocator) scenario_sizes
           = Throw (invalid_argument what)).
Proof.
  split; [done|]. split; [simpl; lia|].
  apply (constructor_validates_small_sizes (B:=counting_allocator) scenario_sizes).
  - done.
  - simpl; lia.
Defined.

Lemma constructor_needs_a_size_witness :
  Z.of_nat (length (@nil Z)) < 2 ^ 64 ∧
  (pool_allocator (B:=counting_allocator) [] = Undefined ↔ @nil Z = []) ∧
  (@nil Z = [] →
   wrap_size_t (Z.of_nat (length (@nil Z)) - 1) = 2 ^ 64 - 1 ∧
   index (@nil Z) (wrap_size_t (Z.of_nat (length (@nil Z)) - 1)) = Undefined).
Proof.
  split; [simpl; lia|].
  apply (constructor_needs_a_size (B:=counting_allocator) []). simpl; lia.
Defined.

(** C4 as it is worded fails. [{16, 1<<21, 1<<20}] is not strictly
    increasing, and [{1<<20, 4}] is neither increasing nor free of sizes
    below 8, yet both are accepted: the loop that validates stops at the
    first size that reaches the large threshold. *)
Lemma constructor_accepts_unsorted_counterexample :
  (strictly_increasing [16; Z.shiftl 1 21; Z.shiftl 1 20] = false ∧
   ∃ s : t counting_allocator,
     pool_allocator [16; Z.shiftl 1 21; Z.shiftl 1 20] = Ret s) ∧
  (strictly_increasing [Z.shiftl 1 20; 4] = false ∧
   small_range_sizes [Z.shiftl 1 20; 4] = [4] ∧
   ∃ s : t counting_allocator, pool_allocator [Z.shiftl 1 20; 4] = Ret s).
Proof.
  split.
  - split; [reflexivity|]. eexists. vm_compute. reflexivity.
  - split; [reflexivity|]. split; [reflexivity|]. eexists. vm_compute. reflexivity.
Qed.
End constructor_examples.

(** ** States of the pool *)

Section more_arith.
Import pool_allocator.

Lemma wrap_long_range z : - 2 ^ 63 <= wrap_long z < 2 ^ 63.
Proof.
  unfold wrap_long. pose proof (Z.mod_pos_bound (z + 2 ^ 63) (2 ^ 64)). lia.
Qed.

Lemma wrap_long_sub x y : wrap_long (wrap_long x - y) = wrap_long (x - y).
Proof.
  unfold wrap_long.
  replace ((x + 2 ^ 63) mod 2 ^ 64 - 2 ^ 63 - y + 2 ^ 63)
    with ((x + 2 ^ 63) mod 2 ^ 64 - y) by lia.
  rewrite Zminus_mod_idemp_l. do 2 f_equal. lia.
Qed.

Lemma round_up_aligned a : a mod large_align = 0 → round_up a = a.
Proof. intros Ha. unfold round_up. rewrite bool_decide_eq_false_2; [done|]. by intros []. Qed.

(** Short of the top 64 bytes of the address space, [round_up] is the
    least multiple of 64 that is not below its argument. *)
Lemma round_up_bounds a :
  0 <= a <= 2 ^ 64 - 64 →
  round_up a mod large_align = 0 ∧ a <= round_up a < a + large_align.
Proof.
  intros Ha. unfold round_up, large_align in *.
  pose proof (Z.mod_pos_bound a 64 ltac:(lia)) as Hm.
  pose proof (Z.div_mod a 64 ltac:(lia)) as Hd.
  case_bool_decide as Hne.
  - rewrite wrap_size_t_small by lia.
    replace (a + (64 - a mod 64)) with ((a / 64 + 1) * 64) by lia.
    rewrite Z.mod_mul by lia. lia.
  - split; lia.
Qed.

(** In general it is a multiple of 64, but past 2^64 - 64 it wraps to
    0. *)
Lemma round_up_multiple a : 0 <= a < 2 ^ 64 → round_up a mod large_align = 0.
Proof.
  intros Ha. destruct (decide (a <= 2 ^ 64 - 64)) as [Hs|Hl].
  - apply round_up_bounds. lia.
  - unfold round_up, large_align in *.
    pose proof (Z.mod_pos_bound a 64 ltac:(lia)) as Hm.
    pose proof (Z.div_mod a 64 ltac:(lia)) as Hd.
    case_bool_decide as Hne; [|lia].
    assert (a / 64 = 2 ^ 58 - 1) as Hq.
    { apply Z.le_antisymm.
      - apply Z.lt_succ_r. apply Z.div_lt_upper_bound; lia.
      - apply Z.div_le_lower_bound; lia. }
    replace (a + (64 - a mod 64)) with (2 ^ 64) by lia.
    reflexivity.
Qed.
End more_arith.

Section holds_lemmas.
Import pool_allocator pool history.

Lemma holds_pop_empty st :
  holds st [] → concurrent_stack.pop st = Ret (None, st).
Proof.
  intros (la & lb & Hr & Hla). apply fmap_nil_inv in Hla as ->.
  by apply (pop_empty _ lb).
Qed.

Lemma holds_pop_top st p blocks :
  holds st (p :: blocks) →
  ∃ st', concurrent_stack.pop st = Ret (Some p, st') ∧ holds st' blocks.
Proof.
  intros (la & lb & Hr & Hla).
  destruct la as [|[x v] la]; [done|]. injection Hla as -> <-.
  destruct (pop_top _ _ _ _ _ Hr) as (st' & Hpop & Hr').
  exists st'. split; [done|]. by exists la, ((x, p) :: lb).
Qed.

Lemma holds_pop st blocks r st' :
  holds st blocks → concurrent_stack.pop st = Ret (r, st') →
  ∃ blocks', holds st' blocks'.
Proof.
  intros Hh Hpop. destruct blocks as [|p blocks].
  - rewrite (holds_pop_empty _ Hh) in Hpop. injection Hpop as <- <-. eauto.
  - destruct (holds_pop_top _ _ _ Hh) as (st1 & Hpop1 & Hh1).
    rewrite Hpop1 in Hpop. injection Hpop as <- <-. eauto.
Qed.

Lemma holds_size st blocks :
  holds st blocks → concurrent_stack.size st = Ret (Z.of_nat (length blocks)).
Proof.
  intros (la & lb & Hr & <-). rewrite length_fmap. by apply (size_repr _ _ lb).
Qed.

Lemma holds_push st blocks p sys st' calls :
  holds st blocks → history.fresh_for st sys = true →
  concurrent_stack.push p sys st = Ret (st', calls) →
  holds st' (p :: blocks).
Proof.
  intros (la & lb & Hr & <-) Hf Hpush.
  destruct lb as [|[x w] lb].
  - destruct sys as [q|].
    + destruct (push_allocates _ _ _ p Hr Hf) as (st1 & Hpush1 & Hr1).
      rewrite Hpush1 in Hpush. injection Hpush as <- <-.
      by exists ((q, p) :: la), [].
    + by rewrite (push_throws _ _ p Hr) in Hpush.
  - destruct (push_recycles _ _ _ _ _ p sys Hr) as (st1 & Hpush1 & Hr1).
    rewrite Hpush1 in Hpush. injection Hpush as <- <-.
    by exists ((x, p) :: la), lb.
Qed.
End holds_lemmas.

Section inv_lemmas.
Context {B : Type} `{!BlockAllocator B}.
Import pool_allocator pool.
Implicit Types (s : t B).

Lemma inv_set_large_allocated s c :
  inv s → - 2 ^ 63 <= c < 2 ^ 63 → inv (set_large_allocated c s).
Proof. unfold inv. simpl. tauto. Qed.

Lemma inv_set_large_bucket s i st blocks :
  inv s → holds st blocks → inv (set_large_bucket i st s).
Proof.
  unfold inv. simpl. intros (?&?&?&?&?&?&?&?&?&?&?&Hall) Hh.
  split_and!; try done; try lia.
  - by rewrite length_insert.
  - destruct (decide (Z.to_nat i < length (large_buckets s))%nat) as [Hi|Hi].
    + apply Forall_insert; eauto.
    + rewrite list_insert_ge by lia. done.
Qed.

Lemma inv_set_small_allocator s i ba :
  inv s → inv (set_small_allocator i ba s).
Proof.
  unfold inv. simpl. intros (?&?&?&?&?&?&?&?&?&?&?&Hall).
  split_and!; try done; try lia. by rewrite length_insert.
Qed.

Lemma index_large_bucket_holds s i st :
  inv s → index (large_buckets s) i = Ret st → ∃ blocks, holds st blocks.
Proof.
  intros (_&_&_&_&_&_&_&_&_&_&_&Hall) [_ Hl]%index_Ret.
  rewrite Forall_lookup in Hall. eauto.
Qed.

Lemma fresh_for_bucket s i st sys :
  pool.fresh_for s sys = true → index (large_buckets s) i = Ret st →
  history.fresh_for st sys = true.
Proof.
  unfold pool.fresh_for. intros Hf [_ Hl]%index_Ret.
  rewrite forallb_forall in Hf. apply Hf.
  apply list_elem_of_In. by eapply list_elem_of_lookup_2.
Qed.

(** Every call that returns leaves a state that satisfies [inv]. *)
Lemma allocate_inv s n sys p s' calls :
  inv s → allocate n sys s = Ret (p, s', calls) → inv s'.
Proof.
  intros Hinv. unfold allocate, allocate_large, allocate_fresh.
  repeat case_bool_decide.
  - destruct (find_bucket (sizes s) n (num_small s)) as [bucket| | |]; simpl; try done.
    destruct (index (large_buckets s) _) as [st| | |] eqn:Hst; simpl; try done.
    destruct (index_large_bucket_holds _ _ _ Hinv Hst) as [blocks Hh].
    destruct (concurrent_stack.pop st) as [[r st']| | |] eqn:Hpop; simpl; try done.
    destruct (holds_pop _ _ _ _ Hh Hpop) as [blocks' Hh'].
    destruct r as [q|].
    + intros [= <- <- <-]. by eapply inv_set_large_bucket.
    + destruct (index (sizes s) bucket) as [size| | |]; simpl; try done.
      destruct sys as [a|]; [|done]. case_bool_decide; [done|].
      intros [= <- <- <-]. apply inv_set_large_allocated.
      * by eapply inv_set_large_bucket.
      * apply wrap_long_range.
  - destruct sys as [a|]; [|done]. case_bool_decide; [done|].
    intros [= <- <- <-]. apply inv_set_large_allocated; [done|].
    apply wrap_long_range.
  - destruct (find_bucket (sizes s) n 0) as [bucket| | |]; simpl; try done.
    destruct (index (small_allocators s) bucket) as [ba| | |]; simpl; try done.
    destruct (alloc ba) as [q ba']. intros [= <- <- <-].
    by apply inv_set_small_allocator.
Qed.

Lemma deallocate_inv s p n sys s' calls :
  inv s → pool.fresh_for s sys = true →
  deallocate p n sys s = Ret (s', calls) → inv s'.
Proof.
  intros Hinv Hf. unfold deallocate, deallocate_large.
  repeat case_bool_decide.
  - intros [= <- <-]. apply inv_set_large_allocated; [done|]. apply wrap_long_range.
  - destruct (find_bucket (sizes s) n (num_small s)) as [bucket| | |]; simpl; try done.
    destruct (index (large_buckets s) _) as [st| | |] eqn:Hst; simpl; try done.
    destruct (index_large_bucket_holds _ _ _ Hinv Hst) as [blocks Hh].
    pose proof (fresh_for_bucket _ _ _ _ Hf Hst) as Hfst.
    destruct (concurrent_stack.push p sys st) as [[st' c]| | |] eqn:Hpush;
      simpl; try done.
    intros [= <- <-]. eapply inv_set_large_bucket; [done|].
    by eapply holds_push.
  - destruct (find_bucket (sizes s) n 0) as [bucket| | |]; simpl; try done.
    destruct (index (small_allocators s) bucket) as [ba| | |]; simpl; try done.
    intros [= <- <-]. by apply inv_set_small_allocator.
Qed.
End inv_lemmas.

(** ** Requests above every bucket *)

Section oversized.
Context {B : Type} `{!BlockAllocator B}.
Import pool_allocator pool.
Implicit Types (s : t B).

Lemma index_elem_of {A} (v : list A) i x : index v i = Ret x → x ∈ v.
Proof. intros [_ Hl]%index_Ret. by eapply list_elem_of_lookup_2. Qed.

Lemma above_all_sizes s n :
  inv s → Forall (λ size, size < n) (sizes s) → n > max_small s ∧ n > max_size s.
Proof.
  intros (Hne & _ & _ & Hns & Hmx & Hms & _) Hall.
  rewrite Forall_forall in Hall. split.
  - destruct (num_small s >? 0) eqn:Hpos.
    + apply index_elem_of, Hall in Hms. lia.
    + injection Hms as <-. rewrite Z.gtb_ltb in Hpos. apply Z.ltb_ge in Hpos.
      destruct (sizes s) as [|x l] eqn:Hs; [done|].
      rewrite Hns in Hpos. simpl in Hpos.
      destruct (Z.ltb_spec x large_threshold) as [Hx|Hx].
      * pose proof (count_small_bounds l). lia.
      * specialize (Hall x ltac:(left)).
        change large_threshold with 1048576 in Hx. simpl in Hall. lia.
  - apply index_elem_of, Hall in Hmx. lia.
Qed.

(** C6, as amended. A request for more than every configured size, and
    for no more than 2^64 - 64 bytes, is answered by one aligned
    [operator new], asked for [n] rounded up to the next multiple of 64
    (for [n] itself when [n] is such a multiple), with [n] added to the
    counter; it throws [bad_alloc] when the runtime does. Giving the block
    back is one aligned [operator delete], with [n] taken off the counter,
    which after the matching [allocate] restores the state from before
    it. The counter is a [long]: the sum is exact as long as it stays
    below 2^63, the difference as long as it stays at or above -2^63.
    Either way the state changes in [large_allocated] alone: no stack is
    popped or pushed, no sub-allocator called. *)
Theorem oversized_requests_bypass_the_buckets s (n p : Z) (sys : option ptr) :
  inv s → Forall (λ size, size < n) (sizes s) → 0 <= n <= 2 ^ 64 - 64 →
  p ≠ nullptr →
  ∃ alloc_size,
    alloc_size mod large_align = 0 ∧ n <= alloc_size < n + large_align ∧
    (n mod large_align = 0 → alloc_size = n) ∧
    allocate n (Some p) s
      = Ret (p, set_large_allocated (wrap_long (large_allocated s + n)) s,
             [new_aligned alloc_size large_align p]) ∧
    allocate n None s = Throw bad_alloc ∧
    deallocate p n sys s
      = Ret (set_large_allocated (wrap_long (large_allocated s - n)) s,
             [delete_aligned p large_align]) ∧
    deallocate p n sys (set_large_allocated (wrap_long (large_allocated s + n)) s)
      = Ret (s, [delete_aligned p large_align]) ∧
    (large_allocated s + n < 2 ^ 63 →
     wrap_long (large_allocated s + n) = large_allocated s + n) ∧
    (- 2 ^ 63 <= large_allocated s - n →
     wrap_long (large_allocated s - n) = large_allocated s - n).
Proof.
  intros Hinv Hall Hn Hp. destruct (above_all_sizes s n Hinv Hall) as [Hms Hmx].
  assert (- 2 ^ 63 <= large_allocated s < 2 ^ 63) as Hc by apply Hinv.
  destruct (round_up_bounds n Hn) as [Hmult Hnear].
  exists (round_up n). split; [done|]. split; [done|].
  split; [apply round_up_aligned|].
  unfold allocate, deallocate, allocate_large, deallocate_large, allocate_fresh.
  cbn [max_small max_size set_large_allocated large_allocated].
  rewrite !(bool_decide_eq_true_2 (n > max_small s)) by done.
  rewrite (bool_decide_eq_false_2 (n <= max_size s)) by lia.
  rewrite !(bool_decide_eq_true_2 (n > max_size s)) by done.
  rewrite (bool_decide_eq_false_2 (p = nullptr)) by done.
  split_and!; try done.
  - rewrite wrap_long_add_sub by done. by destruct s.
  - intros Hsum. apply wrap_long_small. lia.
  - intros Hdiff. apply wrap_long_small. lia.
Qed.
End oversized.

Section oversized_examples.
Import pool_allocator pool samples.

Lemma scenario_pool_constructed : pool_allocator scenario_sizes = Ret scenario_pool.
Proof. vm_compute. reflexivity. Qed.

Lemma scenario_pool_inv : inv scenario_pool.
Proof.
  apply (pool_allocator_inv scenario_sizes); [simpl; lia|].
  apply scenario_pool_constructed.
Qed.

Lemma oversized_requests_bypass_the_buckets_witness :
  inv scenario_pool ∧
  Forall (λ size, size < 3000001) (sizes scenario_pool) ∧
  0 <= 3000001 <= 2 ^ 64 - 64 ∧
  4096 ≠ nullptr ∧
  ∃ alloc_size,
    alloc_size mod large_align = 0 ∧ 3000001 <= alloc_size < 3000001 + large_align ∧
    (3000001 mod large_align = 0 → alloc_size = 3000001) ∧
    allocate 3000001 (Some 4096) scenario_pool
      = Ret (4096, set_large_allocated (wrap_long (large_allocated scenario_pool + 3000001))
                     scenario_pool,
             [new_aligned alloc_size large_align 4096]) ∧
    allocate 3000001 None scenario_pool = Throw bad_alloc ∧
    deallocate 4096 3000001 None scenario_pool
      = Ret (set_large_allocated (wrap_long (large_allocated scenario_pool - 3000001))
               scenario_pool,
             [delete_aligned 4096 large_align]) ∧
    deallocate 4096 3000001 None
      (set_large_allocated (wrap_long (large_allocated scenario_pool + 3000001))
         scenario_pool)
      = Ret (scenario_pool, [delete_aligned 4096 large_align]) ∧
    (large_allocated scenario_pool + 3000001 < 2 ^ 63 →
     wrap_long (large_allocated scenario_pool + 3000001)
     = large_allocated scenario_pool + 3000001) ∧
    (- 2 ^ 63 <= large_allocated scenario_pool - 3000001 →
     wrap_long (large_allocated scenario_pool - 3000001)
     = large_allocated scenario_pool - 3000001).
Proof.
  assert (Forall (λ size, size < 3000001) (sizes scenario_pool)) as Hall
    by (repeat constructor).
  assert (0 <= 3000001 <= 2 ^ 64 - 64) as Hn by lia.
  assert (4096 ≠ nullptr) as Hp by done.
  split; [exact scenario_pool_inv|]. split; [exact Hall|]. split; [exact Hn|].
  split; [exact Hp|].
  exact (oversized_requests_bypass_the_buckets scenario_pool 3000001 4096 None
           scenario_pool_inv Hall Hn Hp).
Defined.

(** What the runtime is asked for in that case, and the counter. *)
Example oversized_request_on_the_scenario_pool :
  (λ '(p, s, calls), (p, large_allocated s, calls))
    <$> allocate 3000001 (Some 4096) scenario_pool
  = Ret (4096, 3000001, [new_aligned 3000064 64 4096]).
Proof. vm_compute. reflexivity. Qed.

(** C6 as it is worded fails. With the buckets 16, 64, 1<<20, 1<<21 a
    request for (1<<21) + 1 bytes asks the runtime for (1<<21) + 64 bytes,
    not for (1<<21) + 1. *)
Lemma oversized_request_is_rounded_counterexample :
  ∃ s', allocate (Z.shiftl 1 21 + 1) (Some 4096) scenario_pool
        = Ret (4096, s', [new_aligned (Z.shiftl 1 21 + 64) 64 4096]) ∧
        Z.shiftl 1 21 + 64 ≠ Z.shiftl 1 21 + 1.
Proof. eexists. split; [vm_compute; reflexivity|done]. Qed.
End oversized_examples.

(** ** The scenario *)

Section scenario.
Context {B : Type} `{!BlockAllocator B}.
Import pool_allocator pool.
Implicit Types (s : t B).
#[local] Arguments concurrent_stack.push {T} v sys s : simpl never.
#[local] Arguments concurrent_stack.pop {T} s : simpl never.

(** C3. With the buckets 16, 64, 1<<20, 1<<21 and one thread:
    [allocate(10)] is answered by the sub-allocator of the 16-byte bucket;
    [allocate(70)] finds the stack of the (1<<20)-byte bucket empty and
    asks the runtime for 1<<20 bytes aligned to 64, raising the counter to
    70; [deallocate(p, 70)] pushes the block on that stack, the only call
    to the runtime being for the node of the stack; the second
    [allocate(70)] returns the same block without any call to the runtime
    and leaves the counter at 70. *)
Theorem scenario_small_then_recycled_large (p q : Z) (sys1 sys4 : option ptr) :
  p ≠ nullptr → 0 < q < 2 ^ 64 →
  let ba := block_allocator 16 0 (small_alloc_block_size - 64) in
  ∃ s0 s1 s2 s3 s4 : t B,
    pool_allocator scenario_sizes = Ret s0 ∧
    index (sizes s0) 0 = Ret 16 ∧
    index (small_allocators s0) 0 = Ret ba ∧
    allocate 10 sys1 s0 = Ret ((alloc ba).1, s1, []) ∧
    index (small_allocators s1) 0 = Ret (alloc ba).2 ∧
    allocate 70 (Some p) s1 = Ret (p, s2, [new_aligned (Z.shiftl 1 20) 64 p]) ∧
    large_allocated s1 = 0 ∧ large_allocated s2 = 70 ∧
    deallocate p 70 (Some q) s2 = Ret (s3, [new_node q]) ∧
    allocate 70 sys4 s3 = Ret (p, s4, []) ∧
    large_allocated s3 = 70 ∧ large_allocated s4 = 70.
Proof.
  intros Hp Hq ba.
  destruct (push_allocates (T:=Z) concurrent_stack.init [] q p repr_init
              (fresh_for_init q Hq)) as (st & Hpush & Hst).
  destruct (pop_top _ _ _ _ _ Hst) as (st' & Hpop & _).
  destruct (alloc ba) as [small_ptr ba'] eqn:Halloc.
  set (s0 := mk 4 2 64 2097152 0 [concurrent_stack.init; concurrent_stack.init]
               [ba; block_allocator 64 0 (small_alloc_block_size - 64)]
               scenario_sizes : t B).
  exists s0, (set_small_allocator 0 ba' s0).
  exists (set_large_allocated 70 (set_small_allocator 0 ba' s0)).
  exists (set_large_bucket 0 st (set_large_allocated 70 (set_small_allocator 0 ba' s0))).
  exists (set_large_bucket 0 st'
            (set_large_bucket 0 st (set_large_allocated 70 (set_small_allocator 0 ba' s0)))).
  split_and!; try reflexivity.
  - unfold allocate. simpl. fold ba. by rewrite Halloc.
  - unfold allocate, allocate_large, allocate_fresh. simpl.
    rewrite bool_decide_eq_false_2 by done. reflexivity.
  - unfold deallocate, deallocate_large. simpl. rewrite Hpush. reflexivity.
  - unfold allocate, allocate_large. simpl. rewrite Hpop. reflexivity.
Qed.
End scenario.

Section scenario_examples.
Import pool_allocator pool.

Lemma scenario_small_then_recycled_large_witness :
  4096 ≠ nullptr ∧ 0 < 8192 < 2 ^ 64 ∧
  let ba := block_allocator (B:=counting_allocator) 16 0 (small_alloc_block_size - 64) in
  ∃ s0 s1 s2 s3 s4 : t counting_allocator,
    pool_allocator scenario_sizes = Ret s0 ∧
    index (sizes s0) 0 = Ret 16 ∧
    index (small_allocators s0) 0 = Ret ba ∧
    allocate 10 None s0 = Ret ((alloc ba).1, s1, []) ∧
    index (small_allocators s1) 0 = Ret (alloc ba).2 ∧
    allocate 70 (Some 4096) s1 = Ret (4096, s2, [new_aligned (Z.shiftl 1 20) 64 4096]) ∧
    large_allocated s1 = 0 ∧ large_allocated s2 = 70 ∧
    deallocate 4096 70 (Some 8192) s2 = Ret (s3, [new_node 8192]) ∧
    allocate 70 None s3 = Ret (4096, s4, []) ∧
    large_allocated s3 = 70 ∧ large_allocated s4 = 70.
Proof.
  split; [done|]. split; [lia|].
  apply (scenario_small_then_recycled_large (B:=counting_allocator) 4096 8192 None None).
  - done.
  - lia.
Defined.
End scenario_examples.

(** ** Clearing the pool *)

Section clear_lemmas.
Context {B : Type} `{!BlockAllocator B}.
Import pool_allocator pool.
Implicit Types (s : t B) (lbs : list (concurrent_stack.t Z)) (held : list (list Z)).
#[local] Arguments concurrent_stack.push {T} v sys s : simpl never.
#[local] Arguments concurrent_stack.pop {T} s : simpl never.
#[local] Arguments index {A} v i : simpl never.
#[local] Arguments wrap_size_t z : simpl never.
#[local] Arguments wrap_long z : simpl never.

Lemma Forall_holds_held lbs :
  Forall (λ st, ∃ blocks, holds st blocks) lbs → ∃ held, Forall2 holds lbs held.
Proof.
  induction 1 as [|st lbs [blocks Hh] _ [held IH]].
  - exists []. constructor.
  - exists (blocks :: held). by constructor.
Qed.

(** The inner loop of [clear] on the bucket with index [i]: with more
    fuel than blocks it empties the stack, deletes every block and takes
    [sizes[i]] off the counter for each. *)
Lemma clear_bucket_drains fuel i nb ns ms mx c lbs (sa : list B) szs st blocks size :
  0 <= i - ns < 2 ^ 64 →
  lbs !! Z.to_nat (i - ns) = Some st →
  holds st blocks →
  index szs i = Ret size →
  (length blocks < fuel)%nat →
  - 2 ^ 63 <= c < 2 ^ 63 →
  ∃ st',
    holds st' [] ∧
    clear_bucket fuel i (mk nb ns ms mx c lbs sa szs)
    = Ret (mk nb ns ms mx (wrap_long (c - size * Z.of_nat (length blocks)))
             (<[Z.to_nat (i - ns) := st']> lbs) sa szs,
           (λ p, delete_aligned p large_align) <$> blocks).
Proof.
  intros Hi Hst Hh Hsize. revert fuel c lbs st Hst Hh.
  induction blocks as [|p blocks IH]; intros fuel c lbs st Hst Hh Hfuel Hc.
  - destruct fuel as [|fuel]; [simpl in Hfuel; lia|].
    exists st. split; [done|]. cbn [clear_bucket num_small large_buckets].
    rewrite wrap_size_t_small by done.
    rewrite (proj2 (index_Ret lbs (i - ns) st)) by (split; [lia|done]).
    cbn [mbind result_bind]. rewrite (holds_pop_empty _ Hh).
    cbn [mbind result_bind]. unfold set_large_bucket. simpl.
    rewrite list_insert_id by done.
    rewrite Z.mul_0_r, Z.sub_0_r, wrap_long_small by done. done.
  - destruct fuel as [|fuel]; [simpl in Hfuel; lia|].
    destruct (holds_pop_top _ _ _ Hh) as (st1 & Hpop & Hh1).
    pose proof (lookup_lt_Some _ _ _ Hst) as Hlt.
    destruct (IH fuel (wrap_long (c - size)) (<[Z.to_nat (i - ns) := st1]> lbs) st1)
      as (st' & Hempty & Hrec).
    + by apply list_lookup_insert_eq.
    + done.
    + simpl in Hfuel. lia.
    + apply wrap_long_range.
    + exists st'. split; [done|]. cbn [clear_bucket num_small large_buckets].
      rewrite wrap_size_t_small by done.
      rewrite (proj2 (index_Ret lbs (i - ns) st)) by (split; [lia|done]).
      cbn [mbind result_bind]. rewrite Hpop.
      cbn [mbind result_bind]. unfold set_large_bucket, set_large_allocated. simpl.
      rewrite Hsize. cbn [mbind result_bind]. rewrite Hrec.
      cbn [mbind result_bind]. rewrite list_insert_insert_eq, wrap_long_sub.
      do 4 f_equal. lia.
Qed.

Lemma charge_cons size (large_sizes : list Z) blocks held :
  charge (size :: large_sizes) (blocks :: held)
  = size * Z.of_nat (length blocks) + charge large_sizes held.
Proof. done. Qed.

(** The outer loop of [clear] from bucket [i] on, [pre] being the stacks
    it has passed and [post] those to come. *)
Lemma clear_from_drains fuel post held :
  Forall2 holds post held →
  Forall (λ blocks, (length blocks < fuel)%nat) held →
  ∀ pre i nb ns ms mx c (sa : list B) szs,
    i - ns = Z.of_nat (length pre) →
    0 <= i → i + Z.of_nat (length post) <= Z.of_nat (length szs) →
    Z.of_nat (length szs) < 2 ^ 64 → 0 <= ns →
    - 2 ^ 63 <= c < 2 ^ 63 →
    ∃ post',
      Forall (λ st, holds st []) post' ∧ length post' = length post ∧
      clear_from fuel (length post) i (mk nb ns ms mx c (pre ++ post) sa szs)
      = Ret (mk nb ns ms mx (wrap_long (c - charge (drop (Z.to_nat i) szs) held))
               (pre ++ post') sa szs,
             deletes held).
Proof.
  induction 1 as [|st blocks post held Hh _ IH];
    intros Hfuel pre i nb ns ms mx c sa szs Hi Hi0 Hlen Hszs Hns Hc.
  - exists []. split; [constructor|]. split; [done|]. simpl.
    destruct (drop (Z.to_nat i) szs); simpl;
      by rewrite Z.sub_0_r, wrap_long_small by done.
  - apply Forall_cons in Hfuel as [Hfuel1 Hfuel].
    rewrite length_cons in Hlen.
    destruct (index_in_bounds szs i) as (size & Hsize & Hlk); [lia|].
    destruct (clear_bucket_drains fuel i nb ns ms mx c (pre ++ st :: post) sa szs
                st blocks size) as (st' & Hempty & Hbucket); try done.
    { lia. }
    { rewrite Hi, Nat2Z.id. by rewrite list_lookup_middle. }
    destruct (IH Hfuel (pre ++ [st']) (i + 1) nb ns ms mx
                (wrap_long (c - size * Z.of_nat (length blocks))) sa szs)
      as (post' & Hpost' & Hlen' & Hrest).
    { rewrite length_app. simpl. lia. }
    { lia. }
    { lia. }
    { done. }
    { done. }
    { apply wrap_long_range. }
    exists (st' :: post'). split; [by constructor|]. split; [simpl; lia|].
    cbn [clear_from length]. rewrite Hbucket. cbn [mbind result_bind].
    rewrite Hi, Nat2Z.id.
    replace (<[length pre := st']> (pre ++ st :: post)) with ((pre ++ [st']) ++ post).
    2:{ rewrite <-app_assoc. simpl.
        rewrite (insert_app_r_alt pre (st :: post) (length pre)) by lia.
        by rewrite Nat.sub_diag. }
    rewrite Hrest. cbn [mbind result_bind].
    rewrite <-app_assoc. simpl. unfold deletes. simpl.
    rewrite wrap_long_sub. do 4 f_equal.
    rewrite (drop_S szs size (Z.to_nat i)) by done.
    rewrite charge_cons. replace (Z.to_nat (i + 1)) with (S (Z.to_nat i)) by lia.
    lia.
Qed.
End clear_lemmas.

Section clear_theorem.
Context {B : Type} `{!BlockAllocator B}.
Import pool_allocator pool.
Implicit Types (s : t B).

(** C7. [clear()] on a pool that no other thread is using, with fuel for
    more iterations than the fullest stack has blocks: it returns; the
    calls it makes to the runtime are one aligned [operator delete] for
    each block the stacks of the large buckets held, bucket by bucket and
    top first; every one of these stacks is empty afterwards;
    [large_allocated] has gone down by the size of its bucket for each
    block; the sub-allocators of the small buckets are as they were. *)
Theorem clear_drains_the_large_buckets s :
  inv s →
  ∃ held,
    Forall2 holds (large_buckets s) held ∧
    ∀ fuel, Forall (λ blocks, (length blocks < fuel)%nat) held →
      ∃ s',
        clear fuel s = Ret (s', deletes held) ∧
        length (large_buckets s') = length (large_buckets s) ∧
        Forall (λ st, holds st [] ∧
                      concurrent_stack.size st = Ret 0 ∧
                      concurrent_stack.pop st = Ret (None, st))
               (large_buckets s') ∧
        small_allocators s' = small_allocators s ∧
        large_allocated s'
          = wrap_long (large_allocated s
                       - charge (drop (Z.to_nat (num_small s)) (sizes s)) held) ∧
        sizes s' = sizes s ∧
        inv s'.
Proof.
  intros Hinv.
  pose proof Hinv as (Hne & Hlen & Hnb & Hns & Hmx & Hms & Hinc & H8 & Hsa & Hlb & Hc & Hall).
  destruct (Forall_holds_held _ Hall) as [held Hheld].
  exists held. split; [done|]. intros fuel Hfuel.
  pose proof (count_small_bounds (sizes s)) as Hcs.
  destruct s as [nb ns ms mx c lbs sa szs]. simpl in *.
  destruct (clear_from_drains fuel lbs held Hheld Hfuel [] ns nb ns ms mx c sa szs)
    as (post' & Hpost' & Hlen' & Hclear); simpl; try lia.
  change ([] ++ lbs) with lbs in Hclear.
  unfold clear. simpl.
  replace (Z.to_nat (nb - ns)) with (length lbs) by lia.
  rewrite Hclear. eexists. split; [reflexivity|]. simpl.
  split_and!; try done.
  - eapply Forall_impl; [exact Hpost'|]. intros st Hst. split_and!.
    + done.
    + by rewrite (holds_size _ _ Hst).
    + by apply holds_pop_empty.
  - unfold inv. simpl. split_and!; try done; try lia.
    + apply wrap_long_range.
    + apply wrap_long_range.
    + eapply Forall_impl; [exact Hpost'|]. intros st Hst. by exists [].
Qed.
End clear_theorem.

Section clear_examples.
Import pool_allocator pool samples.

Lemma recycled_pool_inv : inv recycled_pool.
Proof.
  assert (∃ s1 s2 s3,
    allocate 70 (Some 4096) scenario_pool = Ret (4096, s1, [new_aligned 1048576 64 4096]) ∧
    pool.fresh_for s1 (Some 8192) = true ∧
    deallocate 4096 70 (Some 8192) s1 = Ret (s2, [new_node 8192]) ∧
    allocate 2000000 (Some 12288) s2 = Ret (12288, s3, [new_aligned 2097152 64 12288]) ∧
    pool.fresh_for s3 (Some 16384) = true ∧
    deallocate 12288 2000000 (Some 16384) s3 = Ret (recycled_pool, [new_node 16384]))
    as (s1 & s2 & s3 & H1 & F1 & H2 & H3 & F3 & H4).
  { eexists _, _, _.
    do 5 (split; [vm_compute; reflexivity|]). vm_compute; reflexivity. }
  pose proof scenario_pool_inv as I0.
  pose proof (allocate_inv _ _ _ _ _ _ I0 H1) as I1.
  pose proof (deallocate_inv _ _ _ _ _ _ I1 F1 H2) as I2.
  pose proof (allocate_inv _ _ _ _ _ _ I2 H3) as I3.
  exact (deallocate_inv _ _ _ _ _ _ I3 F3 H4).
Qed.

Lemma clear_drains_the_large_buckets_witness :
  inv recycled_pool ∧
  ∃ held,
    Forall2 holds (large_buckets recycled_pool) held ∧
    ∀ fuel, Forall (λ blocks, (length blocks < fuel)%nat) held →
      ∃ s',
        clear fuel recycled_pool = Ret (s', deletes held) ∧
        length (large_buckets s') = length (large_buckets recycled_pool) ∧
        Forall (λ st, holds st [] ∧
                      concurrent_stack.size st = Ret 0 ∧
                      concurrent_stack.pop st = Ret (None, st))
               (large_buckets s') ∧
        small_allocators s' = small_allocators recycled_pool ∧
        large_allocated s'
          = wrap_long (large_allocated recycled_pool
                       - charge (drop (Z.to_nat (num_small recycled_pool))
                                   (sizes recycled_pool)) held) ∧
        sizes s' = sizes recycled_pool ∧
        inv s'.
Proof.
  split; [exact recycled_pool_inv|].
  exact (clear_drains_the_large_buckets recycled_pool recycled_pool_inv).
Defined.

Example clear_recycled_pool :
  (λ '(s, calls), (calls, large_allocated s)) <$> clear 2 recycled_pool
  = Ret ([delete_aligned 4096 64; delete_aligned 12288 64], 2000070 - 1048576 - 2097152).
Proof. vm_compute. reflexivity. Qed.
End clear_examples.

(** ** Requests within the buckets *)

Section search_lemmas.
Import pool_allocator pool.

Lemma strictly_increasing_head (a : Z) (l : list Z) :
  strictly_increasing (a :: l) = true → Forall (λ y, a < y) l ∧ strictly_increasing l = true.
Proof.
  revert a. induction l as [|b l IH]; intros a Hs; [by split|].
  change (strictly_increasing (a :: b :: l))
    with ((a <? b) && strictly_increasing (b :: l)) in Hs.
  apply andb_prop in Hs as [Hab Hs]. apply Z.ltb_lt in Hab.
  destruct (IH b Hs) as [Hb _]. split; [|done].
  constructor; [done|]. eapply Forall_impl; [exact Hb|]. simpl. lia.
Qed.

Lemma strictly_increasing_lookup (l : list Z) (i j : nat) (x y : Z) :
  strictly_increasing l = true → (i < j)%nat →
  l !! i = Some x → l !! j = Some y → x < y.
Proof.
  revert i j. induction l as [|a l IH]; intros i j Hs Hij Hi Hj; [done|].
  destruct (strictly_increasing_head a l Hs) as [Ha Hs'].
  destruct j as [|j]; [lia|]. simpl in Hj.
  destruct i as [|i].
  - injection Hi as <-. rewrite Forall_forall in Ha. apply Ha.
    by eapply list_elem_of_lookup_2.
  - simpl in Hi. eapply (IH i j); eauto. lia.
Qed.

Lemma strictly_increasing_lookup_le (l : list Z) (i j : nat) (x y : Z) :
  strictly_increasing l = true → (i <= j)%nat →
  l !! i = Some x → l !! j = Some y → x <= y.
Proof.
  intros Hs Hij Hi Hj. destruct (decide (i = j)) as [->|Hne].
  - rewrite Hi in Hj. injection Hj as ->. lia.
  - pose proof (strictly_increasing_lookup l i j x y Hs ltac:(lia) Hi Hj). lia.
Qed.

(** The linear search stops at the first size that is not below [n], as
    soon as there is one. *)
Lemma search_first (n : Z) (rest : list Z) (bucket : Z) :
  (∃ x, x ∈ rest ∧ n <= x) →
  ∃ (k : nat) (x : Z),
    rest !! k = Some x ∧ n <= x ∧
    (∀ (j : nat) y, (j < k)%nat → rest !! j = Some y → y < n) ∧
    search n rest bucket = Ret (bucket + Z.of_nat k).
Proof.
  revert bucket. induction rest as [|a rest IH]; intros bucket (x & Hx & Hnx).
  - by apply elem_of_nil in Hx.
  - simpl. destruct (Z.gtb_spec n a) as [Hgt|Hle].
    + apply elem_of_cons in Hx as [->|Hx]; [lia|].
      destruct (IH (bucket + 1) ltac:(eauto)) as (k & x' & Hk & Hnx' & Hfirst & Hsearch).
      exists (S k), x'. split_and!; try done.
      * intros [|j] y Hj Hy; simpl in Hy.
        -- injection Hy as <-. lia.
        -- eapply Hfirst; [|done]. lia.
      * rewrite Hsearch. f_equal. lia.
    + exists 0%nat, a. split_and!; try done.
      * intros j y Hj. lia.
      * f_equal. lia.
Qed.

Lemma count_small_below (sizes : list Z) (j : nat) (x : Z) :
  Z.of_nat j < count_small sizes → sizes !! j = Some x → x < large_threshold.
Proof.
  revert j. induction sizes as [|a l IH]; intros j Hj Hx; [done|].
  simpl in Hj. destruct (Z.ltb_spec a large_threshold) as [Ha|Ha]; [|lia].
  destruct j as [|j]; simpl in Hx.
  - by injection Hx as <-.
  - apply (IH j); [lia|done].
Qed.

Lemma count_small_stop (sizes : list Z) (x : Z) :
  sizes !! Z.to_nat (count_small sizes) = Some x → large_threshold <= x.
Proof.
  induction sizes as [|a l IH]; [done|]. simpl.
  pose proof (count_small_bounds l) as Hb.
  destruct (Z.ltb_spec a large_threshold) as [Ha|Ha].
  - replace (Z.to_nat (1 + count_small l)) with (S (Z.to_nat (count_small l))) by lia.
    simpl. apply IH.
  - simpl. by intros [= <-].
Qed.
End search_lemmas.

Section allocate_in_range.
Context {B : Type} `{!BlockAllocator B}.
Import pool_allocator pool.
Implicit Types (s : t B).
#[local] Arguments concurrent_stack.push {T} v sys s : simpl never.
#[local] Arguments concurrent_stack.pop {T} s : simpl never.

Lemma set_large_bucket_same s i st :
  index (large_buckets s) i = Ret st → set_large_bucket i st s = s.
Proof.
  intros [_ Hl]%index_Ret. destruct s. unfold set_large_bucket. simpl in *.
  by rewrite list_insert_id.
Qed.

(** The part of C1 that holds: on an ascending size list, for a request
    that is not above the last size, and leaving aside a request for 0
    bytes to a pool without small buckets. [allocate(n)] settles on the
    smallest size that is not below [n]. If that size is in the small range
    the call is the sub-allocator's [alloc()]. Otherwise the stack of the
    bucket is popped: a block found there is returned; when there is none,
    the runtime is asked for the bucket size rounded up to a multiple of
    64 and the counter goes up by [n], or [bad_alloc] is thrown. *)
Lemma allocate_picks_smallest_fitting_bucket s (n : Z) (sys : option ptr) :
  inv s → strictly_increasing (sizes s) = true →
  n <= max_size s → 0 < n ∨ 0 < num_small s →
  ∃ bucket size,
    index (sizes s) bucket = Ret size ∧ n <= size ∧
    (∀ size', size' ∈ sizes s → n <= size' → size <= size') ∧
    if bool_decide (size < large_threshold) then
      ∃ ba, index (small_allocators s) bucket = Ret ba ∧
            allocate n sys s
            = Ret ((alloc ba).1, set_small_allocator bucket (alloc ba).2 s, [])
    else
      ∃ st blocks,
        index (large_buckets s) (bucket - num_small s) = Ret st ∧ holds st blocks ∧
        match blocks, sys with
        | p :: _, _ =>
            ∃ st', concurrent_stack.pop st = Ret (Some p, st') ∧
                   allocate n sys s
                   = Ret (p, set_large_bucket (bucket - num_small s) st' s, [])
        | [], Some p =>
            if bool_decide (p = nullptr) then allocate n sys s = Throw bad_alloc
            else allocate n sys s
                 = Ret (p, set_large_allocated (wrap_long (large_allocated s + n)) s,
                        [new_aligned (round_up size) large_align p])
        | [], None => allocate n sys s = Throw bad_alloc
        end.
Proof.
  intros Hinv Hsorted Hn Hnz.
  pose proof Hinv as (Hne & Hlen & Hnb & Hns & Hmx & Hms & Hinc & H8 & Hsa & Hlb & Hc & Hall).
  pose proof (count_small_bounds (sizes s)) as Hcs.
  apply index_Ret in Hmx as [_ Hmx].
  unfold allocate. case_bool_decide as Hlarge.
  - (* the large buckets *)
    assert (num_small s < num_buckets s) as Hsome_large.
    { destruct (decide (num_small s < num_buckets s)) as [|Hall_small]; [done|].
      exfalso. assert (num_small s = num_buckets s) as Heq by lia.
      rewrite (proj2 (Z.gtb_gt (num_small s) 0)) in Hms
        by (destruct (sizes s); [done|simpl in *; lia]).
      apply index_Ret in Hms as [_ Hms]. rewrite Heq, Hmx in Hms. 
      injection Hms as Hms. lia. }
    destruct (search_first n (drop (Z.to_nat (num_small s)) (sizes s)) (num_small s))
      as (k & size & Hk & Hnsize & Hfirst & Hsearch).
    { exists (max_size s). split; [|done].
      apply (list_elem_of_lookup_2 _ (Z.to_nat (num_buckets s - 1) - Z.to_nat (num_small s))%nat).
      rewrite lookup_drop. rewrite <-Hmx. f_equal. lia. }
    rewrite lookup_drop in Hk.
    pose proof (lookup_lt_Some _ _ _ Hk) as Hklt.
    exists (num_small s + Z.of_nat k), size.
    assert (index (sizes s) (num_small s + Z.of_nat k) = Ret size) as Hsize.
    { apply index_Ret. split; [lia|]. rewrite <-Hk. f_equal. lia. }
    assert (large_threshold <= size) as Hbig.
    { destruct (lookup_lt_is_Some_2 (sizes s) (Z.to_nat (num_small s))) as [x0 Hx0]; [lia|].
      pose proof Hx0 as Hx0'. rewrite Hns in Hx0'. apply count_small_stop in Hx0'.
      pose proof (strictly_increasing_lookup_le (sizes s) (Z.to_nat (num_small s))
                    (Z.to_nat (num_small s) + k) x0 size Hsorted ltac:(lia) Hx0 Hk).
      lia. }
    split_and!; [done|done| |].
    + intros size' Hin Hle. apply list_elem_of_lookup_1 in Hin as [j Hj].
      destruct (decide (j < Z.to_nat (num_small s))%nat) as [Hsmall|Hnot].
      * exfalso.
        rewrite (proj2 (Z.gtb_gt (num_small s) 0)) in Hms by lia.
        apply index_Ret in Hms as [_ Hms].
        pose proof (strictly_increasing_lookup_le (sizes s) j
                      (Z.to_nat (num_small s - 1)) size' (max_small s) Hsorted
                      ltac:(lia) Hj Hms).
        lia.
      * destruct (decide (j < Z.to_nat (num_small s) + k)%nat) as [Hbefore|Hafter].
        -- exfalso.
           assert (size' < n); [|lia].
           apply (Hfirst (j - Z.to_nat (num_small s))%nat); [lia|].
           rewrite lookup_drop. rewrite <-Hj. f_equal. lia.
        -- eapply (strictly_increasing_lookup_le (sizes s)); [done| |exact Hk|exact Hj].
           lia.
    + rewrite bool_decide_eq_false_2 by lia.
      destruct (index_in_bounds (large_buckets s) (Z.of_nat k)) as (st & Hst & Hstl); [lia|].
      destruct (index_large_bucket_holds _ _ _ Hinv Hst) as [blocks Hh].
      replace (num_small s + Z.of_nat k - num_small s) with (Z.of_nat k) by lia.
      exists st, blocks. split_and!; [done|done|].
      unfold allocate_large. rewrite bool_decide_eq_true_2 by done.
      unfold find_bucket. rewrite bool_decide_eq_true_2 by lia.
      rewrite Hsearch. cbn [mbind result_bind].
      replace (num_small s + Z.of_nat k - num_small s) with (Z.of_nat k) by lia.
      rewrite wrap_size_t_small by lia. rewrite Hst. cbn [mbind result_bind].
      destruct blocks as [|p blocks].
      * rewrite (holds_pop_empty _ Hh). cbn [mbind result_bind].
        rewrite Hsize. cbn [mbind result_bind].
        rewrite (set_large_bucket_same _ _ _ Hst). unfold allocate_fresh.
        destruct sys as [p|]; [|done]. by case_bool_decide.
      * destruct (holds_pop_top _ _ _ Hh) as (st' & Hpop & _).
        exists st'. split; [done|]. rewrite Hpop. done.
  - (* the small buckets *)
    assert (0 < num_small s) as Hsmall.
    { destruct Hnz as [Hnz|]; [|done].
      destruct (Z.gtb_spec (num_small s) 0); [done|].
      injection Hms as Hms. lia. }
    rewrite (proj2 (Z.gtb_gt (num_small s) 0)) in Hms by lia.
    apply index_Ret in Hms as [_ Hms].
    destruct (search_first n (sizes s) 0) as (k & size & Hk & Hnsize & Hfirst & Hsearch).
    { exists (max_small s). split; [|lia]. by eapply list_elem_of_lookup_2. }
    assert (k <= Z.to_nat (num_small s - 1))%nat as Hkle.
    { destruct (decide (k <= Z.to_nat (num_small s - 1))%nat) as [|Hgt]; [done|].
      pose proof (Hfirst (Z.to_nat (num_small s - 1)) (max_small s) ltac:(lia) Hms).
      lia. }
    exists (Z.of_nat k), size.
    assert (index (sizes s) (Z.of_nat k) = Ret size) as Hsize.
    { apply index_Ret. split; [lia|]. by rewrite Nat2Z.id. }
    assert (size < large_threshold) as Hlittle.
    { apply (count_small_below (sizes s) k); [lia|done]. }
    split_and!; [done|done| |].
    + intros size' Hin Hle. apply list_elem_of_lookup_1 in Hin as [j Hj].
      destruct (decide (j < k)%nat) as [Hbefore|Hafter].
      * pose proof (Hfirst j size' Hbefore Hj). lia.
      * eapply (strictly_increasing_lookup_le (sizes s)); [done| |exact Hk|exact Hj].
        lia.
    + rewrite bool_decide_eq_true_2 by done.
      destruct (index_in_bounds (small_allocators s) (Z.of_nat k)) as (ba & Hba & _); [lia|].
      exists ba. split; [done|].
      unfold find_bucket. rewrite bool_decide_eq_true_2 by lia.
      rewrite drop_0, Hsearch. cbn [mbind result_bind].
      rewrite Z.add_0_l, Hba. cbn [mbind result_bind].
      by destruct (alloc ba).
Qed.

(** C1 does not hold for a pool without small buckets and a request for 0
    bytes. The list [{1<<20}] is accepted and gives no small bucket, so
    [max_small] is 0 and [0 > max_small] is false: [allocate(0)] takes the
    small path and calls [alloc()] on [small_allocators[0]], which was
    never constructed. A request for 1 byte is served from the large
    bucket. *)
Theorem allocate_zero_without_small_buckets (sys : option ptr) :
  ∃ s : t B,
    pool_allocator [Z.shiftl 1 20] = Ret s ∧
    num_small s = 0 ∧ max_small s = 0 ∧ small_allocators s = [] ∧
    allocate 0 sys s = Undefined ∧
    ∃ s', allocate 1 (Some 4096) s
          = Ret (4096, s', [new_aligned (Z.shiftl 1 20) large_align 4096]).
Proof.
  eexists. split; [vm_compute; reflexivity|].
  split_and!; try reflexivity.
  eexists. vm_compute. reflexivity.
Qed.
End allocate_in_range.

(** ** What a stack asks of the runtime *)

Section usage_lemmas.
Context {T : Type}.
Import prim_concurrent_stack history usage.
Implicit Types (h : node_store T) (l la lb : list (ptr * T)) (s : concurrent_stack.t T).
Implicit Types (ops : list (op T)) (es : list (event T)).
#[local] Arguments step {T} o s : simpl never.
#[local] Arguments concurrent_stack.push {T} v sys s : simpl never.

Lemma prim_push_dom h (p : prim_concurrent_stack.t) x h' p' :
  prim_concurrent_stack.push h p x = Ret (h', p') → dom h' = dom h.
Proof.
  unfold prim_concurrent_stack.push, push_loop, push_body.
  destruct (h !! x) as [nd|] eqn:Hx; [|done].
  destruct (prim_concurrent_stack.length h (node (head p))); simpl; try done.
  rewrite cas_same. intros [= <- <-].
  apply dom_insert_lookup_L. by rewrite Hx.
Qed.

(** [push] and [pop] add to the memory of the stack the node [push] got
    from the runtime, and nothing else. *)
Lemma push_dom s v sys s' calls :
  concurrent_stack.push v sys s = Ret (s', calls) →
  dom (concurrent_stack.nodes s')
  = dom (concurrent_stack.nodes s) ∪ list_to_set (new_nodes calls).
Proof.
  unfold concurrent_stack.push.
  destruct (prim_concurrent_stack.pop _ _) as [[x b']| | |]; simpl; try done.
  case_bool_decide.
  - destruct sys as [p|]; [|done]. case_bool_decide; [done|]. simpl.
    destruct (prim_concurrent_stack.push _ _ _) as [[h' a']| | |] eqn:Hpush;
      simpl; try done.
    intros [= <- <-]. simpl. apply prim_push_dom in Hpush.
    rewrite Hpush, dom_insert_L. unfold new_nodes. simpl.
    by rewrite union_empty_r_L, union_comm_L.
  - destruct (concurrent_stack.nodes s !! x) as [nd|] eqn:Hx; [|done]. simpl.
    destruct (prim_concurrent_stack.push _ _ _) as [[h' a']| | |] eqn:Hpush;
      simpl; try done.
    intros [= <- <-]. simpl. apply prim_push_dom in Hpush.
    rewrite Hpush, dom_insert_lookup_L by (by rewrite Hx).
    unfold new_nodes. simpl. by rewrite union_empty_r_L.
Qed.

Lemma pop_dom s r s' :
  concurrent_stack.pop s = Ret (r, s') →
  dom (concurrent_stack.nodes s') = dom (concurrent_stack.nodes s).
Proof.
  unfold concurrent_stack.pop.
  destruct (prim_concurrent_stack.pop _ _) as [[x a']| | |]; simpl; try done.
  case_bool_decide; [by intros [= <- <-]|].
  destruct (concurrent_stack.nodes s !! x) as [nd|]; [|done].
  destruct (prim_concurrent_stack.push _ _ _) as [[h' b']| | |] eqn:Hpush;
    simpl; try done.
  intros [= <- <-]. simpl. by apply prim_push_dom in Hpush.
Qed.

Lemma step_pop_dom s s' e :
  step Pop s = Ret (s', e) →
  dom (concurrent_stack.nodes s') = dom (concurrent_stack.nodes s).
Proof.
  unfold step.
  destruct (concurrent_stack.pop s) as [[r s1]| | |] eqn:Hpop; simpl; try done.
  intros [= <- <-]. by apply pop_dom in Hpop.
Qed.

(** A history the runtime plays along with: the only calls are for nodes,
    each at an address of its own; the nodes then in the two primitive
    stacks are the nodes asked for; and their number is the largest number
    of values the stack has held. *)
Lemma run_usage ops s la lb :
  repr s la lb → runtime_ok ops s = true →
  ∃ s' es la' lb' (fresh : list ptr),
    run ops s = Ret (s', es) ∧ repr s' la' lb' ∧
    runtime_calls ops s = new_node <$> fresh ∧
    (la' ++ lb').*1 ≡ₚ fresh ++ (la ++ lb).*1 ∧
    Z.of_nat (List.length (la' ++ lb'))
    = high_water es (Z.of_nat (List.length la)) (Z.of_nat (List.length (la ++ lb))) ∧
    dom (concurrent_stack.nodes s')
    = dom (concurrent_stack.nodes s) ∪ list_to_set fresh.
Proof.
  revert s la lb. induction ops as [|o ops IH]; intros s la lb Hr Hok.
  - exists s, [], la, lb, []. simpl. split_and!; try done.
    by rewrite union_empty_r_L.
  - simpl in Hok. apply andb_prop in Hok as [Hf Hok].
    rewrite run_cons. cbn [runtime_calls].
    destruct o as [v sys|].
    + destruct lb as [|[x w] lb].
      * destruct sys as [p|].
        -- destruct (push_allocates _ _ _ v Hr Hf) as (s1 & Hpush & Hr1).
           assert (step (Push v (Some p)) s = Ret (s1, Pushed v)) as Hstep
             by (unfold step; by rewrite Hpush).
           rewrite Hstep in Hok |- *. rewrite Hpush. simpl.
           destruct (IH _ _ _ Hr1 Hok)
             as (s' & es & la' & lb' & fresh & -> & Hr' & -> & Hown & Hhw & Hdom).
           exists s', (Pushed v :: es), la', lb', (p :: fresh).
           cbn [mbind result_bind]. split_and!; try done.
           ++ rewrite Hown. rewrite !app_nil_r. simpl.
              by rewrite <-Permutation_middle.
           ++ rewrite Hhw. cbn [high_water]. rewrite !app_nil_r. simpl List.length.
              f_equal; lia.
           ++ rewrite Hdom. apply push_dom in Hpush. rewrite Hpush.
              unfold new_nodes. simpl. rewrite union_empty_r_L.
              by rewrite <-union_assoc_L.
        -- pose proof (push_throws _ _ v Hr) as Hpush.
           assert (step (Push v None) s = Ret (s, PushThrew)) as Hstep
             by (unfold step; by rewrite Hpush).
           rewrite Hstep in Hok |- *. rewrite Hpush. simpl.
           destruct (IH _ _ _ Hr Hok)
             as (s' & es & la' & lb' & fresh & -> & Hr' & -> & Hown & Hhw & Hdom).
           exists s', (PushThrew :: es), la', lb', fresh.
           cbn [mbind result_bind]. split_and!; done.
      * destruct (push_recycles _ _ _ _ _ v sys Hr) as (s1 & Hpush & Hr1).
        assert (step (Push v sys) s = Ret (s1, Pushed v)) as Hstep
          by (unfold step; by rewrite Hpush).
        rewrite Hstep in Hok |- *. rewrite Hpush. simpl.
        destruct (IH _ _ _ Hr1 Hok)
          as (s' & es & la' & lb' & fresh & -> & Hr' & -> & Hown & Hhw & Hdom).
        exists s', (Pushed v :: es), la', lb', fresh.
        cbn [mbind result_bind]. split_and!; try done.
        -- rewrite Hown. by rewrite (owned_middle la lb x v w).
        -- rewrite Hhw. cbn [high_water]. rewrite !length_app. simpl List.length.
           f_equal; lia.
        -- rewrite Hdom. apply push_dom in Hpush. rewrite Hpush.
           unfold new_nodes. simpl. by rewrite union_empty_r_L.
    + destruct la as [|[x v] la].
      * pose proof (step_pop_empty _ _ Hr) as Hstep.
        rewrite Hstep in Hok |- *. simpl.
        destruct (IH _ _ _ Hr Hok)
          as (s' & es & la' & lb' & fresh & -> & Hr' & -> & Hown & Hhw & Hdom).
        exists s', (PopEmpty :: es), la', lb', fresh.
        cbn [mbind result_bind]. split_and!; done.
      * destruct (step_pop_top _ _ _ _ _ Hr) as (s1 & Hstep & Hr1).
        rewrite Hstep in Hok |- *. simpl.
        destruct (IH _ _ _ Hr1 Hok)
          as (s' & es & la' & lb' & fresh & -> & Hr' & -> & Hown & Hhw & Hdom).
        exists s', (Popped v :: es), la', lb', fresh.
        cbn [mbind result_bind]. split_and!; try done.
        -- rewrite Hown. by rewrite <-(owned_middle la lb x v v).
        -- rewrite Hhw. cbn [high_water]. rewrite !length_app. simpl List.length.
           f_equal; lia.
        -- rewrite Hdom. apply step_pop_dom in Hstep. by rewrite Hstep.
Qed.

Lemma delete_all_empty h (xs : list Z) :
  (∀ k, k ∈ dom h → k ∈ xs) → foldl (λ h' x, delete x h') h xs = ∅.
Proof.
  revert h. induction xs as [|x xs IH]; intros h Hsub; simpl.
  - apply map_empty. intros k. apply not_elem_of_dom. intros Hk.
    apply Hsub in Hk. by apply elem_of_nil in Hk.
  - apply IH. intros k Hk. rewrite dom_delete_L in Hk.
    apply elem_of_difference in Hk as [Hk Hne].
    apply Hsub in Hk. apply elem_of_cons in Hk as [->|Hk]; [|done].
    by apply not_elem_of_singleton in Hne.
Qed.
End usage_lemmas.

Section usage_theorems.
Context {T : Type}.
Import prim_concurrent_stack history usage.
Implicit Types (ops : list (op T)) (es : list (event T)).

Lemma new_nodes_new (l : list ptr) : new_nodes (new_node <$> l) = l.
Proof. induction l as [|x l IH]; [done|]. simpl. by f_equal. Qed.

Lemma deleted_nodes_delete (l : list ptr) : deleted_nodes (delete_node <$> l) = l.
Proof. induction l as [|x l IH]; [done|]. simpl. by f_equal. Qed.

(** X1. A stack takes from the runtime as many nodes as the largest number
    of values it has held at one time, no more: in any history of pushes and
    pops on a new stack the calls to the runtime are [operator new] for one
    node each, at pairwise different addresses, and there are as many of
    them as the high-water mark of the stack. A push below that mark
    reuses the shell of a popped node. *)
Theorem stack_memory_is_its_high_water_mark ops :
  runtime_ok ops concurrent_stack.init = true →
  ∃ s es fresh,
    run ops concurrent_stack.init = Ret (s, es) ∧
    runtime_calls ops concurrent_stack.init = new_node <$> fresh ∧
    NoDup fresh ∧
    Z.of_nat (List.length fresh) = high_water es 0 0.
Proof.
  intros Hok.
  destruct (run_usage ops _ [] [] repr_init Hok)
    as (s & es & la & lb & fresh & Hrun & Hr & Hcalls & Hown & Hhw & _).
  exists s, es, fresh. split_and!; try done.
  - destruct Hr as (_ & _ & Hnd & _). rewrite Hown in Hnd.
    by rewrite app_nil_r in Hnd.
  - change (high_water es 0 0) with
      (high_water es (Z.of_nat (List.length (@nil (ptr * T))))
         (Z.of_nat (List.length (@nil (ptr * T) ++ [])))).
    rewrite <-Hhw. apply Permutation_length in Hown.
    rewrite length_fmap, app_nil_r in Hown. lia.
Qed.

(** X2. [clear()] after any history of pushes and pops on a new stack, with
    fuel for more iterations than nodes were taken: it calls
    [operator delete] and nothing else, on exactly the nodes the history
    took from the runtime, each once; afterwards [size()] is 0 and the stack
    owns no memory. *)
Theorem clear_gives_back_every_node ops (fuel : nat) :
  runtime_ok ops concurrent_stack.init = true →
  (List.length (runtime_calls ops concurrent_stack.init) < fuel)%nat →
  ∃ s es s' calls,
    run ops concurrent_stack.init = Ret (s, es) ∧
    concurrent_stack.clear fuel s = Ret (s', calls) ∧
    calls = delete_node <$> deleted_nodes calls ∧
    deleted_nodes calls ≡ₚ new_nodes (runtime_calls ops concurrent_stack.init) ∧
    NoDup (deleted_nodes calls) ∧
    concurrent_stack.size s' = Ret 0 ∧
    concurrent_stack.nodes s' = ∅.
Proof.
  intros Hok Hfuel.
  destruct (run_usage ops _ [] [] repr_init Hok)
    as (s & es & la & lb & fresh & Hrun & Hr & Hcalls & Hown & Hhw & Hdom).
  rewrite Hcalls, length_fmap in Hfuel.
  rewrite app_nil_r in Hown. simpl in Hdom.
  pose proof (Permutation_length Hown) as Hlen.
  rewrite length_fmap, length_app in Hlen.
  destruct (clear_reclaims fuel s la lb Hr ltac:(lia) ltac:(lia))
    as (s' & Hclear & Hr' & Hsize & Hnodes).
  assert ((delete_node <$> la.*1) ++ (delete_node <$> lb.*1)
          = delete_node <$> (la ++ lb).*1) as Hcalls'
    by (by rewrite !fmap_app).
  rewrite Hcalls' in Hclear.
  replace (la.*1 ++ lb.*1) with ((la ++ lb).*1) in Hnodes by (by rewrite fmap_app).
  exists s, es, s', (delete_node <$> (la ++ lb).*1).
  rewrite deleted_nodes_delete, Hcalls, new_nodes_new.
  split_and!; try done.
  - by destruct Hr as (_ & _ & Hnd & _).
  - rewrite Hnodes. apply delete_all_empty.
    intros k Hk. rewrite Hown. rewrite Hdom in Hk.
    rewrite dom_empty_L, union_empty_l_L in Hk.
    by apply elem_of_list_to_set in Hk.
Qed.
End usage_theorems.

Section usage_examples.
Import history usage samples.

Lemma stack_memory_is_its_high_water_mark_witness :
  runtime_ok sample_history concurrent_stack.init = true ∧
  ∃ s es fresh,
    run sample_history concurrent_stack.init = Ret (s, es) ∧
    runtime_calls sample_history concurrent_stack.init = new_node <$> fresh ∧
    NoDup fresh ∧
    Z.of_nat (List.length fresh) = high_water es 0 0.
Proof.
  split; [reflexivity|].
  apply (stack_memory_is_its_high_water_mark sample_history). reflexivity.
Defined.

Lemma clear_gives_back_every_node_witness :
  runtime_ok sample_history concurrent_stack.init = true ∧
  (List.length (runtime_calls sample_history concurrent_stack.init) < 4)%nat ∧
  ∃ s es s' calls,
    run sample_history concurrent_stack.init = Ret (s, es) ∧
    concurrent_stack.clear 4 s = Ret (s', calls) ∧
    calls = delete_node <$> deleted_nodes calls ∧
    deleted_nodes calls ≡ₚ new_nodes (runtime_calls sample_history concurrent_stack.init) ∧
    NoDup (deleted_nodes calls) ∧
    concurrent_stack.size s' = Ret 0 ∧
    concurrent_stack.nodes s' = ∅.
Proof.
  assert (List.length (runtime_calls sample_history concurrent_stack.init) < 4)%nat
    as Hfuel by (vm_compute; lia).
  split; [reflexivity|]. split; [exact Hfuel|].
  apply (clear_gives_back_every_node sample_history 4); [reflexivity|exact Hfuel].
Defined.

Example sample_history_usage :
  runtime_calls sample_history concurrent_stack.init
  = [new_node 16; new_node 32; new_node 48].
Proof. vm_compute. reflexivity. Qed.
End usage_examples.

(** ** The search for a bucket *)

Section find_bucket_theorems.
Import pool_allocator pool.

Lemma search_result (n : Z) (rest : list Z) (bucket : Z) :
  match search n rest bucket with
  | Ret i =>
      ∃ (k : nat) (x : Z),
        i = bucket + Z.of_nat k ∧ rest !! k = Some x ∧ n <= x ∧
        ∀ (j : nat) y, (j < k)%nat → rest !! j = Some y → y < n
  | Undefined => Forall (λ y, y < n) rest
  | _ => False
  end.
Proof.
  revert bucket. induction rest as [|a rest IH]; intros bucket; simpl; [done|].
  destruct (Z.gtb_spec n a) as [Hgt|Hle].
  - specialize (IH (bucket + 1)).
    destruct (search n rest (bucket + 1)) as [i| | |]; try done.
    + destruct IH as (k & x & -> & Hk & Hx & Hfirst).
      exists (S k), x. split_and!; [lia|done|done|].
      intros [|j] y Hj Hy; simpl in Hy.
      * injection Hy as <-. lia.
      * eapply Hfirst; [|done]. lia.
    + constructor; [lia|done].
  - exists 0%nat, a. split_and!; [lia|done|done|]. intros j y Hj. lia.
Qed.

(** X3. The loop [while (n > sizes[bucket]) bucket++;] is a first fit: from
    the bucket it starts at it returns the first index whose size is not
    below [n]; and when every size from there on is below [n] it runs off
    the end of the vector, which is undefined. It never throws and never
    loops for ever. *)
Theorem find_bucket_is_first_fit (sizes : list Z) (n bucket : Z) :
  0 <= bucket →
  match find_bucket sizes n bucket with
  | Ret i =>
      bucket <= i < Z.of_nat (length sizes) ∧
      (∃ size, index sizes i = Ret size ∧ n <= size) ∧
      (∀ j size, bucket <= j < i → index sizes j = Ret size → size < n)
  | Undefined => ∀ j size, bucket <= j → index sizes j = Ret size → size < n
  | _ => False
  end.
Proof.
  intros Hb. unfold find_bucket. rewrite bool_decide_eq_true_2 by done.
  pose proof (search_result n (drop (Z.to_nat bucket) sizes) bucket) as Hs.
  destruct (search n (drop (Z.to_nat bucket) sizes) bucket) as [i| | |]; [|done| |done].
  - destruct Hs as (k & x & -> & Hk & Hx & Hfirst). pose proof (lookup_lt_Some _ _ _ Hk) as Hlt. rewrite length_drop in Hlt.
    rewrite lookup_drop in Hk.
    split_and!; [lia|lia| |].
    + exists x. split; [|done]. apply index_Ret. split; [lia|].
      rewrite <-Hk. f_equal. lia.
    + intros j y Hj [_ Hy]%index_Ret.
      apply (Hfirst (Z.to_nat j - Z.to_nat bucket)%nat); [lia|].
      rewrite lookup_drop. rewrite <-Hy. f_equal. lia.
  - intros j y Hj [_ Hy]%index_Ret. rewrite Forall_forall in Hs. apply Hs.
    apply (list_elem_of_lookup_2 _ (Z.to_nat j - Z.to_nat bucket)%nat).
    rewrite lookup_drop. rewrite <-Hy. f_equal. lia.
Qed.

(** X4. Bucket selection is monotonic, on any size list, ascending or not:
    a larger request is never given an earlier bucket. *)
Theorem find_bucket_is_monotonic (sizes : list Z) (n1 n2 bucket i1 i2 : Z) :
  0 <= bucket → n1 <= n2 →
  find_bucket sizes n1 bucket = Ret i1 → find_bucket sizes n2 bucket = Ret i2 →
  i1 <= i2.
Proof.
  intros Hb Hn H1 H2.
  pose proof (search_result n1 (drop (Z.to_nat bucket) sizes) bucket) as Hs1.
  pose proof (search_result n2 (drop (Z.to_nat bucket) sizes) bucket) as Hs2.
  unfold find_bucket in H1, H2. rewrite bool_decide_eq_true_2 in H1, H2 by done.
  rewrite H1 in Hs1. rewrite H2 in Hs2.
  destruct Hs1 as (k1 & x1 & -> & Hk1 & Hx1 & Hfirst1).
  destruct Hs2 as (k2 & x2 & -> & Hk2 & Hx2 & Hfirst2).
  destruct (decide (k1 <= k2)%nat) as [|Hgt]; [lia|].
  pose proof (Hfirst1 k2 x2 ltac:(lia) Hk2). lia.
Qed.
End find_bucket_theorems.

Section find_bucket_examples.
Import pool_allocator pool.

Lemma find_bucket_is_first_fit_witness :
  0 <= 2 ∧
  match find_bucket scenario_sizes 70 2 with
  | Ret i =>
      2 <= i < Z.of_nat (length scenario_sizes) ∧
      (∃ size, index scenario_sizes i = Ret size ∧ 70 <= size) ∧
      (∀ j size, 2 <= j < i → index scenario_sizes j = Ret size → size < 70)
  | Undefined => ∀ j size, 2 <= j → index scenario_sizes j = Ret size → size < 70
  | _ => False
  end.
Proof.
  split; [lia|]. apply (find_bucket_is_first_fit scenario_sizes 70 2). lia.
Defined.

Lemma find_bucket_is_monotonic_witness :
  0 <= 0 ∧ 10 <= 70 ∧
  find_bucket scenario_sizes 10 0 = Ret 0 ∧ find_bucket scenario_sizes 70 0 = Ret 2 ∧
  0 <= 2.
Proof.
  assert (find_bucket scenario_sizes 10 0 = Ret 0) as H1 by reflexivity.
  assert (find_bucket scenario_sizes 70 0 = Ret 2) as H2 by reflexivity.
  split; [lia|]. split; [lia|]. split; [exact H1|]. split; [exact H2|].
  apply (find_bucket_is_monotonic scenario_sizes 10 70 0 0 2); [lia|lia|exact H1|exact H2].
Defined.

Example find_bucket_runs_off_the_end :
  find_bucket scenario_sizes (Z.shiftl 1 21 + 1) 0 = Undefined.
Proof. reflexivity. Qed.
End find_bucket_examples.

(** ** The calls on a pool, bucket by bucket *)

Section chain_unique.
Context {T : Type}.
Import history.

(** A chain of nodes determines the list it holds. *)
Lemma chain_unique (h : node_store T) p l l' : chain h p l → chain h p l' → l = l'.
Proof.
  revert p l'. induction l as [|[x v] l IH]; intros p [|[x' v'] l']; simpl; [done|..].
  - intros -> (-> & Hx & _). done.
  - intros (-> & Hx & _) ->. done.
  - intros (-> & Hx & nd & Hnd & Hv & _ & Hc) (-> & _ & nd' & Hnd' & Hv' & _ & Hc').
    rewrite Hnd in Hnd'. injection Hnd' as <-. subst v v'. f_equal. by eapply IH.
Qed.
End chain_unique.

Section bucket_lemmas.
Context {B : Type} `{!BlockAllocator B}.
Import pool_allocator pool.
Implicit Types (s : t B).
#[local] Arguments concurrent_stack.push {T} v sys s : simpl never.
#[local] Arguments concurrent_stack.pop {T} s : simpl never.

Lemma holds_push_cases st blocks (p : ptr) sys :
  holds st blocks → history.fresh_for st sys = true →
  (∃ st' calls,
     concurrent_stack.push p sys st = Ret (st', calls) ∧ holds st' (p :: blocks) ∧
     (calls = [] ∨ ∃ q, sys = Some q ∧ calls = [new_node q])) ∨
  (concurrent_stack.push p sys st = Throw bad_alloc ∧ sys = None).
Proof.
  intros (la & lb & Hr & Hla) Hfresh. destruct lb as [|[x w] lb].
  - destruct sys as [q|].
    + destruct (push_allocates st la q p Hr Hfresh) as (st' & Hpush & Hr').
      left. exists st', [new_node q]. split_and!; [done| |right; eauto].
      exists ((q, p) :: la), []. split; [done|]. rewrite fmap_cons. simpl. by f_equal.
    + right. split; [|done]. by eapply push_throws.
  - destruct (push_recycles st la lb x w p sys Hr) as (st' & Hpush & Hr').
    left. exists st', []. split_and!; [done| |by left].
    exists ((x, p) :: la), lb. split; [done|]. rewrite fmap_cons. simpl. by f_equal.
Qed.

Lemma holds_unique st blocks blocks' : holds st blocks → holds st blocks' → blocks = blocks'.
Proof.
  intros (la & lb & (Ha & _) & <-) (la' & lb' & (Ha' & _) & <-).
  by rewrite (chain_unique _ _ _ _ Ha Ha').
Qed.

Lemma some_large_bucket s n :
  inv s → n > max_small s → n <= max_size s → num_small s < num_buckets s.
Proof.
  intros (Hne & Hlen & Hnb & Hns & Hmx & Hms & _) Hlarge Hn.
  pose proof (count_small_bounds (sizes s)) as Hcs.
  apply index_Ret in Hmx as [_ Hmx].
  destruct (decide (num_small s < num_buckets s)) as [|Hall_small]; [done|].
  exfalso. assert (num_small s = num_buckets s) as Heq by lia.
  rewrite (proj2 (Z.gtb_gt (num_small s) 0)) in Hms
    by (destruct (sizes s); [done|simpl in *; lia]).
  apply index_Ret in Hms as [_ Hms]. rewrite Heq, Hmx in Hms.
  injection Hms as Hms. lia.
Qed.

Lemma large_bucket_found s n :
  inv s → n > max_small s → n <= max_size s →
  ∃ (k : nat) size st blocks,
    find_bucket (sizes s) n (num_small s) = Ret (num_small s + Z.of_nat k) ∧
    index (sizes s) (num_small s + Z.of_nat k) = Ret size ∧ n <= size ∧
    index (large_buckets s) (Z.of_nat k) = Ret st ∧ holds st blocks.
Proof.
  intros Hinv Hlarge Hn. pose proof (some_large_bucket s n Hinv Hlarge Hn) as Hsome.
  pose proof Hinv as (Hne & Hlen & Hnb & Hns & Hmx & Hms & Hinc & H8 & Hsa & Hlb & Hc & Hall).
  pose proof (count_small_bounds (sizes s)) as Hcs.
  apply index_Ret in Hmx as [_ Hmx].
  destruct (search_first n (drop (Z.to_nat (num_small s)) (sizes s)) (num_small s))
    as (k & size & Hk & Hnsize & Hfirst & Hsearch).
  { exists (max_size s). split; [|done].
    apply (list_elem_of_lookup_2 _ (Z.to_nat (num_buckets s - 1) - Z.to_nat (num_small s))%nat).
    rewrite lookup_drop. rewrite <-Hmx. f_equal. lia. }
  rewrite lookup_drop in Hk. pose proof (lookup_lt_Some _ _ _ Hk) as Hklt.
  destruct (index_in_bounds (large_buckets s) (Z.of_nat k)) as (st & Hst & Hstl); [lia|].
  destruct (index_large_bucket_holds _ _ _ Hinv Hst) as [blocks Hh].
  exists k, size, st, blocks. split_and!; [|  |done|done|done].
  - unfold find_bucket. rewrite bool_decide_eq_true_2 by lia. done.
  - apply index_Ret. split; [lia|]. rewrite <-Hk. f_equal. lia.
Qed.

Lemma small_bucket_found s n :
  inv s → ¬ n > max_small s → 0 < num_small s →
  ∃ (k : nat) size ba,
    find_bucket (sizes s) n 0 = Ret (Z.of_nat k) ∧
    index (sizes s) (Z.of_nat k) = Ret size ∧ n <= size ∧ size < large_threshold ∧
    index (small_allocators s) (Z.of_nat k) = Ret ba.
Proof.
  intros Hinv Hlarge Hsmall.
  pose proof Hinv as (Hne & Hlen & Hnb & Hns & Hmx & Hms & Hinc & H8 & Hsa & Hlb & Hc & Hall).
  pose proof (count_small_bounds (sizes s)) as Hcs.
  rewrite (proj2 (Z.gtb_gt (num_small s) 0)) in Hms by lia.
  apply index_Ret in Hms as [_ Hms].
  destruct (search_first n (sizes s) 0) as (k & size & Hk & Hnsize & Hfirst & Hsearch).
  { exists (max_small s). split; [|lia]. by eapply list_elem_of_lookup_2. }
  assert (k <= Z.to_nat (num_small s - 1))%nat as Hkle.
  { destruct (decide (k <= Z.to_nat (num_small s - 1))%nat) as [|Hgt]; [done|].
    pose proof (Hfirst (Z.to_nat (num_small s - 1)) (max_small s) ltac:(lia) Hms).
    lia. }
  destruct (index_in_bounds (small_allocators s) (Z.of_nat k)) as (ba & Hba & _); [lia|].
  exists k, size, ba. split_and!; [| |done| |done].
  - unfold find_bucket. rewrite bool_decide_eq_true_2 by lia.
    rewrite drop_0, Hsearch. f_equal.
  - apply index_Ret. split; [lia|]. by rewrite Nat2Z.id.
  - apply (count_small_below (sizes s) k); [lia|done].
Qed.

(** Without a small bucket the first size is in the large range, so a
    request for nothing stops the search at bucket 0. *)
Lemma no_small_bucket s n :
  inv s → ¬ n > max_small s → num_small s = 0 →
  n <= 0 ∧ find_bucket (sizes s) n 0 = Ret 0 ∧ small_allocators s = [].
Proof.
  intros (Hne & Hlen & Hnb & Hns & Hmx & Hms & Hinc & H8 & Hsa & Hlb & Hc & Hall) Hlarge H0.
  rewrite H0 in Hms. simpl in Hms. injection Hms as Hms.
  split; [lia|]. split.
  - unfold find_bucket. rewrite bool_decide_eq_true_2 by lia. rewrite drop_0.
    destruct (sizes s) as [|a l]; [done|]. simpl.
    pose proof (count_small_stop (a :: l) a) as Hstop.
    rewrite <-Hns, H0 in Hstop. specialize (Hstop eq_refl).
    assert (0 < large_threshold) by done.
    destruct (Z.gtb_spec n a); [lia|done].
  - destruct (small_allocators s); [done|]. simpl in Hsa. lia.
Qed.

Lemma allocate_large_at s n sys (k : nat) st blocks :
  inv s → n > max_small s → n <= max_size s →
  find_bucket (sizes s) n (num_small s) = Ret (num_small s + Z.of_nat k) →
  index (large_buckets s) (Z.of_nat k) = Ret st → holds st blocks →
  match blocks with
  | p :: rest =>
      ∃ st', holds st' rest ∧
             allocate n sys s = Ret (p, set_large_bucket (Z.of_nat k) st' s, [])
  | [] =>
      allocate n sys s
      = size ← index (sizes s) (num_small s + Z.of_nat k); allocate_fresh size n sys s
  end.
Proof.
  intros Hinv Hlarge Hn Hfind Hst Hh.
  pose proof Hinv as (Hne & Hlen & Hnb & Hns & Hmx & Hms & Hinc & H8 & Hsa & Hlb & Hc & Hall).
  pose proof (count_small_bounds (sizes s)) as Hcs.
  pose proof Hst as [_ Hk%lookup_lt_Some]%index_Ret.
  unfold allocate. rewrite bool_decide_eq_true_2 by done.
  unfold allocate_large. rewrite bool_decide_eq_true_2 by done.
  rewrite Hfind. cbn [mbind result_bind].
  replace (num_small s + Z.of_nat k - num_small s) with (Z.of_nat k) by lia.
  rewrite wrap_size_t_small by lia. rewrite Hst. cbn [mbind result_bind].
  destruct blocks as [|p blocks].
  - rewrite (holds_pop_empty _ Hh). cbn [mbind result_bind].
    by rewrite (set_large_bucket_same _ _ _ Hst).
  - destruct (holds_pop_top _ _ _ Hh) as (st' & Hpop & Hh').
    exists st'. split; [done|]. rewrite Hpop. done.
Qed.

Lemma deallocate_large_at s p n sys (k : nat) st blocks :
  inv s → pool.fresh_for s sys = true → n > max_small s → n <= max_size s →
  find_bucket (sizes s) n (num_small s) = Ret (num_small s + Z.of_nat k) →
  index (large_buckets s) (Z.of_nat k) = Ret st → holds st blocks →
  (∃ st' calls,
     holds st' (p :: blocks) ∧ (calls = [] ∨ ∃ q, sys = Some q ∧ calls = [new_node q]) ∧
     deallocate p n sys s = Ret (set_large_bucket (Z.of_nat k) st' s, calls)) ∨
  (deallocate p n sys s = Throw bad_alloc ∧ sys = None).
Proof.
  intros Hinv Hfresh Hlarge Hn Hfind Hst Hh.
  pose proof Hinv as (Hne & Hlen & Hnb & Hns & Hmx & Hms & Hinc & H8 & Hsa & Hlb & Hc & Hall).
  pose proof (count_small_bounds (sizes s)) as Hcs.
  pose proof Hst as [_ Hk%lookup_lt_Some]%index_Ret.
  unfold deallocate. rewrite bool_decide_eq_true_2 by done.
  unfold deallocate_large. rewrite bool_decide_eq_false_2 by lia.
  rewrite Hfind. cbn [mbind result_bind].
  replace (num_small s + Z.of_nat k - num_small s) with (Z.of_nat k) by lia.
  rewrite wrap_size_t_small by lia. rewrite Hst. cbn [mbind result_bind].
  destruct (holds_push_cases st blocks p sys Hh (fresh_for_bucket _ _ _ _ Hfresh Hst))
    as [(st' & calls & Hpush & Hh' & Hcalls)|[Hpush ->]].
  - left. exists st', calls. split_and!; [done|done|]. by rewrite Hpush.
  - right. by rewrite Hpush.
Qed.

Lemma allocate_fresh_cases size n sys s :
  match sys with
  | Some a =>
      if bool_decide (a = nullptr) then allocate_fresh size n sys s = Throw bad_alloc
      else allocate_fresh size n sys s
           = Ret (a, set_large_allocated (wrap_long (large_allocated s + n)) s,
                  [new_aligned (round_up size) large_align a])
  | None => allocate_fresh size n sys s = Throw bad_alloc
  end.
Proof. unfold allocate_fresh. destruct sys as [a|]; [|done]. by case_bool_decide. Qed.

Lemma above_max_size s n :
  inv s → n > max_small s → ¬ n <= max_size s →
  ∀ sys p, allocate n sys s = allocate_fresh n n sys s ∧
           deallocate p n sys s
           = Ret (set_large_allocated (wrap_long (large_allocated s - n)) s,
                  [delete_aligned p large_align]).
Proof.
  intros Hinv Hlarge Hn sys p. unfold allocate, deallocate.
  rewrite !bool_decide_eq_true_2 by done.
  unfold allocate_large, deallocate_large.
  rewrite bool_decide_eq_false_2 by done. rewrite bool_decide_eq_true_2 by lia. done.
Qed.
End bucket_lemmas.

(** ** What a call on a pool can do *)

Section call_theorems.
Context {B : Type} `{!BlockAllocator B}.
Import pool_allocator pool.
Implicit Types (s : t B).
#[local] Arguments concurrent_stack.push {T} v sys s : simpl never.
#[local] Arguments concurrent_stack.pop {T} s : simpl never.

(** X5. The outcomes of [allocate(n)] on a pool the constructor made and
    calls have used, for any size list it accepts. It never loops. It is
    undefined exactly for [n = 0] on a pool without small buckets. The only
    exception is [bad_alloc], for a request above the small range that the
    runtime refuses. When it returns, the pool is again well formed, and
    the runtime was either not called, or asked once, for a size not below
    [n] (before rounding) and it is the runtime's block that is returned. *)
Theorem allocate_outcomes s (n : Z) (sys : option ptr) :
  inv s → 0 <= n →
  match allocate n sys s with
  | Ret (p, s', calls) =>
      inv s' ∧
      (calls = [] ∨
       sys = Some p ∧ p ≠ nullptr ∧ n > max_small s ∧
       ∃ size, n <= size ∧ calls = [new_aligned (round_up size) large_align p])
  | Throw e => e = bad_alloc ∧ n > max_small s ∧ (sys = None ∨ sys = Some nullptr)
  | Undefined => n = 0 ∧ num_small s = 0
  | OutOfFuel => False
  end ∧
  (n = 0 → num_small s = 0 → allocate n sys s = Undefined).
Proof.
  intros Hinv Hn0.
  assert (∀ size, n <= size → n > max_small s →
            allocate n sys s = allocate_fresh size n sys s →
            match allocate n sys s with
            | Ret (p, s', calls) =>
                inv s' ∧
                (calls = [] ∨
                 sys = Some p ∧ p ≠ nullptr ∧ n > max_small s ∧
                 ∃ size, n <= size ∧ calls = [new_aligned (round_up size) large_align p])
            | Throw e => e = bad_alloc ∧ n > max_small s ∧ (sys = None ∨ sys = Some nullptr)
            | Undefined => n = 0 ∧ num_small s = 0
            | OutOfFuel => False
            end) as Hfresh.
  { intros size Hsize Hlarge Heq. pose proof (allocate_fresh_cases size n sys s) as Hc.
    rewrite <-Heq in Hc. destruct sys as [a|].
    - case_bool_decide as Ha.
      + rewrite Hc. subst a. split_and!; [done|done|by right].
      + pose proof (allocate_inv _ _ _ _ _ _ Hinv Hc) as Hinv'. rewrite Hc.
        split; [done|]. right. split_and!; [done|done|done|]. by exists size.
    - rewrite Hc. split_and!; [done|done|by left]. }
  pose proof Hinv as (Hne & Hlen & Hnb & Hns & Hmx & Hms & Hinc & H8 & Hsa & Hlb & Hc & Hall).
  pose proof (count_small_bounds (sizes s)) as Hcs.
  destruct (decide (n > max_small s)) as [Hlarge|Hsmall].
  - split.
    + destruct (decide (n <= max_size s)) as [Hin|Hout].
      * destruct (large_bucket_found s n Hinv Hlarge Hin)
          as (k & size & st & blocks & Hfind & Hsize & Hnsize & Hst & Hh).
        pose proof (allocate_large_at s n sys k st blocks Hinv Hlarge Hin Hfind Hst Hh) as Hcall.
        destruct blocks as [|p rest].
        -- rewrite Hsize in Hcall. by apply (Hfresh size).
        -- destruct Hcall as (st' & Hh' & Hcall).
           pose proof (allocate_inv _ _ _ _ _ _ Hinv Hcall) as Hinv'. rewrite Hcall.
           split; [done|by left].
      * destruct (above_max_size s n Hinv Hlarge Hout sys 0) as [Hcall _].
        apply (Hfresh n); [lia|done|done].
    + intros -> H0. exfalso. rewrite H0 in Hms. simpl in Hms. injection Hms as Hms. lia.
  - destruct (decide (0 < num_small s)) as [Hsome|Hnone].
    + split; [|lia].
      destruct (small_bucket_found s n Hinv Hsmall Hsome)
        as (k & size & ba & Hfind & Hsize & Hnsize & Hlittle & Hba).
      assert (allocate n sys s
              = Ret ((alloc ba).1, set_small_allocator (Z.of_nat k) (alloc ba).2 s, []))
        as Hcall.
      { unfold allocate. rewrite bool_decide_eq_false_2 by done.
        rewrite Hfind. cbn [mbind result_bind]. rewrite Hba. cbn [mbind result_bind].
        by destruct (alloc ba). }
      pose proof (allocate_inv _ _ _ _ _ _ Hinv Hcall) as Hinv'. rewrite Hcall.
      split; [done|by left].
    + destruct (no_small_bucket s n Hinv Hsmall ltac:(lia)) as (Hle & Hfind & Hnil).
      assert (allocate n sys s = Undefined) as Hcall.
      { unfold allocate. rewrite bool_decide_eq_false_2 by done.
        rewrite Hfind. cbn [mbind result_bind]. by rewrite Hnil. }
      rewrite Hcall. split; [lia|done].
Qed.

(** X6. The outcomes of [deallocate(p, n)], when the address the runtime
    may give for a stack node is not one already in use. It never loops.
    It is undefined exactly for [n = 0] on a pool without small buckets.
    It can throw: giving a block back to a large bucket may need a new
    stack node, and when the runtime refuses it, [bad_alloc] leaves
    [deallocate]. When it returns, the pool is again well formed and the
    runtime was called at most once: for a stack node, or, for a size above
    every bucket, to delete the block. *)
Theorem deallocate_outcomes s (p : ptr) (n : Z) (sys : option ptr) :
  inv s → 0 <= n → pool.fresh_for s sys = true →
  match deallocate p n sys s with
  | Ret (s', calls) =>
      inv s' ∧
      (calls = [] ∨
       (n > max_small s ∧ n <= max_size s ∧ ∃ q, sys = Some q ∧ calls = [new_node q]) ∨
       (n > max_small s ∧ n > max_size s ∧ calls = [delete_aligned p large_align]))
  | Throw e => e = bad_alloc ∧ sys = None ∧ n > max_small s ∧ n <= max_size s
  | Undefined => n = 0 ∧ num_small s = 0
  | OutOfFuel => False
  end ∧
  (n = 0 → num_small s = 0 → deallocate p n sys s = Undefined).
Proof.
  intros Hinv Hn0 Hfresh.
  pose proof Hinv as (Hne & Hlen & Hnb & Hns & Hmx & Hms & Hinc & H8 & Hsa & Hlb & Hc & Hall).
  pose proof (count_small_bounds (sizes s)) as Hcs.
  destruct (decide (n > max_small s)) as [Hlarge|Hsmall].
  - split.
    + destruct (decide (n <= max_size s)) as [Hin|Hout].
      * destruct (large_bucket_found s n Hinv Hlarge Hin)
          as (k & size & st & blocks & Hfind & Hsize & Hnsize & Hst & Hh).
        destruct (deallocate_large_at s p n sys k st blocks Hinv Hfresh Hlarge Hin Hfind Hst Hh)
          as [(st' & calls & Hh' & Hcalls & Hcall)|[Hcall ->]].
        -- pose proof (deallocate_inv _ _ _ _ _ _ Hinv Hfresh Hcall) as Hinv'. rewrite Hcall.
           split; [done|]. destruct Hcalls as [->|Hq]; [by left|]. right. left. done.
        -- rewrite Hcall. done.
      * destruct (above_max_size s n Hinv Hlarge Hout sys p) as [_ Hcall].
        pose proof (deallocate_inv _ _ _ _ _ _ Hinv Hfresh Hcall) as Hinv'. rewrite Hcall.
        split; [done|]. right. right. split_and!; [done|lia|done].
    + intros -> H0. exfalso. rewrite H0 in Hms. simpl in Hms. injection Hms as Hms. lia.
  - destruct (decide (0 < num_small s)) as [Hsome|Hnone].
    + split; [|lia].
      destruct (small_bucket_found s n Hinv Hsmall Hsome)
        as (k & size & ba & Hfind & Hsize & Hnsize & Hlittle & Hba).
      assert (deallocate p n sys s
              = Ret (set_small_allocator (Z.of_nat k) (free p ba) s, [])) as Hcall.
      { unfold deallocate. rewrite bool_decide_eq_false_2 by done.
        rewrite Hfind. cbn [mbind result_bind]. rewrite Hba. done. }
      pose proof (deallocate_inv _ _ _ _ _ _ Hinv Hfresh Hcall) as Hinv'. rewrite Hcall.
      split; [done|by left].
    + destruct (no_small_bucket s n Hinv Hsmall ltac:(lia)) as (Hle & Hfind & Hnil).
      assert (deallocate p n sys s = Undefined) as Hcall.
      { unfold deallocate. rewrite bool_decide_eq_false_2 by done.
        rewrite Hfind. cbn [mbind result_bind]. by rewrite Hnil. }
      rewrite Hcall. split; [lia|done].
Qed.

(** X7. A block given back to a large bucket is the next one handed out
    from it. After [deallocate(p, n)] has returned, [allocate(m)] for any
    [m] that selects the same bucket returns [p], without a call to the
    runtime, whatever the runtime would have answered. The counter
    [large_allocated] and the small allocators are as before the two calls
    and every stack holds the blocks it held. *)
Theorem freed_block_is_handed_out_next s (p : ptr) (n m : Z) (sys sys' : option ptr)
    s1 calls :
  inv s → pool.fresh_for s sys = true →
  n > max_small s → n <= max_size s → m > max_small s → m <= max_size s →
  find_bucket (sizes s) m (num_small s) = find_bucket (sizes s) n (num_small s) →
  deallocate p n sys s = Ret (s1, calls) →
  ∃ s2,
    allocate m sys' s1 = Ret (p, s2, []) ∧ inv s2 ∧
    large_allocated s2 = large_allocated s ∧
    small_allocators s2 = small_allocators s ∧
    ∀ i st blocks,
      index (large_buckets s) i = Ret st → holds st blocks →
      ∃ st2, index (large_buckets s2) i = Ret st2 ∧ holds st2 blocks.
Proof.
  intros Hinv Hfresh Hn Hnmax Hm Hmmax Hsame Hdealloc.
  destruct (large_bucket_found s n Hinv Hn Hnmax)
    as (k & size & st & blocks & Hfind & Hsize & Hnsize & Hst & Hh).
  destruct (deallocate_large_at s p n sys k st blocks Hinv Hfresh Hn Hnmax Hfind Hst Hh)
    as [(st' & calls' & Hh' & Hcalls & Hcall)|[Hcall _]]; [|congruence].
  rewrite Hcall in Hdealloc. injection Hdealloc as <- <-.
  pose proof (inv_set_large_bucket s (Z.of_nat k) st' _ Hinv Hh') as Hinv1.
  pose proof Hst as [_ Hk]%index_Ret. rewrite Nat2Z.id in Hk.
  pose proof (lookup_lt_Some _ _ _ Hk) as Hklt.
  assert (index (large_buckets (set_large_bucket (Z.of_nat k) st' s)) (Z.of_nat k) = Ret st')
    as Hst'.
  { apply index_Ret. split; [lia|]. simpl. rewrite Nat2Z.id.
    by apply list_lookup_insert_eq. }
  destruct (allocate_large_at (set_large_bucket (Z.of_nat k) st' s) m sys' k st' (p :: blocks)
              Hinv1 Hm Hmmax ltac:(simpl; congruence) Hst' Hh')
    as (st2 & Hh2 & Halloc).
  eexists. split; [exact Halloc|].
  split; [exact (allocate_inv _ _ _ _ _ _ Hinv1 Halloc)|].
  split; [done|]. split; [done|].
  intros i st0 blocks0 [Hi Hst0]%index_Ret Hh0. simpl.
  rewrite Nat2Z.id, list_insert_insert_eq.
  destruct (decide (Z.to_nat i = k)) as [<-|Hne].
  - exists st2. split.
    + apply index_Ret. split; [done|]. by apply list_lookup_insert_eq.
    + rewrite Hk in Hst0. injection Hst0 as <-.
      by rewrite (holds_unique _ _ _ Hh0 Hh).
  - exists st0. split; [|done]. apply index_Ret. split; [done|].
    by rewrite list_lookup_insert_ne.
Qed.
End call_theorems.

Section call_examples.
Import pool_allocator pool samples.

Lemma allocate_outcomes_witness :
  inv scenario_pool ∧ 0 <= 70 ∧
  match allocate 70 (Some 4096) scenario_pool with
  | Ret (p, s', calls) =>
      inv s' ∧
      (calls = [] ∨
       Some 4096 = Some p ∧ p ≠ nullptr ∧ 70 > max_small scenario_pool ∧
       ∃ size, 70 <= size ∧ calls = [new_aligned (round_up size) large_align p])
  | Throw e => e = bad_alloc ∧ 70 > max_small scenario_pool ∧
               (Some 4096 = None ∨ Some 4096 = Some nullptr)
  | Undefined => 70 = 0 ∧ num_small scenario_pool = 0
  | OutOfFuel => False
  end ∧
  (70 = 0 → num_small scenario_pool = 0 →
   allocate 70 (Some 4096) scenario_pool = Undefined).
Proof.
  split; [exact scenario_pool_inv|]. split; [lia|].
  apply (allocate_outcomes scenario_pool 70 (Some 4096) scenario_pool_inv). lia.
Defined.

Lemma deallocate_outcomes_witness :
  inv scenario_pool ∧ 0 <= 70 ∧ pool.fresh_for scenario_pool None = true ∧
  match deallocate 4096 70 None scenario_pool with
  | Ret (s', calls) =>
      inv s' ∧
      (calls = [] ∨
       (70 > max_small scenario_pool ∧ 70 <= max_size scenario_pool ∧
        ∃ q, None = Some q ∧ calls = [new_node q]) ∨
       (70 > max_small scenario_pool ∧ 70 > max_size scenario_pool ∧
        calls = [delete_aligned 4096 large_align]))
  | Throw e => e = bad_alloc ∧ @None ptr = None ∧
               70 > max_small scenario_pool ∧ 70 <= max_size scenario_pool
  | Undefined => 70 = 0 ∧ num_small scenario_pool = 0
  | OutOfFuel => False
  end ∧
  (70 = 0 → num_small scenario_pool = 0 →
   deallocate 4096 70 None scenario_pool = Undefined).
Proof.
  split; [exact scenario_pool_inv|]. split; [lia|]. split; [reflexivity|].
  apply (deallocate_outcomes scenario_pool 4096 70 None scenario_pool_inv);
    [lia|reflexivity].
Defined.

(** The first block given back to a bucket needs a stack node: without
    one [deallocate] throws. *)
Example deallocate_throws :
  deallocate 4096 70 None scenario_pool = Throw bad_alloc.
Proof. reflexivity. Qed.

Lemma freed_block_is_handed_out_next_witness :
  inv scenario_pool ∧ pool.fresh_for scenario_pool (Some 8192) = true ∧
  70 > max_small scenario_pool ∧ 70 <= max_size scenario_pool ∧
  1000 > max_small scenario_pool ∧ 1000 <= max_size scenario_pool ∧
  find_bucket (sizes scenario_pool) 1000 (num_small scenario_pool)
  = find_bucket (sizes scenario_pool) 70 (num_small scenario_pool) ∧
  ∃ s1 calls,
    deallocate 4096 70 (Some 8192) scenario_pool = Ret (s1, calls) ∧
    ∃ s2,
      allocate 1000 None s1 = Ret (4096, s2, []) ∧ inv s2 ∧
      large_allocated s2 = large_allocated scenario_pool ∧
      small_allocators s2 = small_allocators scenario_pool ∧
      ∀ i st blocks,
        index (large_buckets scenario_pool) i = Ret st → holds st blocks →
        ∃ st2, index (large_buckets s2) i = Ret st2 ∧ holds st2 blocks.
Proof.
  split; [exact scenario_pool_inv|]. split; [reflexivity|].
  split; [reflexivity|]. split; [by vm_compute|].
  split; [reflexivity|]. split; [by vm_compute|]. split; [reflexivity|].
  destruct (deallocate 4096 70 (Some 8192) scenario_pool) as [[s1 calls]| | |] eqn:Hd;
    [|vm_compute in Hd; discriminate..].
  exists s1, calls. split; [reflexivity|].
  apply (freed_block_is_handed_out_next scenario_pool 4096 70 1000 (Some 8192) None s1 calls
           scenario_pool_inv);
    [reflexivity|reflexivity|by vm_compute|reflexivity|by vm_compute|reflexivity|exact Hd].
Defined.
End call_examples.

(** ** What a call leaves of the pool *)

Section result_lemmas.
Context {B : Type} `{!BlockAllocator B}.
Import pool_allocator pool pool_history.
Implicit Types (s : t B).
#[local] Arguments concurrent_stack.push {T} v sys s : simpl never.
#[local] Arguments concurrent_stack.pop {T} s : simpl never.

Lemma same_buckets_refl s : same_buckets s s.
Proof. by repeat split. Qed.

Lemma same_buckets_trans s1 s2 s3 :
  same_buckets s1 s2 → same_buckets s2 s3 → same_buckets s1 s3.
Proof.
  intros (?&?&?&?&?&?) (?&?&?&?&?&?). repeat split; congruence.
Qed.

Lemma holds_pop_inv st blocks r st' :
  holds st blocks → concurrent_stack.pop st = Ret (r, st') →
  match blocks with
  | [] => r = None ∧ st' = st
  | p :: rest => r = Some p ∧ holds st' rest
  end.
Proof.
  intros Hh Hpop. destruct blocks as [|p rest].
  - rewrite (holds_pop_empty _ Hh) in Hpop. by injection Hpop as <- <-.
  - destruct (holds_pop_top _ _ _ Hh) as (st'' & Hpop' & Hh').
    rewrite Hpop' in Hpop. by injection Hpop as <- <-.
Qed.

Lemma allocate_fresh_result size n sys s p s' calls :
  allocate_fresh size n sys s = Ret (p, s', calls) →
  p ≠ nullptr ∧ sys = Some p ∧
  s' = set_large_allocated (wrap_long (large_allocated s + n)) s ∧
  calls = [new_aligned (round_up size) large_align p].
Proof.
  unfold allocate_fresh. destruct sys as [a|]; [|done].
  case_bool_decide; [done|]. by intros [= <- <- <-].
Qed.

Lemma allocate_result s n sys p s' calls :
  inv s → allocate n sys s = Ret (p, s', calls) →
  same_buckets s s' ∧
  ((large_buckets s' = large_buckets s ∧ small_allocators s' = small_allocators s ∧
    n > max_small s ∧ p ≠ nullptr ∧ sys = Some p ∧
    large_allocated s' = wrap_long (large_allocated s + n) ∧
    ∃ size, n <= size ∧ calls = [new_aligned (round_up size) large_align p]) ∨
   (large_buckets s' = large_buckets s ∧ large_allocated s' = large_allocated s ∧
    ¬ n > max_small s ∧ calls = []) ∨
   (∃ (k : nat) st blocks st',
      calls = [] ∧ large_buckets s !! k = Some st ∧ holds st (p :: blocks) ∧
      holds st' blocks ∧ large_buckets s' = <[k := st']> (large_buckets s) ∧
      large_allocated s' = large_allocated s ∧
      small_allocators s' = small_allocators s)).
Proof.
  intros Hinv Hcall.
  pose proof Hinv as (Hne & Hlen & Hnb & Hns & Hmx & Hms & Hinc & H8 & Hsa & Hlb & Hc & Hall).
  pose proof (count_small_bounds (sizes s)) as Hcs.
  destruct (decide (n > max_small s)) as [Hlarge|Hsmall].
  - destruct (decide (n <= max_size s)) as [Hin|Hout].
    + destruct (large_bucket_found s n Hinv Hlarge Hin)
        as (k & size & st & blocks & Hfind & Hsize & Hnsize & Hst & Hh).
      pose proof (allocate_large_at s n sys k st blocks Hinv Hlarge Hin Hfind Hst Hh) as Heq.
      destruct blocks as [|p' rest].
      * rewrite Hsize in Heq. cbn [mbind result_bind] in Heq. rewrite Heq in Hcall.
        apply allocate_fresh_result in Hcall as (Hp & -> & -> & ->).
        split; [by repeat split|]. left. split_and!; try done. by exists size.
      * destruct Heq as (st' & Hh' & Heq). rewrite Heq in Hcall.
        injection Hcall as <- <- <-. split.
        { repeat split. simpl. by rewrite length_insert. }
        right. right. exists k, st, rest, st'.
        apply index_Ret in Hst as [_ Hst]. rewrite Nat2Z.id in Hst.
        split_and!; try done. simpl. by rewrite Nat2Z.id.
    + destruct (above_max_size s n Hinv Hlarge Hout sys 0) as [Heq _].
      rewrite Heq in Hcall.
      apply allocate_fresh_result in Hcall as (Hp & -> & -> & ->).
      split; [by repeat split|]. left. split_and!; try done. exists n. split; [lia|done].
  - destruct (decide (0 < num_small s)) as [Hsome|Hnone].
    + destruct (small_bucket_found s n Hinv Hsmall Hsome)
        as (k & size & ba & Hfind & Hsize & Hnsize & Hlittle & Hba).
      unfold allocate in Hcall. rewrite bool_decide_eq_false_2 in Hcall by done.
      rewrite Hfind in Hcall. cbn [mbind result_bind] in Hcall.
      rewrite Hba in Hcall. cbn [mbind result_bind] in Hcall.
      destruct (alloc ba) as [p' ba']. injection Hcall as <- <- <-.
      split; [by repeat split|]. right. left. done.
    + destruct (no_small_bucket s n Hinv Hsmall ltac:(lia)) as (Hle & Hfind & Hnil).
      unfold allocate in Hcall. rewrite bool_decide_eq_false_2 in Hcall by done.
      rewrite Hfind in Hcall. cbn [mbind result_bind] in Hcall. by rewrite Hnil in Hcall.
Qed.

Lemma deallocate_result s p n sys s' calls :
  inv s → pool.fresh_for s sys = true → deallocate p n sys s = Ret (s', calls) →
  same_buckets s s' ∧
  ((large_buckets s' = large_buckets s ∧ small_allocators s' = small_allocators s ∧
    n > max_small s ∧ n > max_size s ∧
    large_allocated s' = wrap_long (large_allocated s - n) ∧
    calls = [delete_aligned p large_align]) ∨
   (large_buckets s' = large_buckets s ∧ large_allocated s' = large_allocated s ∧
    ¬ n > max_small s ∧ calls = []) ∨
   (∃ (k : nat) st blocks st',
      (calls = [] ∨ ∃ q, sys = Some q ∧ calls = [new_node q]) ∧
      large_buckets s !! k = Some st ∧ holds st blocks ∧
      holds st' (p :: blocks) ∧ large_buckets s' = <[k := st']> (large_buckets s) ∧
      large_allocated s' = large_allocated s ∧
      small_allocators s' = small_allocators s)).
Proof.
  intros Hinv Hfresh Hcall.
  pose proof Hinv as (Hne & Hlen & Hnb & Hns & Hmx & Hms & Hinc & H8 & Hsa & Hlb & Hc & Hall).
  pose proof (count_small_bounds (sizes s)) as Hcs.
  destruct (decide (n > max_small s)) as [Hlarge|Hsmall].
  - destruct (decide (n <= max_size s)) as [Hin|Hout].
    + destruct (large_bucket_found s n Hinv Hlarge Hin)
        as (k & size & st & blocks & Hfind & Hsize & Hnsize & Hst & Hh).
      destruct (deallocate_large_at s p n sys k st blocks Hinv Hfresh Hlarge Hin Hfind Hst Hh)
        as [(st' & calls' & Hh' & Hcalls & Heq)|[Heq _]]; [|congruence].
      rewrite Heq in Hcall. injection Hcall as <- <-. split.
      { repeat split. simpl. by rewrite length_insert. }
      right. right. exists k, st, blocks, st'.
      apply index_Ret in Hst as [_ Hst]. rewrite Nat2Z.id in Hst.
      split_and!; try done. simpl. by rewrite Nat2Z.id.
    + destruct (above_max_size s n Hinv Hlarge Hout sys p) as [_ Heq].
      rewrite Heq in Hcall. injection Hcall as <- <-.
      split; [by repeat split|]. left. split_and!; try done. lia.
  - destruct (decide (0 < num_small s)) as [Hsome|Hnone].
    + destruct (small_bucket_found s n Hinv Hsmall Hsome)
        as (k & size & ba & Hfind & Hsize & Hnsize & Hlittle & Hba).
      unfold deallocate in Hcall. rewrite bool_decide_eq_false_2 in Hcall by done.
      rewrite Hfind in Hcall. cbn [mbind result_bind] in Hcall.
      rewrite Hba in Hcall. cbn [mbind result_bind] in Hcall.
      injection Hcall as <- <-.
      split; [by repeat split|]. right. left. done.
    + destruct (no_small_bucket s n Hinv Hsmall ltac:(lia)) as (Hle & Hfind & Hnil).
      unfold deallocate in Hcall. rewrite bool_decide_eq_false_2 in Hcall by done.
      rewrite Hfind in Hcall. cbn [mbind result_bind] in Hcall. by rewrite Hnil in Hcall.
Qed.

(** One bucket of [clear], whenever it returns. *)
Lemma clear_bucket_result fuel :
  ∀ i s s' calls st blocks,
    inv s → num_small s <= i < num_buckets s →
    large_buckets s !! Z.to_nat (i - num_small s) = Some st → holds st blocks →
    clear_bucket fuel i s = Ret (s', calls) →
    ∃ st' size,
      holds st' [] ∧ index (sizes s) i = Ret size ∧
      large_buckets s' = <[Z.to_nat (i - num_small s) := st']> (large_buckets s) ∧
      calls = (λ p, delete_aligned p large_align) <$> blocks ∧
      large_allocated s'
      = wrap_long (large_allocated s - size * Z.of_nat (length blocks)) ∧
      small_allocators s' = small_allocators s ∧
      same_buckets s s' ∧ inv s'.
Proof.
  induction fuel as [|fuel IH]; intros i s s' calls st blocks Hinv Hi Hst Hh Hcall; [done|].
  pose proof Hinv as (Hne & Hlen & Hnb & Hns & Hmx & Hms & Hinc & H8 & Hsa & Hlb & Hc & Hall).
  pose proof (count_small_bounds (sizes s)) as Hcs.
  destruct (index_in_bounds (sizes s) i) as (size & Hsize & _); [lia|].
  cbn [clear_bucket] in Hcall.
  rewrite (wrap_size_t_small (i - num_small s)) in Hcall by lia.
  assert (index (large_buckets s) (i - num_small s) = Ret st) as Hidx.
  { apply index_Ret. split; [lia|done]. }
  rewrite Hidx in Hcall. cbn [mbind result_bind] in Hcall.
  destruct (concurrent_stack.pop st) as [[r st1]| | |] eqn:Hpop; try done.
  cbn [mbind result_bind] in Hcall.
  pose proof (holds_pop_inv _ _ _ _ Hh Hpop) as Hr.
  destruct blocks as [|p rest].
  - destruct Hr as [-> ->]. injection Hcall as <- <-.
    exists st, size. split_and!; try done.
    + rewrite Z.mul_0_r, Z.sub_0_r. simpl. by rewrite wrap_long_small.
    + repeat split. simpl. by rewrite length_insert.
    + by eapply inv_set_large_bucket.
  - destruct Hr as [-> Hh1].
    change (sizes (set_large_bucket (i - num_small s) st1 s)) with (sizes s) in Hcall.
    rewrite Hsize in Hcall. cbn [mbind result_bind] in Hcall.
    destruct (clear_bucket fuel i _) as [[s2 calls2]| | |] eqn:Hrec; try done.
    cbn [mbind result_bind] in Hcall. injection Hcall as <- <-.
    assert (inv (set_large_allocated
                   (wrap_long (large_allocated (set_large_bucket (i - num_small s) st1 s) - size))
                   (set_large_bucket (i - num_small s) st1 s))) as Hinv1.
    { apply inv_set_large_allocated; [|apply wrap_long_range].
      by eapply inv_set_large_bucket. }
    assert (<[Z.to_nat (i - num_small s) := st1]> (large_buckets s)
              !! Z.to_nat (i - num_small s) = Some st1) as Hst1.
    { apply list_lookup_insert_eq. by eapply lookup_lt_Some. }
    destruct (IH i _ s2 calls2 st1 rest Hinv1 Hi Hst1 Hh1 Hrec)
      as (st' & size' & Hh' & Hsize' & Hlbs & -> & Hla & Hsm & Hsame & Hinv').
    simpl in Hsize'. rewrite Hsize in Hsize'. injection Hsize' as <-.
    exists st', size. split_and!; try done.
    + rewrite Hlbs. simpl. by rewrite list_insert_insert_eq.
    + rewrite Hla. simpl. rewrite wrap_long_sub. f_equal. lia.
    + destruct Hsame as (?&?&?&?&?&Hl). repeat split; try done.
      rewrite Hl. simpl. by rewrite length_insert.
Qed.

(** The loop of [clear] from bucket [i] on, whenever it returns. *)
Lemma clear_from_result fuel (todo : nat) :
  ∀ i s s' calls,
    inv s → num_small s <= i → i + Z.of_nat todo = num_buckets s →
    clear_from fuel todo i s = Ret (s', calls) →
    ∃ post held,
      large_buckets s' = take (Z.to_nat (i - num_small s)) (large_buckets s) ++ post ∧
      Forall (λ st, holds st []) post ∧
      Forall2 holds (drop (Z.to_nat (i - num_small s)) (large_buckets s)) held ∧
      calls = deletes held ∧
      large_allocated s'
      = wrap_long (large_allocated s - charge (drop (Z.to_nat i) (sizes s)) held) ∧
      small_allocators s' = small_allocators s ∧
      same_buckets s s' ∧ inv s'.
Proof.
  induction todo as [|todo IH]; intros i s s' calls Hinv Hi Htodo Hcall.
  - injection Hcall as <- <-.
    pose proof Hinv as (Hne & Hlen & Hnb & Hns & Hmx & Hms & Hinc & H8 & Hsa & Hlb & Hc & Hall).
    exists [], []. rewrite app_nil_r.
    rewrite take_ge by lia. rewrite drop_ge by lia.
    split_and!; try done; try apply same_buckets_refl.
    destruct (drop (Z.to_nat i) (sizes s)); simpl; rewrite Z.sub_0_r; by rewrite wrap_long_small.
  - pose proof Hinv as (Hne & Hlen & Hnb & Hns & Hmx & Hms & Hinc & H8 & Hsa & Hlb & Hc & Hall).
    pose proof (count_small_bounds (sizes s)) as Hcs.
    cbn [clear_from] in Hcall.
    destruct (clear_bucket fuel i s) as [[s1 calls1]| | |] eqn:Hone; try done.
    cbn [mbind result_bind] in Hcall.
    destruct (clear_from fuel todo (i + 1) s1) as [[s2 calls2]| | |] eqn:Hrest; try done.
    cbn [mbind result_bind] in Hcall. injection Hcall as <- <-.
    destruct (lookup_lt_is_Some_2 (large_buckets s) (Z.to_nat (i - num_small s)))
      as [st Hst]; [lia|].
    assert (∃ blocks, holds st blocks) as [blocks Hh].
    { rewrite Forall_forall in Hall. apply Hall. by eapply list_elem_of_lookup_2. }
    destruct (clear_bucket_result fuel i s s1 calls1 st blocks Hinv ltac:(lia) Hst Hh Hone)
      as (st' & size & Hh' & Hsize & Hlbs & -> & Hla & Hsm & Hsame & Hinv1).
    pose proof Hsame as (Hsz1 & Hnb1 & Hns1 & Hms1 & Hmx1 & Hlen1).
    destruct (IH (i + 1) s1 s2 calls2 Hinv1 ltac:(lia) ltac:(lia) Hrest)
      as (post & held & Hlbs2 & Hpost & Hheld & -> & Hla2 & Hsm2 & Hsame2 & Hinv2).
    rewrite Hns1, Hlbs in Hlbs2, Hheld. rewrite Hsz1, Hla in Hla2.
    replace (Z.to_nat (i + 1 - num_small s)) with (S (Z.to_nat (i - num_small s)))
      in Hlbs2, Hheld by lia.
    exists (st' :: post), (blocks :: held). split_and!.
    + rewrite Hlbs2. rewrite take_insert_lt by lia.
      rewrite (take_S_r _ _ st Hst). rewrite insert_app_r_alt by (rewrite length_take; lia).
      rewrite length_take. replace (_ - _)%nat with 0%nat by lia. simpl.
      by rewrite <-app_assoc.
    + by constructor.
    + rewrite (drop_S _ _ _ Hst). constructor; [done|].
      by rewrite drop_insert_lt in Hheld by lia.
    + unfold deletes. by rewrite bind_cons.
    + rewrite Hla2. apply index_Ret in Hsize as [_ Hsize].
      rewrite (drop_S _ _ _ Hsize). rewrite charge_cons. rewrite wrap_long_sub.
      replace (Z.to_nat (i + 1)) with (S (Z.to_nat i)) by lia. f_equal. lia.
    + congruence.
    + by eapply same_buckets_trans.
    + done.
Qed.

Lemma clear_result fuel s s' calls :
  inv s → clear fuel s = Ret (s', calls) →
  ∃ held,
    Forall2 holds (large_buckets s) held ∧
    Forall (λ st, holds st []) (large_buckets s') ∧
    calls = deletes held ∧
    large_allocated s'
    = wrap_long (large_allocated s
                 - charge (drop (Z.to_nat (num_small s)) (sizes s)) held) ∧
    small_allocators s' = small_allocators s ∧
    same_buckets s s' ∧ inv s'.
Proof.
  intros Hinv Hcall.
  pose proof Hinv as (Hne & Hlen & Hnb & Hns & Hmx & Hms & Hinc & H8 & Hsa & Hlb & Hc & Hall).
  pose proof (count_small_bounds (sizes s)) as Hcs.
  destruct (clear_from_result fuel (Z.to_nat (num_buckets s - num_small s)) (num_small s)
              s s' calls Hinv ltac:(reflexivity) ltac:(lia) Hcall)
    as (post & held & Hlbs & Hpost & Hheld & -> & Hla & Hsm & Hsame & Hinv').
  rewrite Z.sub_diag in Hlbs, Hheld. simpl in Hlbs, Hheld. rewrite drop_0 in Hheld.
  exists held. split_and!; try done. by rewrite Hlbs.
Qed.
End result_lemmas.

(** ** Histories of a pool *)

Section pool_history_lemmas.
Context {B : Type} `{!BlockAllocator B}.
Import pool_allocator pool pool_history.
Implicit Types (s : t B) (G : list ptr).
#[local] Arguments concurrent_stack.push {T} v sys s : simpl never.
#[local] Arguments concurrent_stack.pop {T} s : simpl never.
#[local] Arguments allocate {B _} n sys s : simpl never.
#[local] Arguments deallocate {B _} p n sys s : simpl never.
#[local] Arguments clear {B} fuel s : simpl never.

Lemma held_within_weaken s G G' :
  G ⊆ G' →
  Forall (λ st, ∃ blocks, holds st blocks ∧ blocks ⊆ G) (large_buckets s) →
  Forall (λ st, ∃ blocks, holds st blocks ∧ blocks ⊆ G') (large_buckets s).
Proof.
  intros HG Hall. eapply Forall_impl; [exact Hall|]. intros st (blocks & Hh & Hsub).
  exists blocks. split; [done|]. intros p Hp. apply HG, Hsub, Hp.
Qed.

Lemma deletes_elem_of held c :
  c ∈ deletes held → ∃ blocks p, blocks ∈ held ∧ p ∈ blocks ∧ c = delete_aligned p large_align.
Proof.
  unfold deletes. rewrite list_elem_of_bind. intros (blocks & Hc & Hb).
  apply list_elem_of_fmap in Hc as (p & -> & Hp). eauto.
Qed.

(** One call of a history. *)
Lemma step_safe (o : op) s G s1 (e : event) calls1 :
  inv s →
  Forall (λ st, ∃ blocks, holds st blocks ∧ blocks ⊆ G) (large_buckets s) →
  match o with Deallocate _ _ sys => pool.fresh_for s sys | _ => true end = true →
  step o s = Ret (s1, e, calls1) →
  inv s1 ∧ same_buckets s s1 ∧
  Forall (λ st, ∃ blocks, holds st blocks ∧ blocks ⊆ given_back [o] ++ G) (large_buckets s1) ∧
  ∀ c, c ∈ calls1 →
    (∃ p, c = delete_aligned p large_align ∧ p ∈ given_back [o] ++ G) ∨
    (∃ size p n, c = new_aligned (round_up size) large_align p ∧ p ≠ nullptr ∧
                 n <= size ∧ o = Allocate n (Some p) ∧ e = Allocated p) ∨
    (∃ q, c = new_node q).
Proof.
  intros Hinv Hheld Hfresh Hstep. destruct o as [n sys|p n sys|fuel]; simpl in Hstep.
  - destruct (allocate n sys s) as [[[p s'] calls]|ex| |] eqn:Hcall; try done.
    + injection Hstep as <- <- <-.
      pose proof (allocate_inv _ _ _ _ _ _ Hinv Hcall) as Hinv'.
      destruct (allocate_result _ _ _ _ _ _ Hinv Hcall) as [Hsame Hcases].
      split; [done|]. split; [done|].
      destruct Hcases as [(Hlbs & _ & _ & Hp & -> & _ & size & Hsize & ->)
                         |[(Hlbs & _ & _ & ->)
                          |(k & st & blocks & st' & -> & Hst & Hh & Hh' & Hlbs & _)]].
      * split; [by rewrite Hlbs|]. intros c ->%list_elem_of_singleton.
        right. left. by exists size, p, n.
      * split; [by rewrite Hlbs|]. by intros c ?%elem_of_nil.
      * split; [|by intros c ?%elem_of_nil]. rewrite Hlbs. apply Forall_insert; [done|].
        rewrite Forall_forall in Hheld.
        destruct (Hheld st) as (blocks0 & Hh0 & Hsub); [by eapply list_elem_of_lookup_2|].
        rewrite (holds_unique _ _ _ Hh0 Hh) in Hsub.
        exists blocks. split; [done|]. intros q Hq. apply Hsub. by right.
    + injection Hstep as <- <- <-. split; [done|]. split; [apply same_buckets_refl|].
      split; [done|]. by intros c ?%elem_of_nil.
  - destruct (deallocate p n sys s) as [[s' calls]|ex| |] eqn:Hcall; try done.
    + injection Hstep as <- <- <-.
      pose proof (deallocate_inv _ _ _ _ _ _ Hinv Hfresh Hcall) as Hinv'.
      destruct (deallocate_result _ _ _ _ _ _ Hinv Hfresh Hcall) as [Hsame Hcases].
      split; [done|]. split; [done|].
      assert (G ⊆ given_back [Deallocate p n sys] ++ G) as Hweak.
      { intros q Hq. simpl. by right. }
      destruct Hcases as [(Hlbs & _ & _ & _ & _ & ->)
                         |[(Hlbs & _ & _ & ->)
                          |(k & st & blocks & st' & Hcalls & Hst & Hh & Hh' & Hlbs & _)]].
      * split; [rewrite Hlbs; exact (held_within_weaken _ _ _ Hweak Hheld)|].
        intros c ->%list_elem_of_singleton. left. exists p. split; [done|]. by left.
      * split; [rewrite Hlbs; exact (held_within_weaken _ _ _ Hweak Hheld)|]. by intros c ?%elem_of_nil.
      * split.
        -- rewrite Hlbs. apply Forall_insert; [exact (held_within_weaken _ _ _ Hweak Hheld)|].
           rewrite Forall_forall in Hheld.
           destruct (Hheld st) as (blocks0 & Hh0 & Hsub); [by eapply list_elem_of_lookup_2|].
           rewrite (holds_unique _ _ _ Hh0 Hh) in Hsub.
           exists (p :: blocks). split; [done|]. intros q [->|Hq]%elem_of_cons.
           ++ by left.
           ++ right. by apply Hsub.
        -- destruct Hcalls as [->|(q & _ & ->)]; [by intros c ?%elem_of_nil|].
           intros c ->%list_elem_of_singleton. right. right. by exists q.
    + injection Hstep as <- <- <-. split; [done|]. split; [apply same_buckets_refl|].
      split; [|by intros c ?%elem_of_nil].
      eapply held_within_weaken; [|done]. intros q Hq. simpl. by right.
  - destruct (clear fuel s) as [[s' calls]|ex| |] eqn:Hcall; try done.
    cbn [mbind result_bind] in Hstep. injection Hstep as <- <- <-.
    destruct (clear_result _ _ _ _ Hinv Hcall)
      as (held & Hh2 & Hempty & -> & _ & _ & Hsame & Hinv').
    split; [done|]. split; [done|]. split.
    + eapply Forall_impl; [exact Hempty|]. intros st Hst. exists []. split; [done|].
      by intros q ?%elem_of_nil.
    + intros c Hc. apply deletes_elem_of in Hc as (blocks & p & Hb & Hp & ->). left. exists p. split; [done|].
      apply list_elem_of_lookup_1 in Hb as [i Hi].
      destruct (Forall2_lookup_r _ _ _ _ _ Hh2 Hi) as (st & Hst & Hh).
      rewrite Forall_forall in Hheld.
      destruct (Hheld st) as (blocks0 & Hh0 & Hsub); [by eapply list_elem_of_lookup_2|].
      rewrite (holds_unique _ _ _ Hh0 Hh) in Hsub. simpl. by apply Hsub.
Qed.

Lemma run_cons_inv (o : op) ops s s' es calls :
  run (o :: ops) s = Ret (s', es, calls) →
  ∃ s1 e calls1 es' calls',
    step o s = Ret (s1, e, calls1) ∧ run ops s1 = Ret (s', es', calls') ∧
    es = e :: es' ∧ calls = calls1 ++ calls'.
Proof.
  cbn [run]. destruct (step o s) as [[[s1 e] calls1]| | |]; try done.
  cbn [mbind result_bind]. destruct (run ops s1) as [[[s2 es'] calls']| | |] eqn:Hrun; try done.
  cbn [mbind result_bind]. intros [= <- <- <-]. by exists s1, e, calls1, es', calls'.
Qed.

Lemma given_back_cons (o : op) ops : given_back (o :: ops) = given_back [o] ++ given_back ops.
Proof. unfold given_back. rewrite !bind_cons. simpl. by rewrite app_nil_r. Qed.

Lemma run_safe ops :
  ∀ s G s' es calls,
    inv s →
    Forall (λ st, ∃ blocks, holds st blocks ∧ blocks ⊆ G) (large_buckets s) →
    runtime_ok ops s = true →
    run ops s = Ret (s', es, calls) →
    inv s' ∧ same_buckets s s' ∧ length es = length ops ∧
    Forall (λ st, ∃ blocks, holds st blocks ∧ blocks ⊆ given_back ops ++ G)
      (large_buckets s') ∧
    ∀ c, c ∈ calls →
      (∃ p, c = delete_aligned p large_align ∧ p ∈ given_back ops ++ G) ∨
      (∃ size p n, c = new_aligned (round_up size) large_align p ∧ p ≠ nullptr ∧
                   n <= size ∧ Allocate n (Some p) ∈ ops ∧ Allocated p ∈ es) ∨
      (∃ q, c = new_node q).
Proof.
  induction ops as [|o ops IH]; intros s G s' es calls Hinv Hheld Hok Hrun.
  - injection Hrun as <- <- <-. split; [done|]. split; [apply same_buckets_refl|].
    split; [done|]. split; [done|]. by intros c ?%elem_of_nil.
  - apply run_cons_inv in Hrun as (s1 & e & calls1 & es' & calls' & Hstep & Hrun & -> & ->).
    cbn [runtime_ok] in Hok. apply andb_prop in Hok as [Hfresh Hok]. rewrite Hstep in Hok.
    destruct (step_safe o s G s1 e calls1 Hinv Hheld Hfresh Hstep)
      as (Hinv1 & Hsame1 & Hheld1 & Hcalls1).
    destruct (IH s1 (given_back [o] ++ G) s' es' calls' Hinv1 Hheld1 Hok Hrun)
      as (Hinv' & Hsame' & Hlen & Hheld' & Hcalls').
    assert (given_back ops ++ given_back [o] ++ G ⊆ given_back (o :: ops) ++ G) as Hsub.
    { rewrite (given_back_cons o ops). intros q. rewrite !elem_of_app. tauto. }
    assert (given_back [o] ++ G ⊆ given_back (o :: ops) ++ G) as Hsub1.
    { rewrite (given_back_cons o ops). intros q. rewrite !elem_of_app. tauto. }
    split; [done|]. split; [by eapply same_buckets_trans|].
    split; [simpl; by rewrite Hlen|].
    split; [exact (held_within_weaken _ _ _ Hsub Hheld')|].
    intros c [Hc|Hc]%elem_of_app.
    + destruct (Hcalls1 c Hc) as [(p & -> & Hp)|[(size & p & n & -> & Hp & Hn & -> & ->)|Hq]].
      * left. exists p. split; [done|]. by apply Hsub1.
      * right. left. exists size, p, n. split_and!; try done; by left.
      * by right; right.
    + destruct (Hcalls' c Hc) as [(p & -> & Hp)|[(size & p & n & -> & Hp & Hn & Ho & He)|Hq]].
      * left. exists p. split; [done|]. by apply Hsub.
      * right. left. exists size, p, n. split_and!; try done; by right.
      * by right; right.
Qed.

Lemma bind_Ret_inv {A C} (m : result A) (f : A → result C) (c : C) :
  m ≫= f = Ret c → ∃ a, m = Ret a ∧ f a = Ret c.
Proof. destruct m as [a| | |]; try done. intros Hf. by exists a. Qed.

Lemma constructed_holds_nothing (sizes : list Z) s :
  pool_allocator sizes = Ret s →
  pool_allocator.sizes s = sizes ∧ large_allocated s = 0 ∧
  Forall (λ st, holds st []) (large_buckets s).
Proof.
  unfold pool_allocator. intros Hs.
  apply bind_Ret_inv in Hs as (mx & _ & Hs).
  apply bind_Ret_inv in Hs as (ms & _ & Hs).
  apply bind_Ret_inv in Hs as (sa & _ & Hs).
  injection Hs as <-. simpl. split; [done|]. split; [done|].
  apply Forall_replicate, repr_holds_init.
Qed.
End pool_history_lemmas.

Section pool_history_theorems.
Context {B : Type} `{!BlockAllocator B}.
Import pool_allocator pool pool_history.
Implicit Types (s : t B).

(** X8. Every history of calls on a pool, from its construction on, leaves
    it well formed, with the buckets the constructor gave it: [sizes],
    [num_buckets], [num_small], [max_small] and [max_size] never change,
    nor does the number of stacks. Each call answers with one event. *)
Theorem histories_keep_the_pool_well_formed (sizes : list Z) (ops : list op) s0 s es calls :
  Z.of_nat (length sizes) < 2 ^ 64 →
  pool_allocator sizes = Ret s0 →
  runtime_ok ops s0 = true →
  run ops s0 = Ret (s, es, calls) →
  inv s ∧ same_buckets s0 s ∧ pool_allocator.sizes s = sizes ∧ length es = length ops.
Proof.
  intros Hlen Hs0 Hok Hrun.
  pose proof (pool_allocator_inv sizes s0 Hlen Hs0) as Hinv.
  assert (Forall (λ st, ∃ blocks, holds st blocks ∧ blocks ⊆ []) (large_buckets s0)) as Hheld.
  { eapply Forall_impl; [exact (proj2 (proj2 (constructed_holds_nothing sizes s0 Hs0)))|].
    intros st Hst. by exists []. }
  destruct (run_safe ops s0 [] s es calls Hinv Hheld Hok Hrun)
    as (Hinv' & Hsame & Hlen' & _).
  split; [done|]. split; [done|]. split; [|done].
  destruct Hsame as (-> & _). apply (constructed_holds_nothing sizes s0 Hs0).
Qed.

(** X9. What a pool asks of the runtime, over any history from its
    construction on. Every call is of one of three kinds: an aligned
    [operator delete], with alignment 64, of a block that an earlier or the
    same call passed to [deallocate]; an aligned [operator new], with
    alignment 64, whose block is not null and is returned by the
    [allocate(n)] that made it, for a size not below [n] before rounding;
    or the [operator new] of a stack node. So the pool never deletes a
    block it was not given, never keeps a fresh block to itself, and never
    deletes a stack node. *)
Theorem pool_deletes_only_what_it_was_given (sizes : list Z) (ops : list op) s0 s es calls :
  Z.of_nat (length sizes) < 2 ^ 64 →
  pool_allocator sizes = Ret s0 →
  runtime_ok ops s0 = true →
  run ops s0 = Ret (s, es, calls) →
  ∀ c, c ∈ calls →
    (∃ p, c = delete_aligned p large_align ∧ p ∈ given_back ops) ∨
    (∃ size p n, c = new_aligned (round_up size) large_align p ∧ p ≠ nullptr ∧
                 n <= size ∧ Allocate n (Some p) ∈ ops ∧ Allocated p ∈ es) ∨
    (∃ q, c = new_node q).
Proof.
  intros Hlen Hs0 Hok Hrun.
  pose proof (pool_allocator_inv sizes s0 Hlen Hs0) as Hinv.
  assert (Forall (λ st, ∃ blocks, holds st blocks ∧ blocks ⊆ []) (large_buckets s0)) as Hheld.
  { eapply Forall_impl; [exact (proj2 (proj2 (constructed_holds_nothing sizes s0 Hs0)))|].
    intros st Hst. by exists []. }
  destruct (run_safe ops s0 [] s es calls Hinv Hheld Hok Hrun)
    as (_ & _ & _ & _ & Hcalls).
  intros c Hc. specialize (Hcalls c Hc). by rewrite app_nil_r in Hcalls.
Qed.
End pool_history_theorems.

Section pool_history_examples.
Import pool_allocator pool pool_history samples pool_samples.

Lemma histories_keep_the_pool_well_formed_witness :
  Z.of_nat (length scenario_sizes) < 2 ^ 64 ∧
  pool_allocator scenario_sizes = Ret scenario_pool ∧
  runtime_ok sample_pool_history scenario_pool = true ∧
  ∃ s es calls,
    run sample_pool_history scenario_pool = Ret (s, es, calls) ∧
    inv s ∧ same_buckets scenario_pool s ∧ pool_allocator.sizes s = scenario_sizes ∧
    length es = length sample_pool_history.
Proof.
  assert (Z.of_nat (length scenario_sizes) < 2 ^ 64) as Hlen by (simpl; lia).
  assert (runtime_ok sample_pool_history scenario_pool = true) as Hok
    by (vm_compute; reflexivity).
  split; [exact Hlen|]. split; [exact scenario_pool_constructed|]. split; [exact Hok|].
  destruct (run sample_pool_history scenario_pool) as [[[s es] calls]| | |] eqn:Hrun;
    [|vm_compute in Hrun; discriminate..].
  exists s, es, calls. split; [reflexivity|].
  exact (histories_keep_the_pool_well_formed scenario_sizes sample_pool_history
           scenario_pool s es calls Hlen scenario_pool_constructed Hok Hrun).
Defined.

Lemma pool_deletes_only_what_it_was_given_witness :
  Z.of_nat (length scenario_sizes) < 2 ^ 64 ∧
  pool_allocator scenario_sizes = Ret scenario_pool ∧
  runtime_ok sample_pool_history scenario_pool = true ∧
  ∃ s es calls,
    run sample_pool_history scenario_pool = Ret (s, es, calls) ∧
    ∀ c, c ∈ calls →
      (∃ p, c = delete_aligned p large_align ∧ p ∈ given_back sample_pool_history) ∨
      (∃ size p n, c = new_aligned (round_up size) large_align p ∧ p ≠ nullptr ∧
                   n <= size ∧ Allocate n (Some p) ∈ sample_pool_history ∧
                   Allocated p ∈ es) ∨
      (∃ q, c = new_node q).
Proof.
  assert (Z.of_nat (length scenario_sizes) < 2 ^ 64) as Hlen by (simpl; lia).
  assert (runtime_ok sample_pool_history scenario_pool = true) as Hok
    by (vm_compute; reflexivity).
  split; [exact Hlen|]. split; [exact scenario_pool_constructed|]. split; [exact Hok|].
  destruct (run sample_pool_history scenario_pool) as [[[s es] calls]| | |] eqn:Hrun;
    [|vm_compute in Hrun; discriminate..].
  exists s, es, calls. split; [reflexivity|].
  exact (pool_deletes_only_what_it_was_given scenario_sizes sample_pool_history
           scenario_pool s es calls Hlen scenario_pool_constructed Hok Hrun).
Defined.

(** What the sample history answers and asks of the runtime, and the
    counter it ends with. *)
Example sample_pool_history_runs :
  (λ '(s, es, calls), (es, calls, large_allocated s))
    <$> run sample_pool_history scenario_pool
  = Ret ([Allocated 4096; Deallocated; Allocated 4096; Deallocated;
          Allocated 12288; Deallocated; Allocated 65536; Threw bad_alloc; Cleared],
         [new_aligned 1048576 64 4096; new_node 8192;
          new_aligned 3000000 64 12288; delete_aligned 12288 64;
          delete_aligned 4096 64],
         70 - 1048576).
Proof. vm_compute. reflexivity. Qed.
End pool_history_examples.

(** ** [clear] and the counter *)

Section clear_more_lemmas.
Context {B : Type} `{!BlockAllocator B}.
Import pool_allocator pool pool_history.
Implicit Types (s : t B).
#[local] Arguments concurrent_stack.push {T} v sys s : simpl never.
#[local] Arguments concurrent_stack.pop {T} s : simpl never.

Lemma clear_bucket_empty fuel i s st :
  inv s → num_small s <= i < num_buckets s →
  large_buckets s !! Z.to_nat (i - num_small s) = Some st → holds st [] →
  clear_bucket (S fuel) i s = Ret (s, []).
Proof.
  intros Hinv Hi Hst Hh.
  pose proof Hinv as (Hne & Hlen & Hnb & Hns & Hmx & Hms & Hinc & H8 & Hsa & Hlb & Hc & Hall).
  cbn [clear_bucket]. rewrite (wrap_size_t_small (i - num_small s)) by lia.
  assert (index (large_buckets s) (i - num_small s) = Ret st) as Hidx.
  { apply index_Ret. split; [lia|done]. }
  rewrite Hidx. cbn [mbind result_bind]. rewrite (holds_pop_empty _ Hh).
  cbn [mbind result_bind]. by rewrite (set_large_bucket_same _ _ _ Hidx).
Qed.

Lemma clear_from_empty fuel s :
  inv s → Forall (λ st, holds st []) (large_buckets s) →
  ∀ (todo : nat) i,
    num_small s <= i → i + Z.of_nat todo = num_buckets s →
    clear_from (S fuel) todo i s = Ret (s, []).
Proof.
  intros Hinv Hempty.
  pose proof Hinv as (Hne & Hlen & Hnb & Hns & Hmx & Hms & Hinc & H8 & Hsa & Hlb & Hc & Hall).
  induction todo as [|todo IH]; intros i Hi Htodo; [done|].
  destruct (lookup_lt_is_Some_2 (large_buckets s) (Z.to_nat (i - num_small s)))
    as [st Hst]; [lia|].
  assert (holds st []) as Hh.
  { rewrite Forall_forall in Hempty. apply Hempty. by eapply list_elem_of_lookup_2. }
  cbn [clear_from]. rewrite (clear_bucket_empty fuel i s st Hinv ltac:(lia) Hst Hh).
  cbn [mbind result_bind]. rewrite (IH (i + 1)) by lia. done.
Qed.

Lemma clear_returns s held fuel :
  inv s → Forall2 holds (large_buckets s) held →
  Forall (λ blocks, (length blocks < fuel)%nat) held →
  ∃ s', clear fuel s = Ret (s', deletes held).
Proof.
  intros Hinv Hheld Hfuel.
  pose proof Hinv as (Hne & Hlen & Hnb & Hns & Hmx & Hms & Hinc & H8 & Hsa & Hlb & Hc & Hall).
  pose proof (count_small_bounds (sizes s)) as Hcs.
  destruct s as [nb ns ms mx c lbs sa szs]. simpl in *.
  destruct (clear_from_drains fuel lbs held Hheld Hfuel [] ns nb ns ms mx c sa szs)
    as (post' & Hpost' & Hlen' & Hclear); simpl; try lia.
  change ([] ++ lbs) with lbs in Hclear.
  unfold clear. simpl.
  replace (Z.to_nat (nb - ns)) with (length lbs) by lia.
  rewrite Hclear. by eexists.
Qed.

Lemma Forall2_holds_unique lbs held held' :
  Forall2 holds lbs held → Forall2 holds lbs held' → held = held'.
Proof.
  intros H1. revert held'. induction H1 as [|st blocks lbs held Hh _ IH]; intros held' H2.
  - by apply Forall2_nil_inv_l in H2.
  - apply Forall2_cons_inv_l in H2 as (blocks' & held'' & Hh' & H2 & ->).
    rewrite (holds_unique _ _ _ Hh Hh'). f_equal. by apply IH.
Qed.

Lemma deletes_cons (blocks : list ptr) held :
  deletes (blocks :: held)
  = ((λ p, delete_aligned p large_align) <$> blocks) ++ deletes held.
Proof. done. Qed.

Lemma deletes_nothing (m : nat) : deletes (replicate m []) = [].
Proof.
  induction m as [|m IH]; [done|].
  change (replicate (S m) []) with (@nil ptr :: replicate m []).
  by rewrite deletes_cons, IH.
Qed.

Lemma deletes_single (k m : nat) (p : ptr) :
  (k < m)%nat →
  deletes (<[k := [p]]> (replicate m [])) = [delete_aligned p large_align].
Proof.
  revert k. induction m as [|m IH]; intros k Hk; [lia|].
  destruct k as [|k].
  - change (<[0%nat := [p]]> (replicate (S m) []))
      with ([p] :: replicate m (@nil ptr)).
    by rewrite deletes_cons, deletes_nothing.
  - change (<[S k := [p]]> (replicate (S m) []))
      with (@nil ptr :: <[k := [p]]> (replicate m [])).
    rewrite deletes_cons, IH by lia. done.
Qed.

Lemma charge_nothing (l : list Z) (m : nat) : charge l (replicate m []) = 0.
Proof.
  revert m. induction l as [|a l IH]; intros [|m]; simpl; try done.
  rewrite IH. lia.
Qed.

Lemma charge_single (l : list Z) (k m : nat) (p : ptr) size :
  l !! k = Some size → (k < m)%nat →
  charge l (<[k := [p]]> (replicate m [])) = size.
Proof.
  revert k m. induction l as [|a l IH]; intros k m Hk Hm; [done|].
  destruct m as [|m]; [lia|]. destruct k as [|k]; simpl in *.
  - injection Hk as ->. rewrite charge_nothing. lia.
  - rewrite (IH k m Hk) by lia. lia.
Qed.
End clear_more_lemmas.

Section clear_more_theorems.
Context {B : Type} `{!BlockAllocator B}.
Import pool_allocator pool pool_history.
Implicit Types (s : t B).
#[local] Arguments concurrent_stack.push {T} v sys s : simpl never.
#[local] Arguments concurrent_stack.pop {T} s : simpl never.

(** X10. [clear] is idempotent: once it has returned, another [clear]
    makes no call to the runtime and changes nothing, the counter
    [large_allocated] included. *)
Theorem clear_twice_is_clear_once s (fuel fuel' : nat) s1 calls :
  inv s → clear fuel s = Ret (s1, calls) →
  clear (S fuel') s1 = Ret (s1, []).
Proof.
  intros Hinv Hclear.
  destruct (clear_result _ _ _ _ Hinv Hclear)
    as (held & _ & Hempty & _ & _ & _ & _ & Hinv1).
  pose proof Hinv1 as (Hne & Hlen & Hnb & Hns & Hmx & Hms & Hinc & H8 & Hsa & Hlb & Hc & Hall).
  pose proof (count_small_bounds (sizes s1)) as Hcs.
  unfold clear. apply clear_from_empty; [done|done|lia|lia].
Qed.

(** X11. The counter [large_allocated] goes up by the size asked for and
    down by the size of the bucket. On a pool whose stacks are empty, for
    [n] within the large buckets: [allocate(n)] takes a fresh block [p]
    from the runtime and adds [n]; [deallocate(p, n)] keeps the block and
    leaves the counter; [clear] returns the block to the runtime and takes
    off the size of its bucket. So once the block is back with the runtime
    the counter stands at [n - size] from where it started, which is
    negative whenever [n] is not exactly a bucket size. *)
Theorem counter_goes_up_by_request_and_down_by_bucket s (n : Z) (p q : ptr) (fuel : nat) :
  inv s → Forall (λ st, holds st []) (large_buckets s) →
  n > max_small s → n <= max_size s → p ≠ nullptr →
  pool.fresh_for s (Some q) = true → (2 <= fuel)%nat →
  ∃ bucket size s1 s2 calls s3,
    find_bucket (sizes s) n (num_small s) = Ret bucket ∧
    index (sizes s) bucket = Ret size ∧ n <= size ∧
    allocate n (Some p) s = Ret (p, s1, [new_aligned (round_up size) large_align p]) ∧
    large_allocated s1 = wrap_long (large_allocated s + n) ∧
    deallocate p n (Some q) s1 = Ret (s2, calls) ∧
    large_allocated s2 = large_allocated s1 ∧
    clear fuel s2 = Ret (s3, [delete_aligned p large_align]) ∧
    large_allocated s3 = wrap_long (large_allocated s + n - size).
Proof.
  intros Hinv Hempty Hlarge Hin Hp Hfresh Hfuel.
  pose proof Hinv as (Hne & Hlen & Hnb & Hns & Hmx & Hms & Hinc & H8 & Hsa & Hlb & Hc & Hall).
  pose proof (count_small_bounds (sizes s)) as Hcs.
  destruct (large_bucket_found s n Hinv Hlarge Hin)
    as (k & size & st & blocks & Hfind & Hsize & Hnsize & Hst & Hh).
  pose proof Hst as [_ Hstl]%index_Ret. rewrite Nat2Z.id in Hstl.
  pose proof (lookup_lt_Some _ _ _ Hstl) as Hk.
  assert (holds st []) as Hh0.
  { rewrite Forall_forall in Hempty. apply Hempty. by eapply list_elem_of_lookup_2. }
  pose proof (holds_unique _ _ _ Hh Hh0) as ->. clear Hh.
  (* allocate *)
  pose proof (allocate_large_at s n (Some p) k st [] Hinv Hlarge Hin Hfind Hst Hh0) as Halloc.
  rewrite Hsize in Halloc. cbn [mbind result_bind] in Halloc.
  pose proof (allocate_fresh_cases size n (Some p) s) as Hfr.
  cbv beta iota in Hfr.
  rewrite bool_decide_eq_false_2 in Hfr by done. rewrite Hfr in Halloc. clear Hfr.
  set (s1 := set_large_allocated (wrap_long (large_allocated s + n)) s) in *.
  assert (inv s1) as Hinv1.
  { apply inv_set_large_allocated; [done|apply wrap_long_range]. }
  (* deallocate *)
  destruct (deallocate_large_at s1 p n (Some q) k st [] Hinv1 Hfresh Hlarge Hin Hfind Hst Hh0)
    as [(st' & calls & Hh' & _ & Hdealloc)|[_ [=]]].
  set (s2 := set_large_bucket (Z.of_nat k) st' s1) in *.
  assert (inv s2) as Hinv2 by (by eapply inv_set_large_bucket).
  (* clear *)
  assert (Forall2 holds (large_buckets s2)
            (<[k := [p]]> (replicate (length (large_buckets s)) []))) as Hheld.
  { simpl. rewrite Nat2Z.id. apply Forall2_insert; [|done].
    apply Forall2_replicate_r; [done|]. done. }
  destruct (clear_returns s2 _ fuel Hinv2 Hheld) as [s3 Hclear].
  { apply Forall_insert; [|simpl; lia]. apply Forall_replicate. simpl. lia. }
  rewrite deletes_single in Hclear by done.
  destruct (clear_result _ _ _ _ Hinv2 Hclear)
    as (held' & Hheld' & _ & _ & Hcount & _).
  rewrite <-(Forall2_holds_unique _ _ _ Hheld Hheld') in Hcount.
  exists (num_small s + Z.of_nat k), size, s1, s2, calls, s3.
  split_and!; try done.
  rewrite Hcount. simpl.
  rewrite (charge_single _ k _ p size); [| |done].
  - rewrite wrap_long_sub. done.
  - rewrite lookup_drop. apply index_Ret in Hsize as [_ Hsize]. rewrite <-Hsize.
    f_equal. lia.
Qed.
End clear_more_theorems.

Section clear_more_examples.
Import pool_allocator pool pool_history samples.

Lemma clear_twice_is_clear_once_witness :
  inv recycled_pool ∧
  ∃ s1 calls,
    clear 2 recycled_pool = Ret (s1, calls) ∧ clear 1 s1 = Ret (s1, []).
Proof.
  split; [exact recycled_pool_inv|].
  destruct (clear 2 recycled_pool) as [[s1 calls]| | |] eqn:Hclear;
    [|vm_compute in Hclear; discriminate..].
  exists s1, calls. split; [reflexivity|].
  exact (clear_twice_is_clear_once recycled_pool 2 0 s1 calls recycled_pool_inv Hclear).
Defined.

Lemma counter_goes_up_by_request_and_down_by_bucket_witness :
  inv scenario_pool ∧ Forall (λ st, holds st []) (large_buckets scenario_pool) ∧
  70 > max_small scenario_pool ∧ 70 <= max_size scenario_pool ∧ 4096 ≠ nullptr ∧
  pool.fresh_for scenario_pool (Some 8192) = true ∧ (2 <= 2)%nat ∧
  ∃ bucket size s1 s2 calls s3,
    find_bucket (sizes scenario_pool) 70 (num_small scenario_pool) = Ret bucket ∧
    index (sizes scenario_pool) bucket = Ret size ∧ 70 <= size ∧
    allocate 70 (Some 4096) scenario_pool
    = Ret (4096, s1, [new_aligned (round_up size) large_align 4096]) ∧
    large_allocated s1 = wrap_long (large_allocated scenario_pool + 70) ∧
    deallocate 4096 70 (Some 8192) s1 = Ret (s2, calls) ∧
    large_allocated s2 = large_allocated s1 ∧
    clear 2 s2 = Ret (s3, [delete_aligned 4096 large_align]) ∧
    large_allocated s3 = wrap_long (large_allocated scenario_pool + 70 - size).
Proof.
  assert (Forall (λ st, holds st []) (large_buckets scenario_pool)) as Hempty.
  { apply (constructed_holds_nothing scenario_sizes), scenario_pool_constructed. }
  split; [exact scenario_pool_inv|]. split; [exact Hempty|].
  split; [reflexivity|]. split; [by vm_compute|]. split; [done|].
  split; [reflexivity|]. split; [lia|].
  apply (counter_goes_up_by_request_and_down_by_bucket scenario_pool 70 4096 8192 2
           scenario_pool_inv Hempty);
    [reflexivity|by vm_compute|done|reflexivity|lia].
Defined.
End clear_more_examples.

(** ** The edges of the size range *)

Section size_edges.
Context {B : Type} `{!BlockAllocator B}.
Import pool_allocator pool pool_history.
Implicit Types (s : t B).

Lemma round_up_wraps (n : Z) : 2 ^ 64 - 64 < n < 2 ^ 64 → round_up n = 0.
Proof.
  intros Hn. unfold round_up, large_align.
  pose proof (Z.div_mod n 64 ltac:(lia)) as Hdm.
  pose proof (Z.mod_pos_bound n 64 ltac:(lia)) as Hm.
  rewrite bool_decide_eq_true_2 by lia.
  unfold wrap_size_t.
  replace (n + (64 - n mod 64)) with (2 ^ 64) by lia. done.
Qed.

(** X12. The rounding to a multiple of 64 is done in [size_t] and can
    wrap. A request for more than every configured size that lies within
    63 bytes of 2^64 asks the runtime for 0 bytes, and the block the
    runtime gives for that is returned as the block of [n] bytes. *)
Theorem request_near_size_max_asks_for_nothing s (n p : Z) :
  inv s → Forall (λ size, size < n) (sizes s) → 2 ^ 64 - 64 < n < 2 ^ 64 →
  p ≠ nullptr →
  allocate n (Some p) s
  = Ret (p, set_large_allocated (wrap_long (large_allocated s + n)) s,
         [new_aligned 0 large_align p]).
Proof.
  intros Hinv Hall Hn Hp. destruct (above_all_sizes s n Hinv Hall) as [Hms Hmx].
  destruct (above_max_size s n Hinv Hms ltac:(lia) (Some p) 0) as [-> _].
  pose proof (allocate_fresh_cases n n (Some p) s) as Hfr. cbv beta iota in Hfr.
  rewrite bool_decide_eq_false_2 in Hfr by done. rewrite Hfr.
  by rewrite round_up_wraps.
Qed.

(** X13. What the constructor builds when it returns: one block allocator
    for each size before the first that reaches [large_threshold], in
    order, made with [block_allocator(size, 0, small_alloc_block_size - 64)];
    an empty stack for each size from there on; a counter of 0. The small
    sizes are strictly ascending and lie in [8, 1 << 20); [max_small] is the
    last of them, or 0 when there is none; [max_size] is the last size of
    the list, whether or not it is the largest. *)
Theorem constructor_builds_the_buckets (sizes : list Z) s :
  Z.of_nat (length sizes) < 2 ^ 64 → pool_allocator sizes = Ret s →
  pool_allocator.sizes s = sizes ∧
  num_buckets s = Z.of_nat (length sizes) ∧
  num_small s = Z.of_nat (length (small_sizes sizes)) ∧
  small_allocators s
  = (λ size, block_allocator size 0 (small_alloc_block_size - 64)) <$> small_sizes sizes ∧
  large_buckets s
  = replicate (length sizes - length (small_sizes sizes)) concurrent_stack.init ∧
  large_allocated s = 0 ∧
  last sizes = Some (max_size s) ∧
  max_small s = default 0 (last (small_sizes sizes)) ∧
  strictly_increasing (small_sizes sizes) = true ∧
  Forall (λ size, 8 <= size < large_threshold) (small_sizes sizes) ∧
  (∀ size, sizes !! length (small_sizes sizes) = Some size → large_threshold <= size).
Proof.
  intros Hlen Hs.
  assert (sizes ≠ []) as Hne by (by intros ->).
  pose proof (count_small_bounds sizes) as Hcs.
  pose proof (small_sizes_length sizes) as Hsl.
  destruct (pool_allocator_spec (B:=B) sizes Hne Hlen) as (mx & ms & Hmx & Hms & Hctor).
  destruct (all_at_least_8 (small_sizes sizes) && strictly_increasing (small_sizes sizes))
    eqn:Hok; [|destruct Hctor as [what Hthrow]; congruence].
  apply andb_prop in Hok as [H8 Hinc].
  rewrite Hs in Hctor. injection Hctor as ->. simpl.
  apply index_Ret in Hmx as [_ Hmx].
  split_and!; try done.
  - f_equal. lia.
  - rewrite last_lookup, <-Hmx. f_equal. lia.
  - rewrite last_lookup. unfold small_sizes in *.
    destruct (Z.gtb_spec (count_small sizes) 0) as [Hpos|Hzero].
    + apply index_Ret in Hms as [_ Hms].
      rewrite lookup_take_lt by lia.
      replace (Init.Nat.pred (length (take (Z.to_nat (count_small sizes)) sizes)))
        with (Z.to_nat (count_small sizes - 1)) by lia.
      by rewrite Hms.
    + injection Hms as <-. replace (count_small sizes) with 0 by lia. done.
  - apply Forall_forall. intros size Hin.
    unfold all_at_least_8 in H8. apply Is_true_true, forallb_True in H8.
    rewrite Forall_forall in H8. specialize (H8 size Hin). apply Is_true_true in H8.
    apply Z.leb_le in H8. split; [done|].
    apply list_elem_of_lookup_1 in Hin as [j Hj]. unfold small_sizes in Hj.
    pose proof (lookup_lt_Some _ _ _ Hj) as Hjlt. rewrite length_take in Hjlt.
    rewrite lookup_take_lt in Hj by lia.
    apply (count_small_below sizes j); [lia|done].
  - intros size Hsize. apply (count_small_stop sizes).
    rewrite <-Hsize. f_equal. lia.
Qed.
End size_edges.

Section size_edges_examples.
Import pool_allocator pool pool_history samples.

Lemma request_near_size_max_asks_for_nothing_witness :
  inv scenario_pool ∧ Forall (λ size, size < 2 ^ 64 - 1) (sizes scenario_pool) ∧
  2 ^ 64 - 64 < 2 ^ 64 - 1 < 2 ^ 64 ∧ 4096 ≠ nullptr ∧
  allocate (2 ^ 64 - 1) (Some 4096) scenario_pool
  = Ret (4096,
         set_large_allocated (wrap_long (large_allocated scenario_pool + (2 ^ 64 - 1)))
           scenario_pool,
         [new_aligned 0 large_align 4096]).
Proof.
  assert (Forall (λ size, size < 2 ^ 64 - 1) (sizes scenario_pool)) as Hall.
  { repeat constructor. }
  split; [exact scenario_pool_inv|]. split; [exact Hall|]. split; [lia|]. split; [done|].
  apply (request_near_size_max_asks_for_nothing scenario_pool (2 ^ 64 - 1) 4096
           scenario_pool_inv Hall); [lia|done].
Defined.

Lemma constructor_builds_the_buckets_witness :
  Z.of_nat (length scenario_sizes) < 2 ^ 64 ∧
  pool_allocator scenario_sizes = Ret scenario_pool ∧
  pool_allocator.sizes scenario_pool = scenario_sizes ∧
  num_buckets scenario_pool = Z.of_nat (length scenario_sizes) ∧
  num_small scenario_pool = Z.of_nat (length (small_sizes scenario_sizes)) ∧
  small_allocators scenario_pool
  = (λ size, block_allocator size 0 (small_alloc_block_size - 64))
      <$> small_sizes scenario_sizes ∧
  large_buckets scenario_pool
  = replicate (length scenario_sizes - length (small_sizes scenario_sizes))
      concurrent_stack.init ∧
  large_allocated scenario_pool = 0 ∧
  last scenario_sizes = Some (max_size scenario_pool) ∧
  max_small scenario_pool = default 0 (last (small_sizes scenario_sizes)) ∧
  strictly_increasing (small_sizes scenario_sizes) = true ∧
  Forall (λ size, 8 <= size < large_threshold) (small_sizes scenario_sizes) ∧
  (∀ size, scenario_sizes !! length (small_sizes scenario_sizes) = Some size →
           large_threshold <= size).
Proof.
  assert (Z.of_nat (length scenario_sizes) < 2 ^ 64) as Hlen by (simpl; lia).
  split; [exact Hlen|]. split; [exact scenario_pool_constructed|].
  exact (constructor_builds_the_buckets scenario_sizes scenario_pool Hlen
           scenario_pool_constructed).
Defined.
End size_edges_examples.

(** ** The default allocator *)

Section default_lemmas.
Import pool_allocator pool.

Lemma strictly_increasing_adjacent (l : list Z) :
  (∀ (i : nat) x y, l !! i = Some x → l !! S i = Some y → x < y) →
  strictly_increasing l = true.
Proof.
  induction l as [|a l IH]; intros Hadj; [done|].
  destruct l as [|b l]; [done|].
  change (strictly_increasing (a :: b :: l))
    with ((a <? b) && strictly_increasing (b :: l)).
  apply andb_true_intro. split.
  - apply Z.ltb_lt. by apply (Hadj 0%nat).
  - apply IH. intros i x y Hx Hy. by apply (Hadj (S i)).
Qed.

Lemma strictly_increasing_take (l : list Z) (n : nat) :
  strictly_increasing l = true → strictly_increasing (take n l) = true.
Proof.
  intros Hl. apply strictly_increasing_adjacent. intros i x y Hx Hy.
  pose proof (lookup_lt_Some _ _ _ Hy) as Hlt. rewrite length_take in Hlt.
  rewrite lookup_take_lt in Hx, Hy by lia.
  apply (strictly_increasing_lookup l i (S i)); [done|lia|done|done].
Qed.

Lemma powers_lookup (a k : Z) (i : nat) x :
  ((λ j, Z.shiftl 1 j) <$> seqZ a k) !! i = Some x →
  x = 2 ^ (a + Z.of_nat i) ∧ Z.of_nat i < k.
Proof.
  rewrite list_lookup_fmap. intros Hx.
  destruct (seqZ a k !! i) as [j|] eqn:Hj; [|done].
  apply lookup_seqZ in Hj as [-> Hi]. injection Hx as <-.
  by rewrite Z.shiftl_1_l.
Qed.

Lemma powers_increasing (a k : Z) :
  0 <= a → strictly_increasing ((λ j, Z.shiftl 1 j) <$> seqZ a k) = true.
Proof.
  intros Ha. apply strictly_increasing_adjacent. intros i x y Hx Hy.
  apply powers_lookup in Hx as [-> _]. apply powers_lookup in Hy as [-> _].
  apply Z.pow_lt_mono_r; lia.
Qed.

Lemma powers_count_small (k : nat) :
  ∀ a, 0 <= a →
    count_small ((λ j, Z.shiftl 1 j) <$> seqZ a (Z.of_nat k))
    = Z.max 0 (Z.min (Z.of_nat k) (20 - a)).
Proof.
  induction k as [|k IH]; intros a Ha; [simpl; lia|].
  rewrite seqZ_cons by lia. rewrite fmap_cons.
  replace (Z.pred (Z.of_nat (S k))) with (Z.of_nat k) by lia.
  cbn [count_small]. rewrite IH by lia. rewrite Z.shiftl_1_l.
  change large_threshold with (2 ^ 20).
  destruct (Z.ltb_spec (2 ^ a) (2 ^ 20)) as [Hlt|Hge].
  - apply Z.pow_lt_mono_r_iff in Hlt; lia.
  - destruct (decide (a < 20)) as [Ha20|]; [|lia].
    pose proof (Z.pow_lt_mono_r 2 a 20 ltac:(lia) ltac:(lia) Ha20). lia.
Qed.
End default_lemmas.

Section default_theorems.
Context {B : Type} `{!BlockAllocator B}.
Import pool_allocator pool.
Implicit Types (s : t B).

(** X14. The default allocator. With [log_max_size] from 4 to 63,
    [default_sizes()] is the list of the powers of two from 16 to
    [1 << log_max_size], which the constructor accepts: the pool is well
    formed, its sizes ascend, the sizes below [1 << 20] are the small
    buckets, so there is always at least one, and the last size is the
    largest. A request for more than 8 bytes and within the largest size
    has a smallest fitting size of less than twice the request. *)
Theorem default_allocator_has_power_of_two_buckets (log_max_size : Z) :
  4 <= log_max_size < 64 →
  ∃ s,
    get_default_allocator log_max_size = Ret s ∧ inv s ∧
    sizes s = (λ i, 2 ^ i) <$> seqZ 4 (log_max_size - 3) ∧
    strictly_increasing (sizes s) = true ∧
    num_small s = Z.min (log_max_size - 3) 16 ∧ 0 < num_small s ∧
    max_size s = 2 ^ log_max_size ∧
    ∀ n size,
      8 < n → size ∈ sizes s → n <= size →
      (∀ size', size' ∈ sizes s → n <= size' → size <= size') →
      size < 2 * n.
Proof.
  intros HL. unfold get_default_allocator, default_sizes.
  rewrite bool_decide_eq_true_2 by lia. cbn [mbind result_bind].
  replace (log_max_size - 4 + 1) with (log_max_size - 3) by lia.
  set (l := (λ i, Z.shiftl 1 i) <$> seqZ 4 (log_max_size - 3)).
  assert (l = (λ i, 2 ^ i) <$> seqZ 4 (log_max_size - 3)) as Hl.
  { apply list_fmap_ext. intros _ i _. apply Z.shiftl_1_l. }
  assert (length l = Z.to_nat (log_max_size - 3)) as Hlen.
  { unfold l. by rewrite length_fmap, length_seqZ. }
  assert (strictly_increasing l = true) as Hinc by (apply powers_increasing; lia).
  assert (count_small l = Z.min (log_max_size - 3) 16) as Hcount.
  { unfold l. rewrite <-(Z2Nat.id (log_max_size - 3)) at 1 by lia.
    rewrite powers_count_small by lia. lia. }
  assert (Forall (λ size, 8 <= size) l) as H8.
  { apply Forall_forall. intros x Hx. apply list_elem_of_lookup_1 in Hx as [i Hi].
    apply powers_lookup in Hi as [-> _].
    pose proof (Z.pow_le_mono_r 2 3 (4 + Z.of_nat i) ltac:(lia) ltac:(lia)). lia. }
  assert (l ≠ []) as Hne.
  { intros Hnil. rewrite Hnil in Hlen. simpl in Hlen. lia. }
  destruct (pool_allocator_spec (B:=B) l Hne ltac:(lia)) as (mx & ms & Hmx & Hms & Hctor).
  assert (all_at_least_8 (small_sizes l) && strictly_increasing (small_sizes l) = true)
    as Hok.
  { apply andb_true_intro. split.
    - unfold all_at_least_8. apply Is_true_true, forallb_True.
      unfold small_sizes. apply Forall_take.
      eapply Forall_impl; [exact H8|]. intros x Hx. simpl.
      apply Is_true_true. by apply Z.leb_le.
    - by apply strictly_increasing_take. }
  rewrite Hok in Hctor. eexists. split; [exact Hctor|].
  split; [by apply (pool_allocator_inv l); [lia|]|]. simpl.
  split; [done|]. split; [done|]. split; [done|]. split; [lia|]. split.
  - apply index_Ret in Hmx as [_ Hmx]. apply powers_lookup in Hmx as [-> _].
    f_equal. lia.
  - intros n size Hn Hin Hfit Hleast.
    apply list_elem_of_lookup_1 in Hin as [i Hi].
    pose proof Hi as [-> Hilt]%powers_lookup.
    destruct i as [|i].
    + change (2 ^ (4 + Z.of_nat 0)) with 16. lia.
    + destruct (lookup_lt_is_Some_2 l i) as [y Hy]; [apply lookup_lt_Some in Hi; lia|].
      pose proof Hy as [-> _]%powers_lookup.
      destruct (decide (n <= 2 ^ (4 + Z.of_nat i))) as [Hle|Hgt].
      * specialize (Hleast _ (list_elem_of_lookup_2 _ _ _ Hy) Hle).
        pose proof (Z.pow_lt_mono_r 2 (4 + Z.of_nat i) (4 + Z.of_nat (S i))
                      ltac:(lia) ltac:(lia) ltac:(lia)). lia.
      * replace (4 + Z.of_nat (S i)) with (Z.succ (4 + Z.of_nat i)) by lia.
        rewrite Z.pow_succ_r by lia. lia.
Qed.
End default_theorems.

Section default_examples.
Import pool_allocator pool samples.

Lemma default_allocator_has_power_of_two_buckets_witness :
  4 <= 30 < 64 ∧
  ∃ s : t counting_allocator,
    get_default_allocator 30 = Ret s ∧ inv s ∧
    sizes s = (λ i, 2 ^ i) <$> seqZ 4 (30 - 3) ∧
    strictly_increasing (sizes s) = true ∧
    num_small s = Z.min (30 - 3) 16 ∧ 0 < num_small s ∧
    max_size s = 2 ^ 30 ∧
    ∀ n size,
      8 < n → size ∈ sizes s → n <= size →
      (∀ size', size' ∈ sizes s → n <= size' → size <= size') →
      size < 2 * n.
Proof.
  split; [lia|]. apply (default_allocator_has_power_of_two_buckets 30). lia.
Defined.

(** Without memory to speak of there is no size to configure, and with
    [log_max_size] at 64 the shift is out of range: either way no default
    allocator is made. *)
Example default_allocator_needs_a_size :
  get_default_allocator (B:=counting_allocator) 3 = Undefined ∧
  get_default_allocator (B:=counting_allocator) 64 = Undefined.
Proof. split; reflexivity. Qed.
End default_examples.

(** ** The compare-and-swap on [head] *)

Section head_cas.
Context {T : Type}.
Import prim_concurrent_stack history.
Implicit Types (h : node_store T) (s : prim_concurrent_stack.t).

(** X16. The counter in [head] does its work. A thread that has read
    [head] and is overtaken by other operations, which between them
    exchange [head] at least once and fewer than 2^64 times, fails its
    compare-and-swap and leaves [head] alone, also when [head] points to
    the node it pointed to when the thread read it. *)
Theorem stale_head_is_rejected ops h s h' s' heads (newHead : nodeAndCounter) :
  prim_run ops h s = Ret (h', s', heads) →
  0 <= counter (head s) < 2 ^ 64 →
  (0 < List.length heads)%nat → Z.of_nat (List.length heads) < 2 ^ 64 →
  atomic_compare_and_swap_16 (head s') (head s) newHead = (head s', false).
Proof.
  intros Hrun Hc Hpos Hlt.
  destruct (prim_run_counters _ _ _ _ _ _ Hrun) as [_ Hcount].
  specialize (Hcount Hc).
  unfold atomic_compare_and_swap_16. rewrite bool_decide_eq_false_2; [done|].
  intros Heq. rewrite Heq in Hcount. unfold wrap_size_t in Hcount.
  destruct (decide (counter (head s) + Z.of_nat (List.length heads) < 2 ^ 64)) as [Hin|Hout].
  - rewrite Z.mod_small in Hcount by lia. lia.
  - replace (counter (head s) + Z.of_nat (List.length heads))
      with (counter (head s) + Z.of_nat (List.length heads) - 2 ^ 64 + 1 * 2 ^ 64)
      in Hcount by lia.
    rewrite Z.mod_add in Hcount by lia. rewrite Z.mod_small in Hcount by lia. lia.
Qed.
End head_cas.

Section cas_backends.
Import prim_concurrent_stack.

(** X17. What the stack takes [atomic_compare_and_swap_16] to do on
    [head] is what the function of [atomic.h] does on its 16 bytes, with
    the GNU built-in and with the Windows one alike: the bytes of [head]
    afterwards and the answer are the same. The Windows branch hands the
    desired value over in two halves, which make up the same 16 bytes. *)
Theorem stack_cas_is_the_cas_of_either_backend (c : experimental.build_config)
    (obj expected desired : nodeAndCounter) :
  experimental.selected_backend c ≠ experimental.NO_CAS →
  0 <= node obj < 2 ^ 64 → 0 <= node expected < 2 ^ 64 →
  experimental.call (experimental.atomic_compare_and_swap_16 c 16)
    (bits obj) (bits expected) (bits desired)
  = Some (Ret (let '(now, swapped) := atomic_compare_and_swap_16 obj expected desired in
               (bits now, swapped))).
Proof.
  intros Hb Ho He. rewrite cas16_with_backend by done.
  rewrite <-(head_cas_is_builtin_cas obj expected desired Ho He). done.
Qed.
End cas_backends.

Section head_cas_examples.
Import prim_concurrent_stack history samples.

Lemma stale_head_is_rejected_witness :
  0 <= counter (head prim_concurrent_stack.init) < 2 ^ 64 ∧
  ∃ h' s' heads,
    prim_run [PrimPush 16; PrimPop] one_node prim_concurrent_stack.init
    = Ret (h', s', heads) ∧
    (0 < List.length heads)%nat ∧ Z.of_nat (List.length heads) < 2 ^ 64 ∧
    node (head s') = node (head prim_concurrent_stack.init) ∧
    atomic_compare_and_swap_16 (head s') (head prim_concurrent_stack.init) (mkNC 16 1)
    = (head s', false).
Proof.
  split; [done|].
  destruct (prim_run [PrimPush 16; PrimPop] one_node prim_concurrent_stack.init)
    as [[[h' s'] heads]| | |] eqn:Hrun; [|vm_compute in Hrun; discriminate..].
  assert (heads = [mkNC 16 1; mkNC nullptr 2] ∧ s' = prim_concurrent_stack.mk (mkNC nullptr 2))
    as [Hheads Hs'].
  { pose proof Hrun as Hrun'. vm_compute in Hrun'. injection Hrun' as _ <- <-. done. }
  assert (0 < List.length heads)%nat as Hpos by (rewrite Hheads; simpl; lia).
  assert (Z.of_nat (List.length heads) < 2 ^ 64) as Hlt by (rewrite Hheads; simpl; lia).
  exists h', s', heads. split; [reflexivity|]. split; [exact Hpos|]. split; [exact Hlt|].
  split; [by rewrite Hs'|].
  exact (stale_head_is_rejected [PrimPush 16; PrimPop] one_node prim_concurrent_stack.init
           h' s' heads (mkNC 16 1) Hrun ltac:(done) Hpos Hlt).
Defined.

Lemma stack_cas_is_the_cas_of_either_backend_witness :
  experimental.selected_backend (experimental.mk_config false false true)
    ≠ experimental.NO_CAS ∧
  0 <= node (mkNC 16 1) < 2 ^ 64 ∧ 0 <= node (mkNC 16 1) < 2 ^ 64 ∧
  experimental.call
    (experimental.atomic_compare_and_swap_16 (experimental.mk_config false false true) 16)
    (bits (mkNC 16 1)) (bits (mkNC 16 1)) (bits (mkNC 32 2))
  = Some (Ret (let '(now, swapped) :=
                 atomic_compare_and_swap_16 (mkNC 16 1) (mkNC 16 1) (mkNC 32 2) in
               (bits now, swapped))).
Proof.
  split; [done|]. split; [done|]. split; [done|].
  apply (stack_cas_is_the_cas_of_either_backend (experimental.mk_config false false true));
    done.
Defined.
End head_cas_examples.

(** ** The stack nodes of a pool *)

Section node_lemmas.
Import history usage.
Implicit Types (st : concurrent_stack.t ptr) (nodes : list ptr).
#[local] Arguments concurrent_stack.push {T} v sys s : simpl never.
#[local] Arguments concurrent_stack.pop {T} s : simpl never.

Lemma owns_init :
  repr (T:=ptr) concurrent_stack.init [] [] ∧
  dom (concurrent_stack.nodes (T:=ptr) concurrent_stack.init) = list_to_set (C:=gset Z) [].
Proof. split; [apply repr_init|]. simpl. by rewrite dom_empty_L. Qed.

Lemma owns_pop st nodes r st' :
  (∃ la lb, repr st la lb ∧ (la ++ lb).*1 ≡ₚ nodes ∧
            dom (concurrent_stack.nodes st) = list_to_set (C:=gset Z) nodes) →
  concurrent_stack.pop st = Ret (r, st') →
  ∃ la lb, repr st' la lb ∧ (la ++ lb).*1 ≡ₚ nodes ∧
           dom (concurrent_stack.nodes st') = list_to_set (C:=gset Z) nodes.
Proof.
  intros (la & lb & Hr & Hown & Hdom) Hpop.
  pose proof (pop_dom _ _ _ Hpop) as Hdom'.
  destruct la as [|[x v] la].
  - rewrite (pop_empty _ _ Hr) in Hpop. injection Hpop as <- <-.
    by exists [], lb.
  - destruct (pop_top _ _ _ _ _ Hr) as (st'' & Hpop' & Hr').
    rewrite Hpop' in Hpop. injection Hpop as <- <-.
    exists la, ((x, v) :: lb). split; [done|]. split; [|congruence].
    rewrite <-Hown. symmetry. apply owned_middle.
Qed.

Lemma owns_push st nodes (p : ptr) sys st' calls :
  (∃ la lb, repr st la lb ∧ (la ++ lb).*1 ≡ₚ nodes ∧
            dom (concurrent_stack.nodes st) = list_to_set (C:=gset Z) nodes) →
  fresh_for st sys = true →
  concurrent_stack.push p sys st = Ret (st', calls) →
  (∃ la lb, repr st' la lb ∧ (la ++ lb).*1 ≡ₚ new_nodes calls ++ nodes ∧
            dom (concurrent_stack.nodes st')
            = list_to_set (C:=gset Z) (new_nodes calls ++ nodes)) ∧
  (calls = [] ∨ ∃ q, sys = Some q ∧ calls = [new_node q]).
Proof.
  intros (la & lb & Hr & Hown & Hdom) Hfresh Hpush.
  pose proof (push_dom _ _ _ _ _ Hpush) as Hdom'.
  destruct lb as [|[x w] lb].
  - destruct sys as [q|]; [|by rewrite (push_throws _ _ _ Hr) in Hpush].
    destruct (push_allocates _ _ q p Hr Hfresh) as (st'' & Hpush' & Hr').
    rewrite Hpush' in Hpush. injection Hpush as <- <-. split; [|right; eauto].
    exists ((q, p) :: la), []. split; [done|]. split.
    + rewrite app_nil_r in *. simpl. by rewrite Hown.
    + rewrite Hdom', Hdom. simpl. rewrite union_empty_r_L. apply union_comm_L.
  - destruct (push_recycles _ _ _ x w p sys Hr) as (st'' & Hpush' & Hr').
    rewrite Hpush' in Hpush. injection Hpush as <- <-. split; [|by left].
    exists ((x, p) :: la), lb. split; [done|]. split.
    + simpl. rewrite <-Hown. apply (owned_middle la lb x p w).
    + rewrite Hdom', Hdom. simpl. by rewrite union_empty_r_L.
Qed.

Lemma owns_clear st nodes (fuel : nat) :
  (∃ la lb, repr st la lb ∧ (la ++ lb).*1 ≡ₚ nodes ∧
            dom (concurrent_stack.nodes st) = list_to_set (C:=gset Z) nodes) →
  (length nodes < fuel)%nat →
  ∃ st' calls,
    concurrent_stack.clear fuel st = Ret (st', calls) ∧
    calls = delete_node <$> deleted_nodes calls ∧
    deleted_nodes calls ≡ₚ nodes ∧ concurrent_stack.nodes st' = ∅.
Proof.
  intros (la & lb & Hr & Hown & Hdom) Hfuel.
  pose proof (Permutation_length Hown) as Hlen.
  rewrite length_fmap, length_app in Hlen.
  destruct (clear_reclaims fuel st la lb Hr ltac:(lia) ltac:(lia))
    as (st' & Hclear & Hr' & Hsize & Hnodes).
  assert ((delete_node <$> la.*1) ++ (delete_node <$> lb.*1)
          = delete_node <$> (la ++ lb).*1) as Hcalls
    by (by rewrite !fmap_app).
  rewrite Hcalls in Hclear.
  replace (la.*1 ++ lb.*1) with ((la ++ lb).*1) in Hnodes by (by rewrite fmap_app).
  exists st', (delete_node <$> (la ++ lb).*1).
  rewrite deleted_nodes_delete. split_and!; try done.
  rewrite Hnodes. apply delete_all_empty.
  intros k Hk. rewrite Hown. rewrite Hdom in Hk. by apply elem_of_list_to_set in Hk.
Qed.

Lemma Forall2_insert_l {A C} (R : A → C → Prop) (l : list A) (k : list C) (i : nat) x x' :
  Forall2 R l k → l !! i = Some x → (∀ y, k !! i = Some y → R x y → R x' y) →
  Forall2 R (<[i := x']> l) k.
Proof.
  intros HF Hx Hstep. destruct (Forall2_lookup_l _ _ _ _ _ HF Hx) as (y & Hy & HR).
  rewrite <-(list_insert_id k i y Hy). apply Forall2_insert; [done|]. by apply Hstep.
Qed.

Lemma concat_insert_app (owned : list (list ptr)) (k : nat) (o fresh : list ptr) :
  owned !! k = Some o → mjoin (<[k := fresh ++ o]> owned) ≡ₚ fresh ++ mjoin owned.
Proof.
  revert k. induction owned as [|a owned IH]; intros [|k] Hk; try done; simpl in *.
  - injection Hk as ->. by rewrite app_assoc.
  - rewrite (IH k Hk). rewrite !app_assoc. apply Permutation_app_tail, Permutation_app_comm.
Qed.
End node_lemmas.

Section pool_node_lemmas.
Context {B : Type} `{!BlockAllocator B}.
Import pool_allocator pool pool_history usage.
Implicit Types (s : t B) (R : concurrent_stack.t ptr → list ptr → Prop).
#[local] Arguments concurrent_stack.push {T} v sys s : simpl never.
#[local] Arguments concurrent_stack.pop {T} s : simpl never.

Lemma allocate_keeps R s n sys p s' calls owned :
  (∀ st o r st', R st o → concurrent_stack.pop st = Ret (r, st') → R st' o) →
  Forall2 R (large_buckets s) owned →
  allocate n sys s = Ret (p, s', calls) →
  Forall2 R (large_buckets s') owned ∧ new_nodes calls = [].
Proof.
  intros HR Hall. unfold allocate. case_bool_decide.
  - unfold allocate_large. case_bool_decide.
    + intros Hcall.
      apply bind_Ret_inv in Hcall as (bucket & _ & Hcall).
      apply bind_Ret_inv in Hcall as (st & [_ Hst]%index_Ret & Hcall).
      apply bind_Ret_inv in Hcall as ([r st'] & Hpop & Hcall).
      assert (Forall2 R (<[Z.to_nat (wrap_size_t (bucket - num_small s)) := st']>
                           (large_buckets s)) owned) as Hall'.
      { eapply Forall2_insert_l; [done|done|]. intros o _ Ho. by eapply HR. }
      destruct r as [q|].
      * by injection Hcall as <- <- <-.
      * apply bind_Ret_inv in Hcall as (size & _ & Hcall).
        apply allocate_fresh_result in Hcall as (_ & _ & -> & ->). done.
    + intros (_ & _ & -> & ->)%allocate_fresh_result. done.
  - intros Hcall.
    apply bind_Ret_inv in Hcall as (bucket & _ & Hcall).
    apply bind_Ret_inv in Hcall as (ba & _ & Hcall).
    destruct (alloc ba) as [q ba']. by injection Hcall as <- <- <-.
Qed.

Lemma deallocate_keeps R s p n sys s' calls owned :
  (∀ st o st' calls', R st o → history.fresh_for st sys = true →
     concurrent_stack.push p sys st = Ret (st', calls') →
     R st' (new_nodes calls' ++ o) ∧
     (calls' = [] ∨ ∃ q, sys = Some q ∧ calls' = [new_node q])) →
  Forall2 R (large_buckets s) owned → pool.fresh_for s sys = true →
  deallocate p n sys s = Ret (s', calls) →
  ∃ owned',
    Forall2 R (large_buckets s') owned' ∧
    mjoin owned' ≡ₚ new_nodes calls ++ mjoin owned ∧
    (new_nodes calls = [] ∨ ∃ q, sys = Some q ∧ new_nodes calls = [q]).
Proof.
  intros HR Hall Hfresh. unfold deallocate. case_bool_decide.
  - unfold deallocate_large. case_bool_decide.
    + intros [= <- <-]. exists owned. split_and!; [done|done|by left].
    + intros Hcall.
      apply bind_Ret_inv in Hcall as (bucket & _ & Hcall).
      apply bind_Ret_inv in Hcall as (st & Hidx & Hcall).
      apply bind_Ret_inv in Hcall as ([st' calls'] & Hpush & Hcall).
      injection Hcall as <- <-.
      pose proof (fresh_for_bucket _ _ _ _ Hfresh Hidx) as Hfr.
      apply index_Ret in Hidx as [_ Hst].
      destruct (Forall2_lookup_l _ _ _ _ _ Hall Hst) as (o & Ho & HRo).
      destruct (HR _ _ _ _ HRo Hfr Hpush) as [HR' Hcalls].
      exists (<[Z.to_nat (wrap_size_t (bucket - num_small s)) := new_nodes calls' ++ o]> owned).
      split_and!.
      * simpl. by apply Forall2_insert.
      * by apply concat_insert_app.
      * destruct Hcalls as [->|(q & -> & ->)]; [by left|right; eauto].
  - intros Hcall.
    apply bind_Ret_inv in Hcall as (bucket & _ & Hcall).
    apply bind_Ret_inv in Hcall as (ba & _ & Hcall).
    injection Hcall as <- <-. exists owned. split_and!; [done|done|by left].
Qed.

Lemma clear_bucket_keeps R fuel :
  (∀ st o r st', R st o → concurrent_stack.pop st = Ret (r, st') → R st' o) →
  ∀ i s s' calls owned,
    Forall2 R (large_buckets s) owned →
    clear_bucket fuel i s = Ret (s', calls) →
    Forall2 R (large_buckets s') owned ∧ new_nodes calls = [].
Proof.
  intros HR. induction fuel as [|fuel IH]; intros i s s' calls owned Hall Hcall; [done|].
  cbn [clear_bucket] in Hcall.
  apply bind_Ret_inv in Hcall as (st & [_ Hst]%index_Ret & Hcall).
  apply bind_Ret_inv in Hcall as ([r st'] & Hpop & Hcall).
  assert (Forall2 R (<[Z.to_nat (wrap_size_t (i - num_small s)) := st']>
                       (large_buckets s)) owned) as Hall'.
  { eapply Forall2_insert_l; [done|done|]. intros o _ Ho. by eapply HR. }
  destruct r as [q|].
  - apply bind_Ret_inv in Hcall as (size & _ & Hcall).
    apply bind_Ret_inv in Hcall as ([s2 calls2] & Hrec & Hcall).
    injection Hcall as <- <-.
    eapply (IH _ _ _ _ owned) in Hrec as [Hall2 Hnew]; [|exact Hall']. split; [done|].
    unfold new_nodes in *. by rewrite bind_cons.
  - by injection Hcall as <- <-.
Qed.

Lemma clear_keeps R fuel s s' calls owned :
  (∀ st o r st', R st o → concurrent_stack.pop st = Ret (r, st') → R st' o) →
  Forall2 R (large_buckets s) owned →
  clear fuel s = Ret (s', calls) →
  Forall2 R (large_buckets s') owned ∧ new_nodes calls = [].
Proof.
  intros HR. unfold clear.
  generalize (Z.to_nat (num_buckets s - num_small s)) as todo.
  generalize (num_small s) as i. intros i todo. revert i s s' calls.
  induction todo as [|todo IH]; intros i s s' calls Hall Hcall.
  - by injection Hcall as <- <-.
  - cbn [clear_from] in Hcall.
    apply bind_Ret_inv in Hcall as ([s1 calls1] & Hone & Hcall).
    apply bind_Ret_inv in Hcall as ([s2 calls2] & Hrest & Hcall).
    injection Hcall as <- <-.
    destruct (clear_bucket_keeps R fuel HR _ _ _ _ owned Hall Hone) as [Hall1 Hnew1].
    destruct (IH _ _ _ _ Hall1 Hrest) as [Hall2 Hnew2]. split; [done|].
    unfold new_nodes in *. by rewrite bind_app, Hnew1, Hnew2.
Qed.

Lemma new_nodes_app (l k : list sys_call) : new_nodes (l ++ k) = new_nodes l ++ new_nodes k.
Proof. unfold new_nodes. by rewrite bind_app. Qed.

Lemma run_nodes ops :
  ∀ s owned s' es calls,
    Forall2 (λ st nodes,
               ∃ la lb, history.repr st la lb ∧ (la ++ lb).*1 ≡ₚ nodes ∧
                        dom (concurrent_stack.nodes st) = list_to_set (C:=gset Z) nodes)
      (large_buckets s) owned →
    NoDup (mjoin owned) →
    runtime_ok ops s = true →
    run ops s = Ret (s', es, calls) →
    ∃ owned',
      Forall2 (λ st nodes,
                 ∃ la lb, history.repr st la lb ∧ (la ++ lb).*1 ≡ₚ nodes ∧
                          dom (concurrent_stack.nodes st) = list_to_set (C:=gset Z) nodes)
        (large_buckets s') owned' ∧
      mjoin owned' ≡ₚ new_nodes calls ++ mjoin owned ∧
      NoDup (mjoin owned').
Proof.
  induction ops as [|o ops IH]; intros s owned s' es calls Hall Hnd Hok Hrun.
  - injection Hrun as <- <- <-. by exists owned.
  - apply run_cons_inv in Hrun as (s1 & e & calls1 & es' & calls' & Hstep & Hrun & -> & ->).
    cbn [runtime_ok] in Hok. apply andb_prop in Hok as [Hfresh Hok]. rewrite Hstep in Hok.
    assert (∃ owned1,
      Forall2 (λ st nodes,
                 ∃ la lb, history.repr st la lb ∧ (la ++ lb).*1 ≡ₚ nodes ∧
                          dom (concurrent_stack.nodes st) = list_to_set (C:=gset Z) nodes)
        (large_buckets s1) owned1 ∧
      mjoin owned1 ≡ₚ new_nodes calls1 ++ mjoin owned ∧
      NoDup (mjoin owned1)) as (owned1 & Hall1 & Hperm1 & Hnd1).
    { destruct o as [n sys|p n sys|fuel]; simpl in Hstep.
      - destruct (allocate n sys s) as [[[p s2] calls2]|ex| |] eqn:Hcall; try done.
        + injection Hstep as <- <- <-.
          destruct (allocate_keeps _ _ _ _ _ _ _ owned owns_pop Hall Hcall) as [Hall1 Hnew].
          exists owned. by rewrite Hnew.
        + injection Hstep as <- <- <-. by exists owned.
      - destruct (deallocate p n sys s) as [[s2 calls2]|ex| |] eqn:Hcall; try done.
        + injection Hstep as <- <- <-.
          destruct (deallocate_keeps _ _ _ _ _ _ _ owned
                      (λ st o st' calls', owns_push st o p sys st' calls') Hall Hfresh Hcall)
            as (owned1 & Hall1 & Hperm1 & Hnew).
          exists owned1. split; [done|]. split; [done|]. rewrite Hperm1.
          destruct Hnew as [->|(q & -> & ->)]; [done|]. simpl.
          apply NoDup_cons. split; [|done].
          intros (o & Hq & Ho)%list_elem_of_join.
          apply list_elem_of_lookup_1 in Ho as [i Hi].
          destruct (Forall2_lookup_r _ _ _ _ _ Hall Hi) as (st & Hst & la & lb & _ & _ & Hdom).
          assert (history.fresh_for st (Some q) = true) as Hfr.
          { unfold pool.fresh_for in Hfresh. apply Is_true_true, forallb_True in Hfresh.
            rewrite Forall_forall in Hfresh. apply Is_true_true, Hfresh.
            by eapply list_elem_of_lookup_2. }
          apply fresh_for_Some in Hfr as [_ Hnone].
          apply not_elem_of_dom in Hnone. apply Hnone. rewrite Hdom.
          by apply elem_of_list_to_set.
        + injection Hstep as <- <- <-. by exists owned.
      - destruct (clear fuel s) as [[s2 calls2]|ex| |] eqn:Hcall; try done.
        cbn [mbind result_bind] in Hstep. injection Hstep as <- <- <-.
        destruct (clear_keeps _ _ _ _ _ owned owns_pop Hall Hcall) as [Hall1 Hnew].
        exists owned. by rewrite Hnew. }
    destruct (IH s1 owned1 s' es' calls' Hall1 Hnd1 Hok Hrun)
      as (owned' & Hall' & Hperm' & Hnd').
    exists owned'. split; [done|]. split; [|done].
    rewrite Hperm', Hperm1, new_nodes_app.
    rewrite !app_assoc. apply Permutation_app_tail, Permutation_app_comm.
Qed.
End pool_node_lemmas.

Section pool_node_theorems.
Context {B : Type} `{!BlockAllocator B}.
Import pool_allocator pool pool_history usage.
Implicit Types (s : t B).

(** X18. The stack nodes of a pool. Over any history from the
    construction on, the nodes that the stacks of the large buckets have
    obtained from the runtime are distinct, and each belongs to exactly one
    of the stacks: [clear()] of that stack, which is its destructor, gives
    back the nodes of the stack, each once, and leaves it without memory,
    whether the nodes hold a block at the time or are kept as spares. *)
Theorem stack_nodes_of_a_pool_are_accounted_for (sizes : list Z) (ops : list op)
    s0 s es calls :
  pool_allocator sizes = Ret s0 →
  runtime_ok ops s0 = true →
  run ops s0 = Ret (s, es, calls) →
  NoDup (new_nodes calls) ∧
  ∃ owned : list (list ptr),
    mjoin owned ≡ₚ new_nodes calls ∧
    Forall2 (λ st nodes,
               ∀ fuel : nat, (length nodes < fuel)%nat →
                 ∃ st' calls',
                   concurrent_stack.clear fuel st = Ret (st', calls') ∧
                   calls' = delete_node <$> deleted_nodes calls' ∧
                   deleted_nodes calls' ≡ₚ nodes ∧
                   concurrent_stack.nodes st' = ∅)
      (large_buckets s) owned.
Proof.
  intros Hs0 Hok Hrun.
  destruct (constructed_holds_nothing sizes s0 Hs0) as (_ & _ & _).
  assert (large_buckets s0
          = replicate (length (large_buckets s0)) concurrent_stack.init) as Hlbs.
  { unfold pool_allocator in Hs0.
    apply bind_Ret_inv in Hs0 as (mx & _ & Hs0).
    apply bind_Ret_inv in Hs0 as (ms & _ & Hs0).
    apply bind_Ret_inv in Hs0 as (sa & _ & Hs0).
    injection Hs0 as <-. simpl. by rewrite length_replicate. }
  destruct (run_nodes ops s0 (replicate (length (large_buckets s0)) []) s es calls)
    as (owned & Hall & Hperm & Hnd); [| |done|done|].
  - rewrite Hlbs at 1. apply Forall2_replicate.
    exists [], []. destruct (owns_init) as [Hr Hdom]. by split_and!.
  - clear. induction (length (large_buckets s0)) as [|m IH]; [constructor|done].
  - assert (mjoin (replicate (length (large_buckets s0)) (@nil ptr)) = []) as Hnil.
    { clear. induction (length (large_buckets s0)) as [|m IH]; [done|done]. }
    rewrite Hnil, app_nil_r in Hperm. split; [by rewrite <-Hperm|].
    exists owned. split; [done|].
    eapply Forall2_impl; [exact Hall|]. intros st nodes Howns fuel Hfuel.
    by apply owns_clear.
Qed.
End pool_node_theorems.

Section pool_node_examples.
Import pool_allocator pool pool_history usage samples pool_samples.

Lemma stack_nodes_of_a_pool_are_accounted_for_witness :
  pool_allocator scenario_sizes = Ret scenario_pool ∧
  runtime_ok sample_pool_history scenario_pool = true ∧
  ∃ s es calls,
    run sample_pool_history scenario_pool = Ret (s, es, calls) ∧
    NoDup (new_nodes calls) ∧
    ∃ owned : list (list ptr),
      mjoin owned ≡ₚ new_nodes calls ∧
      Forall2 (λ st nodes,
                 ∀ fuel : nat, (length nodes < fuel)%nat →
                   ∃ st' calls',
                     concurrent_stack.clear fuel st = Ret (st', calls') ∧
                     calls' = delete_node <$> deleted_nodes calls' ∧
                     deleted_nodes calls' ≡ₚ nodes ∧
                     concurrent_stack.nodes st' = ∅)
        (large_buckets s) owned.
Proof.
  assert (runtime_ok sample_pool_history scenario_pool = true) as Hok
    by (vm_compute; reflexivity).
  split; [exact scenario_pool_constructed|]. split; [exact Hok|].
  destruct (run sample_pool_history scenario_pool) as [[[s es] calls]| | |] eqn:Hrun;
    [|vm_compute in Hrun; discriminate..].
  exists s, es, calls. split; [reflexivity|].
  exact (stack_nodes_of_a_pool_are_accounted_for scenario_sizes sample_pool_history
           scenario_pool s es calls scenario_pool_constructed Hok Hrun).
Defined.
End pool_node_examples.
